(** * HD44780 character LCD driver (4-bit bus): model and verification

    The repository holds two copies of one driver class [Lcd]: a plain
    promise version ([src/unnamed/part_000]) and [src/lcd-ts.ts], which adds
    callback / event reporting.  Both are embedded here.  Asynchronous code is written in a
    small monad [Prog] whose nodes are the effects the driver performs (pin
    writes, waits, lock release, completion reports); an interpreter [run]
    gives the event trace of one operation run alone, and a task pool
    ([Pool], [step], [exec]) gives the traces of operations that overlap. *)

From Stdlib Require Import ZArith List String Bool Arith Lia Permutation.
From Equations Require Import Equations.
Import ListNotations.
Open Scope Z_scope.

(** ** JavaScript values used by the driver *)

(** The numbers the driver computes with are integers, plus [NaN], which
    arises when a table lookup yields [undefined].  Fractions are not
    modelled. *)
Inductive number := Int (z : Z) | NaN.

(** A JavaScript string is a sequence of UTF-16 code units. *)
Definition JsString := list Z.

Inductive any :=
| Undefined
| Null
| Boolean (b : bool)
| Num (n : number)
| Str (s : JsString)
| Obj.

Module Js.

(** ToInt32: wrap an integer into [-2^31, 2^31); [NaN] becomes 0. *)
Definition toInt32 (n : number) : Z :=
  match n with
  | NaN => 0
  | Int z => let m := z mod 2 ^ 32 in if m <? 2 ^ 31 then m else m - 2 ^ 32
  end.

(** [a >> k] *)
Definition shr (a : number) (k : Z) : number :=
  Int (Z.shiftr (toInt32 a) (k mod 32)).

(** [a & b] *)
Definition and (a b : number) : number :=
  Int (Z.land (toInt32 a) (toInt32 b)).

(** [a | b] *)
Definition or (a b : number) : number :=
  Int (Z.lor (toInt32 a) (toInt32 b)).

(** [~a] *)
Definition not (a : number) : number := Int (Z.lnot (toInt32 a)).

(** ToNumber, on the values that reach an addition in the driver. *)
Definition toNumber (v : any) : number :=
  match v with
  | Num n => n
  | Null => Int 0
  | Boolean b => Int (Z.b2z b)
  | _ => NaN
  end.

(** [a + b] on numbers.  The sum is exact; JavaScript adds doubles, which
    round above 2^53, a range no cursor address comes near. *)
Definition add (a b : number) : number :=
  match a, b with
  | Int x, Int y => Int (x + y)
  | _, _ => NaN
  end.

Definition typeof (v : any) : string :=
  match v with
  | Undefined => "undefined"
  | Null => "object"
  | Boolean _ => "boolean"
  | Num _ => "number"
  | Str _ => "string"
  | Obj => "object"
  end.

Definition truthy (v : any) : bool :=
  match v with
  | Undefined | Null => false
  | Boolean b => b
  | Num (Int z) => negb (z =? 0)
  | Num NaN => false
  | Str s => negb (Nat.eqb (List.length s) 0)
  | Obj => true
  end.

(** [arr[i]] on an array of numbers: [undefined] out of range. *)
Definition index (arr : list Z) (i : Z) : any :=
  if i <? 0 then Undefined
  else match nth_error arr (Z.to_nat i) with
       | Some x => Num (Int x)
       | None => Undefined
       end.

(** [str.charCodeAt(i)] *)
Definition charCodeAt (str : JsString) (i : nat) : number :=
  match nth_error str i with
  | Some c => Int c
  | None => NaN
  end.

End Js.

(** ** Constants of both source files *)

Definition ROW_OFFSETS : list Z := [0x00; 0x40; 0x14; 0x54].

Module COMMANDS.
Definition CLEAR_DISPLAY := Int 0x01.
Definition HOME := Int 0x02.
Definition SET_CURSOR := Int 0x80.
Definition DISPLAY_ON := Int 0x04.
Definition DISPLAY_OFF := Js.not (Int 0x04).
Definition CURSOR_ON := Int 0x02.
Definition CURSOR_OFF := Js.not (Int 0x02).
Definition BLINK_ON := Int 0x01.
Definition BLINK_OFF := Js.not (Int 0x01).
Definition LEFT_TO_RIGHT := Int 0x02.
Definition RIGHT_TO_LEFT := Js.not (Int 0x02).
Definition AUTOSCROLL_ON := Int 0x01.
Definition AUTOSCROLL_OFF := Js.not (Int 0x01).
End COMMANDS.

(** ** Effects *)

(** The Gpio objects an [Lcd] owns, by their role: [this.rs], [this.e] and
    [this.data[i]]. *)
Inductive Pin := RS | E | D (i : nat).

Inductive Error :=
| NotANumber   (* Error('Value passed to .write4Bits must be a number') *)
| PinFault.    (* a Gpio write that throws or rejects *)

(** What a completion callback or an emitted event carries. *)
Inductive Arg := AErr (err : Error) | AVal (v : any).

Inductive Event :=
| WriteSync (g : Pin) (v : number)     (* gpio.writeSync(v) *)
| Write (g : Pin) (v : number)         (* gpio.write(v), promise form *)
| Sleepus (us : Z)                     (* busy wait *)
| Delay (ms : Z)                       (* setTimeout *)
| Immediate                            (* setImmediate *)
| Release                              (* release() of the lock *)
| Resolve                              (* resolve() of the operation's promise *)
| Reject (err : Error)                 (* reject(err) of the operation's promise *)
| Callback (a : Arg)                   (* cb(a) *)
| Emit (event : string) (a : Arg).     (* this.emit(event, a) *)

Definition is_pin_write (ev : Event) : bool :=
  match ev with
  | WriteSync _ _ | Write _ _ => true
  | _ => false
  end.

(** Asynchronous code.  [Sync] performs an effect and goes on in the same
    turn of the event loop; [Await] issues the listed operations together and
    suspends until all of them have settled.  The boolean handed to the
    continuation tells whether every pin write among them succeeded. *)
Inductive Prog :=
| Ret (v : any)
| Throw (err : Error)
| Sync (ev : Event) (k : bool -> Prog)
| Await (evs : list Event) (k : bool -> Prog).

Fixpoint bind (p : Prog) (f : any -> Prog) : Prog :=
  match p with
  | Ret v => f v
  | Throw err => Throw err
  | Sync ev k => Sync ev (fun ok => bind (k ok) f)
  | Await evs k => Await evs (fun ok => bind (k ok) f)
  end.

(** [try { p } catch (err) { h err }] *)
Fixpoint try_catch (p : Prog) (h : Error -> Prog) : Prog :=
  match p with
  | Ret v => Ret v
  | Throw err => h err
  | Sync ev k => Sync ev (fun ok => try_catch (k ok) h)
  | Await evs k => Await evs (fun ok => try_catch (k ok) h)
  end.

Declare Scope prog_scope.
Delimit Scope prog_scope with prog.
Notation "p ;; q" := (bind p (fun _ => q))
  (at level 61, right associativity) : prog_scope.
Open Scope prog_scope.

Definition settled (ok : bool) : Prog :=
  if ok then Ret Undefined else Throw PinFault.

(** An effect that cannot fail. *)
Definition perform (ev : Event) : Prog := Sync ev (fun _ => Ret Undefined).

Definition writeSync (g : Pin) (v : number) : Prog := Sync (WriteSync g v) settled.
Definition await_all (evs : list Event) : Prog := Await evs settled.
Definition delay (time : Z) : Prog := Await [Delay time] (fun _ => Ret Undefined).
Definition sleepus (usDelay : Z) : Prog := perform (Sleepus usDelay).
Definition setImmediate : Prog := Await [Immediate] (fun _ => Ret Undefined).
Definition release : Prog := perform Release.
Definition resolve : Prog := perform Resolve.
Definition reject (err : Error) : Prog := perform (Reject err).

(** ** Running one operation alone *)

(** The hardware decides which pin writes fail: [hw n] tells whether the
    [n]-th pin write issued since the start succeeds. *)
Definition Hardware := nat -> bool.

(** Hardware on which every pin write behaves alike. *)
Definition steady (b : bool) : Hardware := fun _ => b.

Definition hw_ok : Hardware := steady true.
Definition hw_dead : Hardware := steady false.

Inductive Outcome := Ok (v : any) | Err (err : Error).

(** Issue [evs] with [n] pin writes already made: whether all succeeded, and
    the new count. *)
Fixpoint settle (hw : Hardware) (n : nat) (evs : list Event) : bool * nat :=
  match evs with
  | [] => (true, n)
  | ev :: evs' =>
      if is_pin_write ev
      then let '(ok, n') := settle hw (S n) evs' in (hw n && ok, n')
      else settle hw n evs'
  end.

(** Result, events in the order they were issued, pin writes made. *)
Fixpoint run (hw : Hardware) (n : nat) (p : Prog) : Outcome * list Event * nat :=
  match p with
  | Ret v => (Ok v, [], n)
  | Throw err => (Err err, [], n)
  | Sync ev k =>
      let '(ok, n1) := settle hw n [ev] in
      let '(o, t, n2) := run hw n1 (k ok) in
      (o, ev :: t, n2)
  | Await evs k =>
      let '(ok, n1) := settle hw n evs in
      let '(o, t, n2) := run hw n1 (k ok) in
      (o, evs ++ t, n2)
  end.

Definition outcome_of (hw : Hardware) (p : Prog) : Outcome := fst (fst (run hw 0 p)).
Definition trace_of (hw : Hardware) (p : Prog) : list Event := snd (fst (run hw 0 p)).

(** ** The driver object *)

Record LcdConfig := {
  cfg_rs : Z;
  cfg_e : Z;
  cfg_data : Z * Z * Z * Z;
  cfg_cols : Z;
  cfg_rows : Z;
  cfg_largeFont : bool;
  cfg_notAutomaticInit : bool
}.

Record Lcd := {
  rs : Z;
  e : Z;
  data : list Z;
  cols : Z;
  rows : Z;
  largeFont : bool;
  displayControl : number;
  displayMode : number
}.

Definition set_displayControl (this : Lcd) (v : number) : Lcd :=
  {| rs := rs this; e := e this; data := data this; cols := cols this;
     rows := rows this; largeFont := largeFont this;
     displayControl := v; displayMode := displayMode this |}.

Definition set_displayMode (this : Lcd) (v : number) : Lcd :=
  {| rs := rs this; e := e this; data := data this; cols := cols this;
     rows := rows this; largeFont := largeFont this;
     displayControl := displayControl this; displayMode := v |}.

(** The object the constructor builds ([x || d] on a number is [d] when [x]
    is 0).  The automatic [this.init()] it may start is the operation [init]
    below. *)
Definition constructor (config : LcdConfig) : Lcd :=
  let '(d0, d1, d2, d3) := cfg_data config in
  {| cols := if cfg_cols config =? 0 then 16 else cfg_cols config;
     rows := if cfg_rows config =? 0 then 1 else cfg_rows config;
     largeFont := cfg_largeFont config;
     rs := cfg_rs config;
     e := cfg_e config;
     data := [d0; d1; d2; d3];
     displayControl := Int 0x0c;
     displayMode := Int 0x06 |}.

(** [arr.map((x, i) => f x i)] *)
Fixpoint mapi_from {A B} (i : nat) (f : A -> nat -> B) (arr : list A) : list B :=
  match arr with
  | [] => []
  | x :: arr' => f x i :: mapi_from (S i) f arr'
  end.

Definition mapi {A B} (f : A -> nat -> B) (arr : list A) : list B := mapi_from 0 f arr.

(** ** The driver core (identical text in both source files) *)

Module Lcd.

(** Past the guard [val] is a number, and [Js.toNumber] is the identity on
    it. *)
Definition write4Bits (this : Lcd) (val : any) : Prog :=
  if negb (String.eqb (Js.typeof val) "number") then Throw NotANumber
  else
    let val := Js.toNumber val in
    await_all [Write E (Int 1)] ;;
    await_all (mapi (fun (gpio : Z) i =>
                       Write (D i) (Js.and (Js.shr val (Z.of_nat i)) (Int 1)))
                    (data this)) ;;
    await_all [Write E (Int 0)] ;;
    sleepus 1.

Definition send (this : Lcd) (val : number) (mode : number) : Prog :=
  writeSync RS mode ;;
  write4Bits this (Num (Js.shr val 4)) ;;
  write4Bits this (Num val).

Definition command (this : Lcd) (cmd : number) : Prog :=
  send this cmd (Int 0) ;;
  sleepus 39.

Definition write (this : Lcd) (val : number) : Prog :=
  send this val (Int 1) ;;
  sleepus 43.

Definition displayFunction (this : Lcd) : number :=
  let displayFunction := Int 0x20 in
  let displayFunction :=
    if rows this >? 1 then Js.or displayFunction (Int 0x08) else displayFunction in
  let displayFunction :=
    if (rows this =? 1) && largeFont this
    then Js.or displayFunction (Int 0x04) else displayFunction in
  displayFunction.

Definition init (this : Lcd) : Prog :=
  delay 16 ;;
  write4Bits this (Num (Int 0x03)) ;;
  delay 16 ;;
  write4Bits this (Num (Int 0x03)) ;;
  delay 2 ;;
  write4Bits this (Num (Int 0x03)) ;;
  delay 2 ;;
  write4Bits this (Num (Int 0x02)) ;;
  command this (displayFunction this) ;;
  command this (Int 0x10) ;;
  command this (displayControl this) ;;
  command this (displayMode this) ;;
  command this (Int 0x01) ;;
  delay 3.

End Lcd.

(** ** Operations *)

(** What a call of a public method starts.  [Async p] is the body of an async
    function, which runs at once up to its first suspension.  [Lock fn] is
    [this.lock(fn)]: [fn] runs on a later turn, once the lock is free.
    [Detach child rest] is a call of an async function whose promise is used
    without being awaited: [child] runs up to its first suspension, then
    [rest] goes on while [child] is still in flight.  When [child] fails
    before it has suspended, its [catch] is run here within the same turn;
    the source runs it some microtasks later, after [rest] has reached its
    own first suspension, so that a report made by that [catch] is logged
    before, not after, the timer [rest] starts.  Pin writes and waits are not
    affected. *)
Inductive Task :=
| Async (p : Prog)
| Lock (fn : Task)
| Detach (child : Prog) (rest : Task).

(** *** The plain promise file, [src/unnamed/part_000] *)

Module Plain.

Import COMMANDS.

Equations? printChar (this : Lcd) (str : JsString) (index : nat) : Prog
  by wf (List.length str - index)%nat lt :=
  printChar this str index with le_lt_dec (List.length str) index := {
    | left _ =>
        (* index >= str.length *)
        setImmediate ;;
        release ;;
        Ret Undefined
    | right _ =>
        setImmediate ;;
        try_catch
          (Lcd.write this (Js.charCodeAt str index) ;;
           printChar this str (S index) ;;
           Ret Undefined)
          (fun err => release ;; Throw err)
  }.
Proof. lia. Qed.

(** The callback [print] hands to the lock; a string argument is its own
    template-literal coercion. *)
Definition print_locked (this : Lcd) (val : JsString) : Prog :=
  let str := val in
  let displayFills := (List.length str / 80)%nat in
  let index := if (1 <? displayFills)%nat then ((displayFills - 1) * 80)%nat else 0%nat in
  try_catch
    (printChar this str index ;;
     resolve)
    (fun err => reject err).

Definition print (this : Lcd) (val : JsString) : Task :=
  Lock (Async (print_locked this val)).

Definition commandAndDelay_locked (this : Lcd) (command : number) (timeout : Z) : Prog :=
  try_catch
    (Lcd.command this command ;;
     delay timeout ;;
     resolve)
    (fun err => reject err) ;;
  release.

Definition commandAndDelay (this : Lcd) (command : number) (timeout : Z) : Task :=
  Lock (Async (commandAndDelay_locked this command timeout)).

Definition clear (this : Lcd) : Task := commandAndDelay this CLEAR_DISPLAY 3.

Definition home (this : Lcd) : Task := commandAndDelay this HOME 3.

Definition setCursor (this : Lcd) (col : number) (row : Z) : Prog :=
  let r := if row >? rows this then rows this - 1 else row in
  Lcd.command this
    (Js.or SET_CURSOR (Js.add col (Js.toNumber (Js.index ROW_OFFSETS r)))).

(** The toggles assign the register before anything is awaited: each gives
    the updated object and the command it then sends. *)
Definition display (this : Lcd) : Lcd * Prog :=
  let this := set_displayControl this (Js.or (displayControl this) DISPLAY_ON) in
  (this, Lcd.command this (displayControl this)).

Definition noDisplay (this : Lcd) : Lcd * Prog :=
  let this := set_displayControl this (Js.and (displayControl this) DISPLAY_OFF) in
  (this, Lcd.command this (displayControl this)).

Definition cursor (this : Lcd) : Lcd * Prog :=
  let this := set_displayControl this (Js.or (displayControl this) CURSOR_ON) in
  (this, Lcd.command this (displayControl this)).

Definition noCursor (this : Lcd) : Lcd * Prog :=
  let this := set_displayControl this (Js.and (displayControl this) CURSOR_OFF) in
  (this, Lcd.command this (displayControl this)).

Definition blink (this : Lcd) : Lcd * Prog :=
  let this := set_displayControl this (Js.or (displayControl this) BLINK_ON) in
  (this, Lcd.command this (displayControl this)).

Definition noBlink (this : Lcd) : Lcd * Prog :=
  let this := set_displayControl this (Js.and (displayControl this) BLINK_OFF) in
  (this, Lcd.command this (displayControl this)).



Definition leftToRight (this : Lcd) : Lcd * Prog :=
  let this := set_displayMode this (Js.or (displayMode this) LEFT_TO_RIGHT) in
  (this, Lcd.command this (displayMode this)).

Definition rightToLeft (this : Lcd) : Lcd * Prog :=
  let this := set_displayMode this (Js.and (displayMode this) RIGHT_TO_LEFT) in
  (this, Lcd.command this (displayMode this)).

Definition autoscroll (this : Lcd) : Lcd * Prog :=
  let this := set_displayMode this (Js.or (displayMode this) AUTOSCROLL_ON) in
  (this, Lcd.command this (displayMode this)).

Definition noAutoscroll (this : Lcd) : Lcd * Prog :=
  let this := set_displayMode this (Js.and (displayMode this) AUTOSCROLL_OFF) in
  (this, Lcd.command this (displayMode this)).

End Plain.

(** *** [src/lcd-ts.ts]: the same class with callbacks and events *)

Module Ts.

Import COMMANDS.

(** [cb] tells whether the caller passed a callback.  Without one the result
    is emitted as an event.  An emitter that has no listener for "error"
    throws from [emit('error', ...)] and what follows the call does not run:
    the emission modelled here is that of a driver with an "error" listener,
    and what is proved about failures reported to the caller is stated for
    calls with a callback. *)
Definition eventOrCB (err : option Error) (value : any) (event : string) (cb : bool) : Prog :=
  if cb then
    match err with
    | Some err => perform (Callback (AErr err))
    | None => perform (Callback (AVal value))
    end
  else
    perform (Emit event (match err with Some err => AErr err | None => AVal value end)).

Definition init (this : Lcd) : Prog :=
  Lcd.init this ;;
  perform (Emit "ready" (AVal Undefined)).

Equations? printChar (this : Lcd) (str : JsString) (index : nat) (cb : bool) : Prog
  by wf (List.length str - index)%nat lt :=
  printChar this str index cb with le_lt_dec (List.length str) index := {
    | left _ =>
        setImmediate ;;
        eventOrCB None (Str str) "printed" cb ;;
        release ;;
        Ret Undefined
    | right _ =>
        setImmediate ;;
        try_catch
          (Lcd.write this (Js.charCodeAt str index) ;;
           printChar this str (S index) cb ;;
           Ret Undefined)
          (fun err =>
             eventOrCB (Some err) Undefined "error" cb ;;
             release ;;
             Throw err)
  }.
Proof. lia. Qed.

Definition print_locked (this : Lcd) (val : JsString) (cb : bool) : Prog :=
  let str := val in
  let displayFills := (List.length str / 80)%nat in
  let index := if (1 <? displayFills)%nat then ((displayFills - 1) * 80)%nat else 0%nat in
  try_catch
    (printChar this str index cb ;;
     resolve)
    (fun err => reject err).

Definition print (this : Lcd) (val : JsString) (cb : bool) : Task :=
  Lock (Async (print_locked this val cb)).

Definition tryCommand (this : Lcd) (command : number) (cb : bool) : Prog :=
  try_catch
    (Lcd.command this command ;;
     Ret (Boolean true))
    (fun e =>
       eventOrCB (Some e) Undefined "error" cb ;;
       Ret (Boolean false)).

(** [if (this.tryCommand(command, cb))] tests the promise object the call
    returns, not the boolean it will hold. *)
Definition commandAndDelay_locked (timeout : Z) (event : string) (cb : bool) : Prog :=
  (if Js.truthy Obj
   then delay timeout ;; eventOrCB None Null event cb
   else Ret Undefined) ;;
  release ;;
  resolve.

Definition commandAndDelay (this : Lcd) (command : number) (timeout : Z)
    (event : string) (cb : bool) : Task :=
  Lock (Detach (tryCommand this command cb)
               (Async (commandAndDelay_locked timeout event cb))).

Definition clear (this : Lcd) (cb : bool) : Task :=
  commandAndDelay this CLEAR_DISPLAY 3 "clear" cb.

Definition home (this : Lcd) (cb : bool) : Task :=
  commandAndDelay this HOME 3 "home" cb.

End Ts.


(** ** Overlapping operations *)

(** Operations are numbered in the order they are called; a detached call
    gets an identity of its own. *)
Inductive Tid := Op (n : nat) | Detached (parent : Tid).

(** A suspended computation: a callback that has been granted the lock and
    waits for its turn, or code waiting for the operations it issued. *)
Inductive Susp := Start (t : Task) | Resume (p : Prog).

(** Modelled from the spec: the serializer lock ([mutexify], a package that
    is not part of the sources) is a mutual-exclusion lock with a first-in
    first-out queue of waiting callbacks; a callback that gets the lock runs
    on a later turn of the event loop, and [release()] hands the lock to the
    first waiting callback or leaves it free. *)
Record Pool := {
  pending : list (Tid * Susp);
  held : bool;
  queue : list (Tid * Task);
  log : list (Tid * Event);
  writes : nat
}.

Definition idle : Pool :=
  {| pending := []; held := false; queue := []; log := []; writes := 0 |}.

Definition tag (i : Tid) (evs : list Event) : list (Tid * Event) := map (pair i) evs.

Definition suspend (i : Tid) (s : Susp) (st : Pool) : Pool :=
  {| pending := pending st ++ [(i, s)]; held := held st; queue := queue st;
     log := log st; writes := writes st |}.

Definition release_lock (st : Pool) : Pool :=
  match queue st with
  | [] =>
      {| pending := pending st; held := false; queue := [];
         log := log st; writes := writes st |}
  | (i, fn) :: waiting =>
      {| pending := pending st ++ [(i, Start fn)]; held := true; queue := waiting;
         log := log st; writes := writes st |}
  end.

Definition acquire (i : Tid) (fn : Task) (st : Pool) : Pool :=
  if held st
  then {| pending := pending st; held := true; queue := queue st ++ [(i, fn)];
          log := log st; writes := writes st |}
  else {| pending := pending st ++ [(i, Start fn)]; held := true; queue := queue st;
          log := log st; writes := writes st |}.

(** One turn of a computation: the events up to and including those of its
    next [Await], and what is left of it ([None] when it has finished). *)
Fixpoint segment (hw : Hardware) (n : nat) (p : Prog) : list Event * option Prog * nat :=
  match p with
  | Ret _ | Throw _ => ([], None, n)
  | Sync ev k =>
      let '(ok, n1) := settle hw n [ev] in
      let '(seg, q, n2) := segment hw n1 (k ok) in
      (ev :: seg, q, n2)
  | Await evs k =>
      let '(ok, n1) := settle hw n evs in
      (evs, Some (k ok), n1)
  end.

(** The effect of the events of a turn on the lock. *)
Definition effects (seg : list Event) (st : Pool) : Pool :=
  fold_left (fun st ev => match ev with Release => release_lock st | _ => st end) seg st.

Definition resume (hw : Hardware) (i : Tid) (p : Prog) (st : Pool) : Pool :=
  let '(seg, q, n) := segment hw (writes st) p in
  let st := {| pending := pending st; held := held st; queue := queue st;
               log := log st ++ tag i seg; writes := n |} in
  let st := effects seg st in
  match q with
  | Some q => suspend i (Resume q) st
  | None => st
  end.

Fixpoint start (hw : Hardware) (i : Tid) (t : Task) (st : Pool) : Pool :=
  match t with
  | Async p => resume hw i p st
  | Lock fn => acquire i fn st
  | Detach child rest => start hw i rest (resume hw (Detached i) child st)
  end.

Fixpoint pick {A} (k : nat) (l : list A) {struct l} : option (A * list A) :=
  match l with
  | [] => None
  | x :: l' =>
      match k with
      | O => Some (x, l')
      | S k' =>
          match pick k' l' with
          | Some (y, r) => Some (y, x :: r)
          | None => None
          end
      end
  end.

(** One turn of the event loop: the suspended computation chosen by [s] goes
    on.  Which one is ready first depends on the timing of the hardware and
    the timers, so every choice is possible. *)
Definition step (hw : Hardware) (st : Pool) (s : nat) : Pool :=
  match pick (s mod List.length (pending st)) (pending st) with
  | None => st
  | Some ((i, c), others) =>
      let st := {| pending := others; held := held st; queue := queue st;
                   log := log st; writes := writes st |} in
      match c with
      | Start t => start hw i t st
      | Resume p => resume hw i p st
      end
  end.

Definition exec (hw : Hardware) (sched : list nat) (st : Pool) : Pool :=
  fold_left (step hw) sched st.

(** The operations [ops] called one after the other in one turn. *)
Fixpoint issue_from (hw : Hardware) (n : nat) (ops : list Task) (st : Pool) : Pool :=
  match ops with
  | [] => st
  | t :: ops' => issue_from hw (S n) ops' (start hw (Op n) t st)
  end.

Definition issue (hw : Hardware) (ops : list Task) : Pool := issue_from hw 0 ops idle.

Definition finished (st : Pool) : Prop := pending st = [] /\ queue st = [].

Definition events (st : Pool) : list Event := map snd (log st).


(** ** What the bus shows *)

(** The level driven on data line [i] for a nibble [nib]. *)
Definition bit (i : Z) (nib : Z) : number := Int (Z.b2z (Z.testbit nib i)).

(** One nibble on the bus: enable high, the four data lines, enable low, and
    the pulse-width wait. *)
Definition nibble_frame (nib : Z) : list Event :=
  [Write E (Int 1);
   Write (D 0) (bit 0 nib); Write (D 1) (bit 1 nib);
   Write (D 2) (bit 2 nib); Write (D 3) (bit 3 nib);
   Write E (Int 0);
   Sleepus 1].

(** A byte in the given mode: register select, high nibble, low nibble. *)
Definition byte_frame (mode : number) (v : Z) : list Event :=
  [WriteSync RS mode] ++ nibble_frame (Z.shiftr v 4) ++ nibble_frame (Z.land v 0xF).

Definition command_frame (v : Z) : list Event := byte_frame (Int 0) v ++ [Sleepus 39].

Definition character_frame (v : Z) : list Event := byte_frame (Int 1) v ++ [Sleepus 43].


(** Where [print] starts in a string of [len] code units. *)
Definition start_index (len : nat) : nat :=
  let n := (len / 80)%nat in
  if (1 <? n)%nat then ((n - 1) * 80)%nat else 0%nat.

(** The events of transmitting the code units [chars] one after the other,
    each in its own turn after [setImmediate]. *)
Definition characters (chars : list Z) : list Event :=
  flat_map (fun c => Immediate :: character_frame c) chars.

(** The event reports the failure [err] to the caller. *)
Definition reports_error (err : Error) (ev : Event) : Prop :=
  ev = Reject err \/ ev = Callback (AErr err) \/ exists name, ev = Emit name (AErr err).

(** Running [p] never fails with, nor reports, the error of the number guard
    of [write4Bits]. *)
Definition guard_silent (p : Prog) : Prop :=
  forall hw n,
    fst (fst (run hw n p)) <> Err NotANumber /\
    Forall (fun ev => ~ reports_error NotANumber ev) (snd (fst (run hw n p))).

(** The driver has its four data lines. *)
Definition wired (this : Lcd) : Prop := List.length (data this) = 4%nat.

(** What [eventOrCB] hands to the caller. *)
Definition notification (err : option Error) (value : any) (event : string) (cb : bool) : Event :=
  if cb then Callback (match err with Some err => AErr err | None => AVal value end)
  else Emit event (match err with Some err => AErr err | None => AVal value end).

(** The methods that set or clear one bit of a register. *)
Inductive Toggle :=
| Display | NoDisplay | Cursor | NoCursor | Blink | NoBlink
| LeftToRight | RightToLeft | Autoscroll | NoAutoscroll.

Definition toggle (t : Toggle) : Lcd -> Lcd * Prog :=
  match t with
  | Display => Plain.display
  | NoDisplay => Plain.noDisplay
  | Cursor => Plain.cursor
  | NoCursor => Plain.noCursor
  | Blink => Plain.blink
  | NoBlink => Plain.noBlink
  | LeftToRight => Plain.leftToRight
  | RightToLeft => Plain.rightToLeft
  | Autoscroll => Plain.autoscroll
  | NoAutoscroll => Plain.noAutoscroll
  end.

(** The register a toggle works on. *)
Definition register (t : Toggle) (this : Lcd) : number :=
  match t with
  | Display | NoDisplay | Cursor | NoCursor | Blink | NoBlink => displayControl this
  | LeftToRight | RightToLeft | Autoscroll | NoAutoscroll => displayMode this
  end.

(** The object after a sequence of toggles. *)
Definition after (ops : list Toggle) (this : Lcd) : Lcd :=
  fold_left (fun this t => fst (toggle t this)) ops this.

(** Both registers hold small non-negative integers. *)
Definition sane (this : Lcd) : Prop :=
  wired this /\
  exists c m, displayControl this = Int c /\ 0 <= c < 16 /\
              displayMode this = Int m /\ 0 <= m < 16.

(** A configuration with the given number of rows. *)
Definition sample_config (rows : Z) : LcdConfig :=
  {| cfg_rs := 27; cfg_e := 65; cfg_data := (23, 26, 46, 47);
     cfg_cols := 20; cfg_rows := rows; cfg_largeFont := false;
     cfg_notAutomaticInit := true |}.

(** *** Reasoning about overlapping operations *)

(** The events a suspended computation will still produce on steady
    hardware.  Only computations that neither ask for the lock nor detach a
    call are considered ([flat]). *)
Definition upcoming (b : bool) (c : Susp) : list Event :=
  match c with
  | Resume p | Start (Async p) => trace_of (steady b) p
  | Start _ => []
  end.

Definition upcoming_task (b : bool) (t : Task) : list Event :=
  match t with
  | Async p => trace_of (steady b) p
  | _ => []
  end.

Definition flat (c : Susp) : Prop :=
  match c with
  | Resume _ | Start (Async _) => True
  | Start _ => False
  end.

Definition flat_task (t : Task) : Prop :=
  match t with
  | Async _ => True
  | _ => False
  end.

(** What follows the first [Release] of a list of events. *)
Fixpoint after_release (l : list Event) : option (list Event) :=
  match l with
  | [] => None
  | Release :: l' => Some l'
  | _ :: l' => after_release l'
  end.

Definition release_free (l : list Event) : Prop := after_release l = None.

(** Nothing selected by [Q], and no second release, follows a release. *)
Definition release_final (Q : Event -> bool) (l : list Event) : Prop :=
  match after_release l with
  | None => True
  | Some l' => filter Q l' = [] /\ release_free l'
  end.

(** Selecting events of a log, and of what a computation will produce. *)
Definition observe (P : Tid -> Event -> bool) (l : list (Tid * Event)) : list (Tid * Event) :=
  filter (fun te => P (fst te) (snd te)) l.

Definition observed (P : Tid -> Event -> bool) (i : Tid) (l : list Event) : list (Tid * Event) :=
  tag i (filter (P i) l).

Definition option_list {A} (o : option A) : list A :=
  match o with
  | Some x => [x]
  | None => []
  end.

(** A suspended computation that produces nothing selected and never
    releases the lock. *)
Definition bystander (P : Tid -> Event -> bool) (b : bool) (c : Tid * Susp) : Prop :=
  flat (snd c) /\
  filter (P (fst c)) (upcoming b (snd c)) = [] /\
  release_free (upcoming b (snd c)).

Definition owner_ok (P : Tid -> Event -> bool) (b : bool) (waiting : list (Tid * Task))
    (o : option (Tid * Susp)) : Prop :=
  match o with
  | None => True
  | Some c =>
      flat (snd c) /\
      (waiting = [] \/ release_final (P (fst c)) (upcoming b (snd c)))
  end.

Definition waiting_ok (P : Tid -> Event -> bool) (b : bool) (w : Tid * Task) : Prop :=
  flat_task (snd w) /\ release_final (P (fst w)) (upcoming_task b (snd w)).

Definition owner_future (P : Tid -> Event -> bool) (b : bool)
    (o : option (Tid * Susp)) : list (Tid * Event) :=
  match o with
  | None => []
  | Some c => observed P (fst c) (upcoming b (snd c))
  end.

Definition queue_future (P : Tid -> Event -> bool) (b : bool)
    (q : list (Tid * Task)) : list (Tid * Event) :=
  List.concat (map (fun w => observed P (fst w) (upcoming_task b (snd w))) q).

(** At most one suspended computation (the owner) still has selected events
    to produce; with operations waiting for the lock, the owner and each of
    them in turn produces its selected events before it releases.  [F] is
    then what remains to be observed, in order. *)
Definition Serial (P : Tid -> Event -> bool) (b : bool) (st : Pool)
    (F : list (Tid * Event)) : Prop :=
  exists o others,
    Permutation (pending st) (option_list o ++ others) /\
    Forall (bystander P b) others /\
    owner_ok P b (queue st) o /\
    Forall (waiting_ok P b) (queue st) /\
    F = owner_future P b o ++ queue_future P b (queue st).

Definition next_of (i : Tid) (q : option Prog) : list (Tid * Susp) :=
  match q with
  | Some q => [(i, Resume q)]
  | None => []
  end.

(** *** Observations on logs *)

(** A report to the caller, or the release of the lock. *)
Definition is_report (ev : Event) : bool :=
  match ev with
  | Release | Resolve | Reject _ | Callback _ | Emit _ _ => true
  | _ => false
  end.

(** A report to the caller: the callback, a notification, or the settling of
    the promise. *)
Definition is_completion (ev : Event) : bool :=
  match ev with
  | Resolve | Reject _ | Callback _ | Emit _ _ => true
  | _ => false
  end.

(** Every report to the caller comes after a release of the lock. *)
Definition reported_after_release (l : list Event) : Prop :=
  forall l1 ev l2,
    l = l1 ++ ev :: l2 -> is_completion ev = true -> In Release l1.

Definition reports (l : list (Tid * Event)) : list (Tid * Event) :=
  observe (fun _ => is_report) l.

Definition pin_writes (l : list (Tid * Event)) : list (Tid * Event) :=
  observe (fun _ => is_pin_write) l.

(** No pin write of operation [i] comes after a pin write of operation [j]. *)
Definition before (i j : Tid) (l : list (Tid * Event)) : Prop :=
  forall l1 e2 l2 e1,
    l = l1 ++ (j, e2) :: l2 -> is_pin_write e2 = true ->
    In (i, e1) l2 -> is_pin_write e1 = true -> False.


(** The operations that take the lock and report their completion. *)
Inductive Mutating := Print (str : JsString) | Clear | Home.

Definition ts_operation (this : Lcd) (op : Mutating) (cb : bool) : Task :=
  match op with
  | Print str => Ts.print this str cb
  | Clear => Ts.clear this cb
  | Home => Ts.home this cb
  end.

Definition plain_operation (this : Lcd) (op : Mutating) : Task :=
  match op with
  | Print str => Plain.print this str
  | Clear => Plain.clear this
  | Home => Plain.home this
  end.

(** The callback a plain operation hands to the lock. *)
Definition plain_locked (this : Lcd) (op : Mutating) : Prog :=
  match op with
  | Print str => Plain.print_locked this str
  | Clear => Plain.commandAndDelay_locked this COMMANDS.CLEAR_DISPLAY 3
  | Home => Plain.commandAndDelay_locked this COMMANDS.HOME 3
  end.

(** What the caller is told when the operation succeeds. *)
Definition success (op : Mutating) (cb : bool) : Event :=
  match op with
  | Print str => notification None (Str str) "printed" cb
  | Clear => notification None Null "clear" cb
  | Home => notification None Null "home" cb
  end.


(** ** Further observations *)

(** Straight-line code: a pin write that fails ends it at once with the
    fault; nothing is caught and nothing is retried. *)
Inductive Straight : Prog -> Prop :=
| straight_ret v : Straight (Ret v)
| straight_sync ev k :
    Straight (k true) ->
    (is_pin_write ev = true -> k false = Throw PinFault) ->
    Straight (Sync ev k)
| straight_await evs k :
    Straight (k true) ->
    (existsb is_pin_write evs = true -> k false = Throw PinFault) ->
    Straight (Await evs k).

(** The events of [init] on healthy hardware. *)
Definition init_frame (this : Lcd) : list Event :=
  [Delay 16] ++ nibble_frame 0x03 ++
  [Delay 16] ++ nibble_frame 0x03 ++
  [Delay 2] ++ nibble_frame 0x03 ++
  [Delay 2] ++ nibble_frame 0x02 ++
  command_frame (Js.toInt32 (Lcd.displayFunction this)) ++
  command_frame 0x10 ++
  command_frame (Js.toInt32 (displayControl this)) ++
  command_frame (Js.toInt32 (displayMode this)) ++
  command_frame 0x01 ++
  [Delay 3].

(** *** The registers as flags *)

(** What the ten toggles are meant to switch: five independent settings. *)
Record Flags := {
  display_on : bool;
  cursor_on : bool;
  blink_on : bool;
  left_to_right : bool;
  autoscroll_on : bool
}.

(** The settings the constructor's register values 0x0c and 0x06 stand for. *)
Definition power_on : Flags :=
  {| display_on := true; cursor_on := false; blink_on := false;
     left_to_right := true; autoscroll_on := false |}.

Definition switch (t : Toggle) (f : Flags) : Flags :=
  match t with
  | Display => {| display_on := true; cursor_on := cursor_on f; blink_on := blink_on f;
                  left_to_right := left_to_right f; autoscroll_on := autoscroll_on f |}
  | NoDisplay => {| display_on := false; cursor_on := cursor_on f; blink_on := blink_on f;
                    left_to_right := left_to_right f; autoscroll_on := autoscroll_on f |}
  | Cursor => {| display_on := display_on f; cursor_on := true; blink_on := blink_on f;
                 left_to_right := left_to_right f; autoscroll_on := autoscroll_on f |}
  | NoCursor => {| display_on := display_on f; cursor_on := false; blink_on := blink_on f;
                   left_to_right := left_to_right f; autoscroll_on := autoscroll_on f |}
  | Blink => {| display_on := display_on f; cursor_on := cursor_on f; blink_on := true;
                left_to_right := left_to_right f; autoscroll_on := autoscroll_on f |}
  | NoBlink => {| display_on := display_on f; cursor_on := cursor_on f; blink_on := false;
                  left_to_right := left_to_right f; autoscroll_on := autoscroll_on f |}
  | LeftToRight => {| display_on := display_on f; cursor_on := cursor_on f;
                      blink_on := blink_on f;
                      left_to_right := true; autoscroll_on := autoscroll_on f |}
  | RightToLeft => {| display_on := display_on f; cursor_on := cursor_on f;
                      blink_on := blink_on f;
                      left_to_right := false; autoscroll_on := autoscroll_on f |}
  | Autoscroll => {| display_on := display_on f; cursor_on := cursor_on f;
                     blink_on := blink_on f;
                     left_to_right := left_to_right f; autoscroll_on := true |}
  | NoAutoscroll => {| display_on := display_on f; cursor_on := cursor_on f;
                       blink_on := blink_on f;
                       left_to_right := left_to_right f; autoscroll_on := false |}
  end.

Definition switched (ops : list Toggle) : Flags :=
  fold_left (fun f t => switch t f) ops power_on.

(** The HD44780 instruction bytes "display on/off control" (0b00001DCB) and
    "entry mode set" (0b000001IS) of a setting. *)
Definition control_byte (f : Flags) : Z :=
  0x08 + 4 * Z.b2z (display_on f) + 2 * Z.b2z (cursor_on f) + Z.b2z (blink_on f).

Definition mode_byte (f : Flags) : Z :=
  0x04 + 2 * Z.b2z (left_to_right f) + Z.b2z (autoscroll_on f).

(** The registers of [this] hold the bytes of the setting [f]. *)
Definition holds (f : Flags) (this : Lcd) : Prop :=
  displayControl this = Int (control_byte f) /\ displayMode this = Int (mode_byte f).

(** The row [setCursor] looks up in [ROW_OFFSETS]. *)
Definition row_used (this : Lcd) (row : Z) : Z :=
  if row >? rows this then rows this - 1 else row.

(** *** The bus as the controller sees it *)

(** The levels of the six lines. *)
Record Lines := {
  line_rs : bool;
  line_e : bool;
  line_d : nat -> bool
}.

Definition all_low : Lines :=
  {| line_rs := false; line_e := false; line_d := fun _ => false |}.

(** The level a Gpio write of [v] drives. *)
Definition level (v : number) : bool :=
  match v with
  | Int z => negb (z =? 0)
  | NaN => false
  end.

Definition drive (l : Lines) (g : Pin) (v : number) : Lines :=
  match g with
  | RS => {| line_rs := level v; line_e := line_e l; line_d := line_d l |}
  | E => {| line_rs := line_rs l; line_e := level v; line_d := line_d l |}
  | D i => {| line_rs := line_rs l; line_e := line_e l;
              line_d := fun j => if Nat.eqb j i then level v else line_d l j |}
  end.

Definition nibble_of (l : Lines) : Z :=
  Z.b2z (line_d l 0%nat) + 2 * Z.b2z (line_d l 1%nat) +
  4 * Z.b2z (line_d l 2%nat) + 8 * Z.b2z (line_d l 3%nat).

(** The controller reads register select and the data lines at every falling
    edge of enable. *)
Fixpoint latched (l : Lines) (t : list Event) : list (bool * Z) :=
  match t with
  | [] => []
  | ev :: t' =>
      match ev with
      | WriteSync g v | Write g v =>
          let l' := drive l g v in
          if line_e l && negb (line_e l')
          then (line_rs l', nibble_of l') :: latched l' t'
          else latched l' t'
      | _ => latched l t'
      end
  end.

(** The lines after the writes of [t]. *)
Definition lines_after (l : Lines) (t : list Event) : Lines :=
  fold_left (fun l ev => match ev with
                         | WriteSync g v | Write g v => drive l g v
                         | _ => l
                         end) t l.

(** In 4-bit operation two nibbles make a byte, high nibble first. *)
Fixpoint paired (ns : list (bool * Z)) : list (bool * Z) :=
  match ns with
  | (r, hi) :: (_, lo) :: rest => (r, 16 * hi + lo) :: paired rest
  | _ => []
  end.

(** The bytes a controller in 4-bit operation receives from a trace, each
    with the level of register select ([true]: data, [false]: instruction). *)
Definition received (t : list Event) : list (bool * Z) := paired (latched all_low t).

(** *** A print that stops *)

(** Transmission has stopped inside the [j]-th of the code units [sent],
    after the events [part] of its frame. *)
Definition stopped (sent : list Z) (j : nat) (part : list Event) : Prop :=
  exists c rest,
    nth_error sent j = Some c /\ part ++ rest = character_frame c /\ rest <> [].

(** *** Progress of overlapping operations *)

(** The number of times a computation suspends on steady hardware. *)
Fixpoint turns (b : bool) (p : Prog) : nat :=
  match p with
  | Ret _ | Throw _ => 0
  | Sync ev k => turns b (k (fst (settle (steady b) 0 [ev])))
  | Await evs k => S (turns b (k (fst (settle (steady b) 0 evs))))
  end.

(** The turns of the event loop a suspended computation still takes. *)
Definition weight (b : bool) (c : Susp) : nat :=
  match c with
  | Resume p | Start (Async p) => S (turns b p)
  | Start _ => 0
  end.

Definition task_weight (b : bool) (t : Task) : nat :=
  match t with
  | Async p => S (turns b p)
  | _ => 0
  end.

Definition pending_load (b : bool) (l : list (Tid * Susp)) : nat :=
  list_sum (map (fun c => weight b (snd c)) l).

Definition queue_load (b : bool) (l : list (Tid * Task)) : nat :=
  list_sum (map (fun w => task_weight b (snd w)) l).

(** The turns the pool still takes. *)
Definition load (b : bool) (st : Pool) : nat :=
  (pending_load b (pending st) + queue_load b (queue st))%nat.

(** Exactly one release. *)
Definition releases_once (l : list Event) : Prop :=
  exists l', after_release l = Some l' /\ release_free l'.

Definition quiet (b : bool) (c : Tid * Susp) : Prop :=
  flat (snd c) /\ release_free (upcoming b (snd c)).

Definition owner_live (b : bool) (waiting : list (Tid * Task))
    (o : option (Tid * Susp)) : Prop :=
  match o with
  | None => waiting = []
  | Some c => flat (snd c) /\ releases_once (upcoming b (snd c))
  end.

Definition waiting_live (b : bool) (w : Tid * Task) : Prop :=
  flat_task (snd w) /\ releases_once (upcoming_task b (snd w)).

(** Whenever an operation waits for the lock, a suspended computation is
    going to release it, once; every waiting operation will release once;
    nothing else releases. *)
Definition Live (b : bool) (st : Pool) : Prop :=
  exists o others,
    Permutation (pending st) (option_list o ++ others) /\
    Forall (quiet b) others /\
    owner_live b (queue st) o /\
    Forall (waiting_live b) (queue st).

(** The pin writes of the calls [ops], the calls one after the other in the
    order they were made. *)
Definition serial_order (b : bool) (this : Lcd) (ops : list Mutating) : list (Tid * Event) :=
  List.concat
    (mapi (fun op k =>
             tag (Op k) (filter is_pin_write (trace_of (steady b) (plain_locked this op))))
          ops).

(** *** Bus discipline *)

(** Register select is written only while enable is low, and a data line
    only while enable is high: what is latched at the falling edge has been
    set up during the pulse, and the register is chosen before the pulse
    begins. *)
Fixpoint disciplined (l : Lines) (t : list Event) : bool :=
  match t with
  | [] => true
  | ev :: t' =>
      match ev with
      | WriteSync g v | Write g v =>
          match g with
          | RS => negb (line_e l)
          | E => true
          | D i => line_e l && (i <? 4)%nat
          end && disciplined (drive l g v) t'
      | _ => disciplined l t'
      end
  end.

(** *** Programs on every hardware *)









(** *** Calls that release in their last turn *)

(** The rest of a turn on steady hardware: no suspension, no release, no
    failure. *)
Fixpoint calm (b : bool) (p : Prog) : Prop :=
  match p with
  | Ret _ => True
  | Throw _ => False
  | Sync ev k => release_free [ev] /\ calm b (k (fst (settle (steady b) 0 [ev])))
  | Await _ _ => False
  end.

(** Code that comes to its end without a release and without a failure. *)
Fixpoint passes (b : bool) (p : Prog) : Prop :=
  match p with
  | Ret _ => True
  | Throw _ => False
  | Sync ev k => release_free [ev] /\ passes b (k (fst (settle (steady b) 0 [ev])))
  | Await evs k => release_free evs /\ passes b (k (fst (settle (steady b) 0 evs)))
  end.

(** Code that releases the lock once, in its last turn, and does not fail. *)
Fixpoint owned (b : bool) (p : Prog) : Prop :=
  match p with
  | Ret _ | Throw _ => False
  | Sync ev k =>
      match ev with
      | Release => calm b (k (fst (settle (steady b) 0 [ev])))
      | _ => owned b (k (fst (settle (steady b) 0 [ev])))
      end
  | Await evs k => release_free evs /\ owned b (k (fst (settle (steady b) 0 evs)))
  end.

(** The code of a task that runs under the task's own identity, and the
    state after its detached calls have been started. *)
Fixpoint main (t : Task) : Prog :=
  match t with
  | Async p => p
  | Lock fn => main fn
  | Detach _ rest => main rest
  end.

Fixpoint spawn (hw : Hardware) (i : Tid) (t : Task) (st : Pool) : Pool :=
  match t with
  | Detach child rest => spawn hw i rest (resume hw (Detached i) child st)
  | _ => st
  end.

(** A task whose detached calls produce nothing selected and never release,
    and whose own code releases in its last turn. *)
Fixpoint guarded (P : Tid -> Event -> bool) (b : bool) (i : Tid) (t : Task) : Prop :=
  match t with
  | Async p => owned b p
  | Lock _ => False
  | Detach child rest =>
      filter (P (Detached i)) (trace_of (steady b) child) = [] /\
      release_free (trace_of (steady b) child) /\
      guarded P b i rest
  end.

Fixpoint side_turns (b : bool) (t : Task) : nat :=
  match t with
  | Detach child rest => (turns b child + side_turns b rest)%nat
  | _ => 0%nat
  end.

(** The turns of the event loop a task takes, its detached calls included. *)
Definition task_duty (b : bool) (t : Task) : nat :=
  S (side_turns b t + turns b (main t)).

Definition duty_of (b : bool) (c : Susp) : nat :=
  match c with
  | Resume p => S (turns b p)
  | Start t => task_duty b t
  end.

Definition pending_duty (b : bool) (l : list (Tid * Susp)) : nat :=
  list_sum (map (fun c => duty_of b (snd c)) l).

Definition queue_duty (b : bool) (l : list (Tid * Task)) : nat :=
  list_sum (map (fun w => task_duty b (snd w)) l).

Definition duty (b : bool) (st : Pool) : nat :=
  (pending_duty b (pending st) + queue_duty b (queue st))%nat.

Definition holds_lock (P : Tid -> Event -> bool) (b : bool) (c : Tid * Susp) : Prop :=
  match snd c with
  | Resume p => owned b p
  | Start t => guarded P b (fst c) t
  end.

Definition plan (b : bool) (c : Susp) : list Event :=
  match c with
  | Resume p => trace_of (steady b) p
  | Start t => trace_of (steady b) (main t)
  end.

Definition waiting_future (P : Tid -> Event -> bool) (b : bool)
    (q : list (Tid * Task)) : list (Tid * Event) :=
  List.concat (map (fun w => observed P (fst w) (trace_of (steady b) (main (snd w)))) q).

(** One suspended computation holds the lock and releases it in its last
    turn; the calls that wait will do the same, each in its turn; everything
    else produces nothing selected and never releases.  [F] is what remains
    to be observed, in order. *)
Definition Turnwise (P : Tid -> Event -> bool) (b : bool) (st : Pool)
    (F : list (Tid * Event)) : Prop :=
  exists o others,
    Permutation (pending st) (option_list o ++ others) /\
    Forall (bystander P b) others /\
    match o with
    | Some c => holds_lock P b c
    | None => queue st = []
    end /\
    Forall (fun w => guarded P b (fst w) (snd w)) (queue st) /\
    F = match o with
        | Some c => observed P (fst c) (plan b (snd c))
        | None => []
        end ++ waiting_future P b (queue st).

(** What [print], [clear] and [home] of [lcd-ts.ts] hand to the lock. *)
Definition ts_locked (this : Lcd) (op : Mutating) (cb : bool) : Task :=
  match op with
  | Print str => Async (Ts.print_locked this str cb)
  | Clear =>
      Detach (Ts.tryCommand this COMMANDS.CLEAR_DISPLAY cb)
             (Async (Ts.commandAndDelay_locked 3 "clear" cb))
  | Home =>
      Detach (Ts.tryCommand this COMMANDS.HOME cb)
             (Async (Ts.commandAndDelay_locked 3 "home" cb))
  end.

(** * Properties *)

(** ** The interpreter and the monad *)

Lemma run_bind hw p f n :
  run hw n (bind p f) =
  let '(o, t, n1) := run hw n p in
  match o with
  | Ok v => let '(o2, t2, n2) := run hw n1 (f v) in (o2, t ++ t2, n2)
  | Err err => (Err err, t, n1)
  end.
Proof.
  revert n; induction p as [v | err | ev k IH | evs k IH]; intros n; simpl.
  - destruct (run hw n (f v)) as [[o2 t2] n2]; reflexivity.
  - reflexivity.
  - destruct (is_pin_write ev); simpl.
    + rewrite IH. destruct (run hw (S n) (k (hw n && true))) as [[o t] n1].
      destruct o; [destruct (run hw n1 (f v)) as [[o2 t2] n2] |]; reflexivity.
    + rewrite IH. destruct (run hw n (k true)) as [[o t] n1].
      destruct o; [destruct (run hw n1 (f v)) as [[o2 t2] n2] |]; reflexivity.
  - destruct (settle hw n evs) as [ok n1]. rewrite IH.
    destruct (run hw n1 (k ok)) as [[o t] n2].
    destruct o; [destruct (run hw n2 (f v)) as [[o2 t2] n3] |];
      rewrite ?app_assoc; reflexivity.
Qed.

Lemma run_try_catch hw p h n :
  run hw n (try_catch p h) =
  let '(o, t, n1) := run hw n p in
  match o with
  | Ok v => (Ok v, t, n1)
  | Err err => let '(o2, t2, n2) := run hw n1 (h err) in (o2, t ++ t2, n2)
  end.
Proof.
  revert n; induction p as [v | err | ev k IH | evs k IH]; intros n; simpl.
  - reflexivity.
  - destruct (run hw n (h err)) as [[o2 t2] n2]; reflexivity.
  - destruct (is_pin_write ev); simpl.
    + rewrite IH. destruct (run hw (S n) (k (hw n && true))) as [[o t] n1].
      destruct o; [| destruct (run hw n1 (h err)) as [[o2 t2] n2]]; reflexivity.
    + rewrite IH. destruct (run hw n (k true)) as [[o t] n1].
      destruct o; [| destruct (run hw n1 (h err)) as [[o2 t2] n2]]; reflexivity.
  - destruct (settle hw n evs) as [ok n1]. rewrite IH.
    destruct (run hw n1 (k ok)) as [[o t] n2].
    destruct o; [| destruct (run hw n2 (h err)) as [[o2 t2] n3]];
      rewrite ?app_assoc; reflexivity.
Qed.

(** ** 32-bit integer operations *)

Lemma toInt32_small z : - 2 ^ 31 <= z < 2 ^ 31 -> Js.toInt32 (Int z) = z.
Proof.
  intros Hz. unfold Js.toInt32.
  destruct (Z.ltb_spec (z mod 2 ^ 32) (2 ^ 31)) as [Hlt | Hge].
  - destruct (Z_lt_le_dec z 0) as [Hneg | Hpos].
    + exfalso. rewrite <- (Z.mod_add z 1) in Hlt by lia.
      rewrite Z.mod_small in Hlt by lia. lia.
    + apply Z.mod_small. lia.
  - destruct (Z_lt_le_dec z 0) as [Hneg | Hpos].
    + rewrite <- (Z.mod_add z 1) by lia. rewrite Z.mod_small by lia. lia.
    + exfalso. rewrite Z.mod_small in Hge by lia. lia.
Qed.

Lemma toInt32_range n : - 2 ^ 31 <= Js.toInt32 n < 2 ^ 31.
Proof.
  destruct n as [z |]; cbv beta iota delta [Js.toInt32]; [| lia].
  pose proof (Z.mod_pos_bound z (2 ^ 32) ltac:(lia)) as Hm. cbv zeta.
  destruct (Z.ltb_spec (z mod 2 ^ 32) (2 ^ 31)); lia.
Qed.

Lemma toInt32_testbit z i :
  0 <= i < 32 -> Z.testbit (Js.toInt32 (Int z)) i = Z.testbit z i.
Proof.
  intros Hi. unfold Js.toInt32.
  destruct (Z.ltb_spec (z mod 2 ^ 32) (2 ^ 31)) as [Hlt | Hge].
  - apply Z.mod_pow2_bits_low. lia.
  - rewrite <- (Z.mod_pow2_bits_low (z mod 2 ^ 32 - 2 ^ 32) 32 i) by lia.
    replace (z mod 2 ^ 32 - 2 ^ 32) with (z mod 2 ^ 32 + (-1) * 2 ^ 32) by lia.
    rewrite Z.mod_add by lia. rewrite Z.mod_mod by lia.
    apply Z.mod_pow2_bits_low. lia.
Qed.

Lemma shiftr_int32 x k :
  0 <= k -> - 2 ^ 31 <= x < 2 ^ 31 -> - 2 ^ 31 <= Z.shiftr x k < 2 ^ 31.
Proof.
  intros Hk Hx. rewrite Z.shiftr_div_pow2 by assumption.
  assert (0 < 2 ^ k) by (apply Z.pow_pos_nonneg; lia).
  split.
  - apply Z.div_le_lower_bound; [assumption |]. nia.
  - apply Z.div_lt_upper_bound; [assumption |]. nia.
Qed.

(** [(val >> i) & 1] is bit [i] of the 32-bit value of [val]. *)
Lemma data_bit val i :
  0 <= i < 32 -> Js.and (Js.shr val i) (Int 1) = bit i (Js.toInt32 val).
Proof.
  intros Hi. unfold Js.and, Js.shr, bit. f_equal.
  rewrite Z.mod_small by lia.
  rewrite (toInt32_small (Z.shiftr _ _))
    by (apply shiftr_int32; [lia | apply toInt32_range]).
  rewrite (toInt32_small 1) by lia.
  change 1 with (Z.ones 1). rewrite Z.land_ones by lia.
  change (2 ^ 1) with 2. rewrite <- Z.bit0_mod.
  rewrite Z.shiftr_spec by lia. reflexivity.
Qed.

(** ** Nibbles and bytes on the bus *)

Lemma constructor_wired config : wired (constructor config).
Proof.
  unfold wired, constructor. destruct (cfg_data config) as [[[d0 d1] d2] d3]. reflexivity.
Qed.

Lemma nibble_frame_ext a b :
  (forall i, 0 <= i < 4 -> Z.testbit a i = Z.testbit b i) ->
  nibble_frame a = nibble_frame b.
Proof.
  intros Hbits. unfold nibble_frame, bit.
  rewrite (Hbits 0), (Hbits 1), (Hbits 2), (Hbits 3) by lia. reflexivity.
Qed.

Lemma nibble_frame_low v : nibble_frame v = nibble_frame (Z.land v 0xF).
Proof.
  apply nibble_frame_ext. intros i Hi.
  rewrite Z.land_spec. change 0xF with (Z.ones 4).
  rewrite Z.ones_spec_low by lia. rewrite andb_true_r. reflexivity.
Qed.

Lemma toInt32_shr n k :
  0 <= k < 32 -> Js.toInt32 (Js.shr n k) = Z.shiftr (Js.toInt32 n) k.
Proof.
  intros Hk. unfold Js.shr. rewrite Z.mod_small by lia.
  apply toInt32_small, shiftr_int32; [lia | apply toInt32_range].
Qed.

(** Bits 0..3 of the high nibble are bits 4..7 of the value. *)
Lemma high_nibble_bits v i :
  0 <= i < 4 ->
  Z.testbit (Js.toInt32 (Js.shr (Int v) 4)) i = Z.testbit v (i + 4).
Proof.
  intros Hi. rewrite toInt32_shr by lia.
  rewrite Z.shiftr_spec by lia. apply toInt32_testbit. lia.
Qed.

Lemma byte_on_bus mode val :
  [WriteSync RS mode] ++ nibble_frame (Js.toInt32 (Js.shr val 4))
                      ++ nibble_frame (Js.toInt32 val) =
  byte_frame mode (Js.toInt32 val).
Proof.
  unfold byte_frame. rewrite toInt32_shr by lia.
  rewrite <- nibble_frame_low. reflexivity.
Qed.

Lemma byte_frame_int mode v : byte_frame mode (Js.toInt32 (Int v)) = byte_frame mode v.
Proof.
  unfold byte_frame. f_equal. f_equal.
  - apply nibble_frame_ext. intros i Hi.
    rewrite !Z.shiftr_spec by lia. apply toInt32_testbit. lia.
  - rewrite <- !nibble_frame_low. apply nibble_frame_ext. intros i Hi.
    apply toInt32_testbit. lia.
Qed.

Section Wired.

Variable this : Lcd.
Hypothesis Hwired : wired this.

Lemma data_writes val :
  mapi (fun (gpio : Z) i => Write (D i) (Js.and (Js.shr val (Z.of_nat i)) (Int 1)))
       (data this) =
  [Write (D 0) (bit 0 (Js.toInt32 val)); Write (D 1) (bit 1 (Js.toInt32 val));
   Write (D 2) (bit 2 (Js.toInt32 val)); Write (D 3) (bit 3 (Js.toInt32 val))].
Proof.
  unfold wired in Hwired.
  destruct (data this) as [| d0 [| d1 [| d2 [| d3 [| d4 l]]]]]; try discriminate.
  cbn [mapi mapi_from Z.of_nat Pos.of_succ_nat Pos.succ].
  rewrite !data_bit by lia. reflexivity.
Qed.

Lemma write4Bits_number val :
  Lcd.write4Bits this (Num val) =
  await_all [Write E (Int 1)] ;;
  await_all [Write (D 0) (bit 0 (Js.toInt32 val)); Write (D 1) (bit 1 (Js.toInt32 val));
             Write (D 2) (bit 2 (Js.toInt32 val)); Write (D 3) (bit 3 (Js.toInt32 val))] ;;
  await_all [Write E (Int 0)] ;;
  sleepus 1.
Proof.
  unfold Lcd.write4Bits. cbn [Js.typeof String.eqb Ascii.eqb Bool.eqb negb Js.toNumber].
  rewrite data_writes. reflexivity.
Qed.

(** The levels written for a nibble only depend on its bits 0..3. *)
Lemma write4Bits_low_bits a b :
  (forall i, 0 <= i < 4 -> Z.testbit (Js.toInt32 a) i = Z.testbit (Js.toInt32 b) i) ->
  Lcd.write4Bits this (Num a) = Lcd.write4Bits this (Num b).
Proof.
  intros Hbits. rewrite !write4Bits_number. unfold bit.
  rewrite (Hbits 0), (Hbits 1), (Hbits 2), (Hbits 3) by lia. reflexivity.
Qed.

Lemma write4Bits_ok val n :
  run hw_ok n (Lcd.write4Bits this (Num val)) =
  (Ok Undefined, nibble_frame (Js.toInt32 val), (n + 6)%nat).
Proof.
  rewrite write4Bits_number. cbn. do 2 f_equal. lia.
Qed.

Lemma send_ok val mode n :
  run hw_ok n (Lcd.send this val mode) =
  (Ok Undefined, byte_frame mode (Js.toInt32 val), (n + 13)%nat).
Proof.
  unfold Lcd.send. rewrite run_bind.
  cbn [run writeSync settle is_pin_write hw_ok steady andb settled].
  rewrite run_bind, write4Bits_ok, write4Bits_ok.
  rewrite <- byte_on_bus. f_equal. lia.
Qed.

Lemma command_ok cmd n :
  run hw_ok n (Lcd.command this cmd) =
  (Ok Undefined, command_frame (Js.toInt32 cmd), (n + 13)%nat).
Proof.
  unfold Lcd.command. rewrite run_bind, send_ok. cbn. reflexivity.
Qed.

Lemma write_ok val n :
  run hw_ok n (Lcd.write this val) =
  (Ok Undefined, character_frame (Js.toInt32 val), (n + 13)%nat).
Proof.
  unfold Lcd.write. rewrite run_bind, send_ok. cbn. reflexivity.
Qed.

Lemma send_low_bits hw n v mode :
  run hw n (Lcd.send this (Int v) mode) =
  run hw n (Lcd.send this (Int (Z.land v 0xFF)) mode).
Proof.
  unfold Lcd.send.
  rewrite (write4Bits_low_bits (Js.shr (Int v) 4) (Js.shr (Int (Z.land v 0xFF)) 4)).
  - rewrite (write4Bits_low_bits (Int v) (Int (Z.land v 0xFF))); [reflexivity |].
    intros i Hi. rewrite !toInt32_testbit by lia.
    rewrite Z.land_spec. change 0xFF with (Z.ones 8).
    rewrite Z.ones_spec_low by lia. rewrite andb_true_r. reflexivity.
  - intros i Hi. rewrite !high_nibble_bits by assumption.
    rewrite Z.land_spec. change 0xFF with (Z.ones 8).
    rewrite Z.ones_spec_low by lia. rewrite andb_true_r. reflexivity.
Qed.

End Wired.

(** C1. For every byte value [v] in 0..255 and every mode, [send] on a
    constructed driver first writes the register-select pin with the mode,
    then drives the high nibble [v >> 4] and then the low nibble [v & 0xF];
    each nibble is enable high, data lines 0..3 at bits 0..3 of the nibble,
    enable low (and the 1 us wait), the first frame complete before the
    second begins. *)
Theorem send_frames (config : LcdConfig) (v : Z) (mode : number) :
  0 <= v <= 255 ->
  run hw_ok 0 (Lcd.send (constructor config) (Int v) mode) =
  (Ok Undefined,
   [WriteSync RS mode]
     ++ [Write E (Int 1);
         Write (D 0) (bit 0 (Z.shiftr v 4)); Write (D 1) (bit 1 (Z.shiftr v 4));
         Write (D 2) (bit 2 (Z.shiftr v 4)); Write (D 3) (bit 3 (Z.shiftr v 4));
         Write E (Int 0); Sleepus 1]
     ++ [Write E (Int 1);
         Write (D 0) (bit 0 (Z.land v 0xF)); Write (D 1) (bit 1 (Z.land v 0xF));
         Write (D 2) (bit 2 (Z.land v 0xF)); Write (D 3) (bit 3 (Z.land v 0xF));
         Write E (Int 0); Sleepus 1],
   13%nat).
Proof.
  intros Hv. rewrite (send_ok _ (constructor_wired config)).
  rewrite (toInt32_small v) by lia. reflexivity.
Qed.

(** C9. For every integer [v] with [0 <= v < 2^31] and every mode, [send]
    behaves on every hardware exactly as it does for [v & 0xFF]: the frame
    depends on the low 8 bits of the value only. *)
Theorem send_low_byte (config : LcdConfig) (hw : Hardware) (v : Z) (mode : number) :
  0 <= v < 2 ^ 31 ->
  run hw 0 (Lcd.send (constructor config) (Int v) mode) =
  run hw 0 (Lcd.send (constructor config) (Int (Z.land v 0xFF)) mode).
Proof.
  intros _. apply send_low_bits, constructor_wired.
Qed.

Lemma byte_frame_character v : character_frame (Js.toInt32 (Int v)) = character_frame v.
Proof. unfold character_frame. rewrite byte_frame_int. reflexivity. Qed.

Lemma byte_frame_command v : command_frame (Js.toInt32 (Int v)) = command_frame v.
Proof. unfold command_frame. rewrite byte_frame_int. reflexivity. Qed.

(** ** Printing *)

Lemma printChar_eq this str index :
  Plain.printChar this str index =
  setImmediate ;;
  if (List.length str <=? index)%nat
  then release ;; Ret Undefined
  else try_catch
         (Lcd.write this (Js.charCodeAt str index) ;;
          Plain.printChar this str (S index) ;;
          Ret Undefined)
         (fun err => release ;; Throw err).
Proof.
  rewrite Plain.printChar_equation_1.
  destruct (le_lt_dec (List.length str) index) as [Hle | Hlt]; cbn.
  - apply Nat.leb_le in Hle. rewrite Hle. reflexivity.
  - apply Nat.leb_gt in Hlt. rewrite Hlt. reflexivity.
Qed.

Lemma ts_printChar_eq this str index cb :
  Ts.printChar this str index cb =
  setImmediate ;;
  if (List.length str <=? index)%nat
  then Ts.eventOrCB None (Str str) "printed" cb ;; release ;; Ret Undefined
  else try_catch
         (Lcd.write this (Js.charCodeAt str index) ;;
          Ts.printChar this str (S index) cb ;;
          Ret Undefined)
         (fun err => Ts.eventOrCB (Some err) Undefined "error" cb ;; release ;; Throw err).
Proof.
  rewrite Ts.printChar_equation_1.
  destruct (le_lt_dec (List.length str) index) as [Hle | Hlt]; cbn.
  - apply Nat.leb_le in Hle. rewrite Hle. reflexivity.
  - apply Nat.leb_gt in Hlt. rewrite Hlt. reflexivity.
Qed.

Lemma skipn_step {A} (l : list A) (i : nat) (x : A) :
  nth_error l i = Some x -> skipn i l = x :: skipn (S i) l.
Proof.
  revert i; induction l as [| y l IH]; intros [| i] H; simpl in *; try discriminate.
  - congruence.
  - apply IH. assumption.
Qed.

Lemma start_index_le len : (start_index len <= len)%nat.
Proof.
  unfold start_index. cbv zeta.
  destruct (Nat.ltb_spec 1 (len / 80)); [| lia].
  pose proof (Nat.Div0.mul_div_le len 80). lia.
Qed.

Lemma eventOrCB_ok err value event cb n :
  run hw_ok n (Ts.eventOrCB err value event cb) =
  (Ok Undefined, [notification err value event cb], n).
Proof.
  unfold Ts.eventOrCB, notification. destruct cb, err; reflexivity.
Qed.

Section Printing.

Variable this : Lcd.
Hypothesis Hwired : wired this.

Lemma printChar_ok str k : forall index n,
  (List.length str - index = k)%nat ->
  run hw_ok n (Plain.printChar this str index) =
  (Ok Undefined,
   characters (skipn index str) ++ [Immediate; Release],
   (n + 13 * k)%nat).
Proof.
  induction k as [| k IH]; intros index n Hk; rewrite printChar_eq.
  - assert (Hle : (List.length str <=? index)%nat = true) by (apply Nat.leb_le; lia).
    rewrite Hle. rewrite skipn_all2 by lia. cbn. f_equal. lia.
  - assert (Hgt : (List.length str <=? index)%nat = false) by (apply Nat.leb_gt; lia).
    rewrite Hgt.
    destruct (nth_error str index) as [c |] eqn:Hc;
      [| apply nth_error_None in Hc; lia].
    rewrite (skipn_step _ _ _ Hc).
    unfold Js.charCodeAt. rewrite Hc.
    rewrite run_bind. cbn [run setImmediate settle is_pin_write].
    rewrite run_try_catch, run_bind, (write_ok _ Hwired).
    rewrite run_bind, (IH (S index)) by lia.
    rewrite byte_frame_character.
    cbn [run]. unfold characters. cbn [flat_map app].
    rewrite app_nil_r, <- app_assoc.
    f_equal. lia.
Qed.

Lemma print_locked_ok str :
  run hw_ok 0 (Plain.print_locked this str) =
  (Ok Undefined,
   characters (skipn (start_index (List.length str)) str) ++ [Immediate; Release; Resolve],
   (13 * (List.length str - start_index (List.length str)))%nat).
Proof.
  unfold Plain.print_locked. cbv zeta. fold (start_index (List.length str)).
  rewrite run_try_catch, run_bind.
  rewrite (printChar_ok str _ _ 0 eq_refl).
  cbn [run resolve perform settle is_pin_write].
  rewrite <- app_assoc. reflexivity.
Qed.

Lemma ts_printChar_ok str cb k : forall index n,
  (List.length str - index = k)%nat ->
  run hw_ok n (Ts.printChar this str index cb) =
  (Ok Undefined,
   characters (skipn index str)
     ++ [Immediate; notification None (Str str) "printed" cb; Release],
   (n + 13 * k)%nat).
Proof.
  induction k as [| k IH]; intros index n Hk; rewrite ts_printChar_eq.
  - assert (Hle : (List.length str <=? index)%nat = true) by (apply Nat.leb_le; lia).
    rewrite Hle. rewrite skipn_all2 by lia.
    rewrite run_bind. cbn [run setImmediate settle is_pin_write].
    rewrite run_bind, eventOrCB_ok. cbn. f_equal. lia.
  - assert (Hgt : (List.length str <=? index)%nat = false) by (apply Nat.leb_gt; lia).
    rewrite Hgt.
    destruct (nth_error str index) as [c |] eqn:Hc;
      [| apply nth_error_None in Hc; lia].
    rewrite (skipn_step _ _ _ Hc).
    unfold Js.charCodeAt. rewrite Hc.
    rewrite run_bind. cbn [run setImmediate settle is_pin_write].
    rewrite run_try_catch, run_bind, (write_ok _ Hwired).
    rewrite run_bind, (IH (S index)) by lia.
    rewrite byte_frame_character.
    cbn [run]. unfold characters. cbn [flat_map app].
    rewrite app_nil_r, <- app_assoc.
    f_equal. lia.
Qed.

Lemma ts_print_locked_ok str cb :
  run hw_ok 0 (Ts.print_locked this str cb) =
  (Ok Undefined,
   characters (skipn (start_index (List.length str)) str)
     ++ [Immediate; notification None (Str str) "printed" cb; Release; Resolve],
   (13 * (List.length str - start_index (List.length str)))%nat).
Proof.
  unfold Ts.print_locked. cbv zeta. fold (start_index (List.length str)).
  rewrite run_try_catch, run_bind.
  rewrite (ts_printChar_ok str cb _ _ 0 eq_refl).
  cbn [run resolve perform settle is_pin_write].
  rewrite <- app_assoc. reflexivity.
Qed.

End Printing.

(** ** The number guard of [write4Bits] *)

Lemma guard_silent_ret v : guard_silent (Ret v).
Proof. intros hw n. cbn. split; [discriminate | constructor]. Qed.

Lemma guard_silent_throw err : err <> NotANumber -> guard_silent (Throw err).
Proof. intros Herr hw n. cbn. split; [congruence | constructor]. Qed.

Lemma guard_silent_bind p f :
  guard_silent p -> (forall v, guard_silent (f v)) -> guard_silent (bind p f).
Proof.
  intros Hp Hf hw n. rewrite run_bind. specialize (Hp hw n).
  destruct (run hw n p) as [[o t] n1]. cbn [fst snd] in Hp. destruct Hp as [Ho Ht].
  destruct o as [v | err]; cbn [fst snd]; [| tauto].
  specialize (Hf v hw n1). destruct (run hw n1 (f v)) as [[o2 t2] n2].
  cbn [fst snd] in *. destruct Hf as [Ho2 Ht2].
  split; [assumption | apply Forall_app; tauto].
Qed.

Lemma guard_silent_try_catch p h :
  guard_silent p -> (forall err, err <> NotANumber -> guard_silent (h err)) ->
  guard_silent (try_catch p h).
Proof.
  intros Hp Hh hw n. rewrite run_try_catch. specialize (Hp hw n).
  destruct (run hw n p) as [[o t] n1]. cbn [fst snd] in Hp. destruct Hp as [Ho Ht].
  destruct o as [v | err]; cbn [fst snd]; [split; [discriminate | assumption] |].
  assert (Herr : err <> NotANumber) by congruence.
  specialize (Hh err Herr hw n1). destruct (run hw n1 (h err)) as [[o2 t2] n2].
  cbn [fst snd] in *. destruct Hh as [Ho2 Ht2].
  split; [assumption | apply Forall_app; tauto].
Qed.

Lemma pin_write_silent ev : is_pin_write ev = true -> ~ reports_error NotANumber ev.
Proof.
  intros Hw [H | [H | [name H]]]; subst ev; discriminate.
Qed.

Lemma guard_silent_await evs :
  forallb is_pin_write evs = true -> guard_silent (await_all evs).
Proof.
  intros Hw hw n. unfold await_all. cbn [run].
  destruct (settle hw n evs) as [ok n1].
  destruct ok; cbn [settled run fst snd]; rewrite app_nil_r;
    (split; [discriminate |]);
    apply Forall_forall; intros ev Hin; apply pin_write_silent;
    rewrite forallb_forall in Hw; auto.
Qed.

Lemma guard_silent_perform ev :
  ~ reports_error NotANumber ev -> guard_silent (perform ev).
Proof.
  intros Hev hw n. unfold perform. cbn [run].
  destruct (settle hw n [ev]) as [ok n1]. cbn [run fst snd].
  split; [discriminate | repeat constructor; assumption].
Qed.

Lemma guard_silent_writeSync g v : guard_silent (writeSync g v).
Proof.
  intros hw n. unfold writeSync. cbn [run settle is_pin_write].
  destruct (hw n && true); cbn [settled run fst snd];
    (split; [discriminate | repeat constructor; apply pin_write_silent; reflexivity]).
Qed.

Lemma guard_silent_setImmediate : guard_silent setImmediate.
Proof.
  intros hw n. cbn. split; [discriminate | repeat constructor].
  intros [H | [H | [name H]]]; discriminate.
Qed.

Lemma guard_silent_release : guard_silent release.
Proof.
  apply guard_silent_perform. intros [H | [H | [name H]]]; discriminate.
Qed.

Lemma guard_silent_resolve : guard_silent resolve.
Proof.
  apply guard_silent_perform. intros [H | [H | [name H]]]; discriminate.
Qed.

Lemma guard_silent_reject err : err <> NotANumber -> guard_silent (reject err).
Proof.
  intros Herr. apply guard_silent_perform.
  intros [H | [H | [name H]]]; congruence.
Qed.

Lemma guard_silent_eventOrCB err value event cb :
  err <> Some NotANumber -> guard_silent (Ts.eventOrCB err value event cb).
Proof.
  intros Herr. unfold Ts.eventOrCB.
  destruct cb, err as [err |]; apply guard_silent_perform;
    intros [H | [H | [name H]]]; congruence.
Qed.

Section Guard.

Variable this : Lcd.
Hypothesis Hwired : wired this.

Lemma guard_silent_write4Bits val : guard_silent (Lcd.write4Bits this (Num val)).
Proof.
  rewrite write4Bits_number by assumption.
  repeat (apply guard_silent_bind; [| intros _]);
    try (apply guard_silent_await; reflexivity).
  apply guard_silent_perform.
  intros [H | [H | [name H]]]; discriminate.
Qed.

Lemma guard_silent_write val : guard_silent (Lcd.write this val).
Proof.
  unfold Lcd.write.
  apply guard_silent_bind;
    [| intros _; apply guard_silent_perform;
       intros [H | [H | [name H]]]; discriminate].
  unfold Lcd.send.
  apply guard_silent_bind; [apply guard_silent_writeSync | intros _].
  apply guard_silent_bind;
    [apply guard_silent_write4Bits | intros _; apply guard_silent_write4Bits].
Qed.

Lemma guard_silent_printChar str k : forall index,
  (List.length str - index = k)%nat ->
  guard_silent (Plain.printChar this str index).
Proof.
  induction k as [| k IH]; intros index Hk; rewrite printChar_eq;
    (apply guard_silent_bind; [apply guard_silent_setImmediate | intros _]).
  - destruct (Nat.leb_spec (List.length str) index) as [Hle | Hgt]; [| lia].
    apply guard_silent_bind; [apply guard_silent_release | intros _; apply guard_silent_ret].
  - destruct (Nat.leb_spec (List.length str) index) as [Hle | Hgt]; [lia |].
    apply guard_silent_try_catch.
    + apply guard_silent_bind; [apply guard_silent_write | intros _].
      apply guard_silent_bind; [apply IH; lia | intros _; apply guard_silent_ret].
    + intros err Herr.
      apply guard_silent_bind; [apply guard_silent_release | intros _].
      apply guard_silent_throw; assumption.
Qed.

Lemma guard_silent_ts_printChar str cb k : forall index,
  (List.length str - index = k)%nat ->
  guard_silent (Ts.printChar this str index cb).
Proof.
  induction k as [| k IH]; intros index Hk; rewrite ts_printChar_eq;
    (apply guard_silent_bind; [apply guard_silent_setImmediate | intros _]).
  - destruct (Nat.leb_spec (List.length str) index) as [Hle | Hgt]; [| lia].
    apply guard_silent_bind; [apply guard_silent_eventOrCB; discriminate | intros _].
    apply guard_silent_bind; [apply guard_silent_release | intros _; apply guard_silent_ret].
  - destruct (Nat.leb_spec (List.length str) index) as [Hle | Hgt]; [lia |].
    apply guard_silent_try_catch.
    + apply guard_silent_bind; [apply guard_silent_write | intros _].
      apply guard_silent_bind; [apply IH; lia | intros _; apply guard_silent_ret].
    + intros err Herr.
      apply guard_silent_bind; [apply guard_silent_eventOrCB; congruence | intros _].
      apply guard_silent_bind; [apply guard_silent_release | intros _].
      apply guard_silent_throw; assumption.
Qed.

Lemma guard_silent_print str : guard_silent (Plain.print_locked this str).
Proof.
  unfold Plain.print_locked. cbv zeta. apply guard_silent_try_catch.
  - apply guard_silent_bind;
      [eapply guard_silent_printChar; reflexivity | intros _; apply guard_silent_resolve].
  - intros err Herr. apply guard_silent_reject; assumption.
Qed.

Lemma guard_silent_ts_print str cb : guard_silent (Ts.print_locked this str cb).
Proof.
  unfold Ts.print_locked. cbv zeta. apply guard_silent_try_catch.
  - apply guard_silent_bind;
      [eapply guard_silent_ts_printChar; reflexivity | intros _; apply guard_silent_resolve].
  - intros err Herr. apply guard_silent_reject; assumption.
Qed.

End Guard.

(** The guard itself is live: a value that is not a number is refused before
    any pin is touched. *)
Lemma write4Bits_refuses_string this hw s :
  run hw 0 (Lcd.write4Bits this (Str s)) = (Err NotANumber, [], 0%nat).
Proof. reflexivity. Qed.

(** C10. For every string given to [print], on every hardware, the number
    guard of [write4Bits] never fires: the run of [print] neither fails with
    nor reports the error "Value passed to .write4Bits must be a number",
    in the plain file and in [lcd-ts.ts] alike. *)
Theorem print_never_trips_number_guard (config : LcdConfig) (hw : Hardware) (str : JsString) :
  (outcome_of hw (Plain.print_locked (constructor config) str) <> Err NotANumber /\
   forall ev, In ev (trace_of hw (Plain.print_locked (constructor config) str)) ->
              ~ reports_error NotANumber ev) /\
  (forall cb,
     outcome_of hw (Ts.print_locked (constructor config) str cb) <> Err NotANumber /\
     forall ev, In ev (trace_of hw (Ts.print_locked (constructor config) str cb)) ->
                ~ reports_error NotANumber ev).
Proof.
  split; [| intros cb].
  - destruct (guard_silent_print _ (constructor_wired config) str hw 0%nat) as [Ho Ht].
    split; [exact Ho |]. apply Forall_forall. exact Ht.
  - destruct (guard_silent_ts_print _ (constructor_wired config) str cb hw 0%nat) as [Ho Ht].
    split; [exact Ho |]. apply Forall_forall. exact Ht.
Qed.

(** ** Registers, initialisation and the cursor *)

Lemma small_cases c : 0 <= c < 16 ->
  c = 0 \/ c = 1 \/ c = 2 \/ c = 3 \/ c = 4 \/ c = 5 \/ c = 6 \/ c = 7 \/
  c = 8 \/ c = 9 \/ c = 10 \/ c = 11 \/ c = 12 \/ c = 13 \/ c = 14 \/ c = 15.
Proof. lia. Qed.

Ltac small_case H :=
  repeat (destruct H as [H | H]; [subst |]); [.. | subst].

Lemma constructor_sane config : sane (constructor config).
Proof.
  split; [apply constructor_wired |].
  exists 0x0c, 0x06. unfold constructor.
  destruct (cfg_data config) as [[[d0 d1] d2] d3]. cbn. repeat split; lia.
Qed.

Lemma toggle_sane t this : sane this -> sane (fst (toggle t this)).
Proof.
  intros [Hw (c & m & Hc & Hcr & Hm & Hmr)].
  split; [destruct t; exact Hw |].
  apply small_cases in Hcr. apply small_cases in Hmr.
  destruct t; cbn [toggle fst Plain.display Plain.noDisplay Plain.cursor Plain.noCursor
                   Plain.blink Plain.noBlink Plain.leftToRight Plain.rightToLeft
                   Plain.autoscroll Plain.noAutoscroll
                   set_displayControl set_displayMode displayControl displayMode];
    rewrite ?Hc, ?Hm.
  1-6: small_case Hcr; eexists _, m; (split; [vm_compute; reflexivity |]);
       (split; [lia |]); (split; [reflexivity |]); small_case Hmr; lia.
  all: small_case Hmr; eexists c, _; (split; [reflexivity |]);
       (split; [small_case Hcr; lia |]); (split; [vm_compute; reflexivity | lia]).
Qed.

Lemma after_sane ops : forall this, sane this -> sane (after ops this).
Proof.
  induction ops as [| t ops IH]; intros this Hs; [exact Hs |].
  apply IH, toggle_sane, Hs.
Qed.

(** Every toggle sends its register as it stands after the update. *)
Lemma toggle_sends t this :
  snd (toggle t this) = Lcd.command (fst (toggle t this)) (register t (fst (toggle t this))).
Proof. destruct t; reflexivity. Qed.

(** C5. The Display Control register starts at 0x0c; after [display()],
    [noDisplay()], [cursor()] it holds [((0x0c | 0x04) & ~0x04) | 0x02];
    and after any sequence of toggles, every toggle sends to the hardware,
    as one command byte, exactly the value its register holds in memory
    after the update. *)
Theorem display_control_register :
  (forall config, displayControl (constructor config) = Int 0x0c) /\
  (forall config,
     displayControl (after [Display; NoDisplay; Cursor] (constructor config)) =
     Int (Z.lor (Z.land (Z.lor 0x0c 0x04) (Z.lnot 0x04)) 0x02)) /\
  (forall config ops t,
     let this := fst (toggle t (after ops (constructor config))) in
     exists v, register t this = Int v /\ 0 <= v <= 255 /\
               run hw_ok 0 (snd (toggle t (after ops (constructor config)))) =
               (Ok Undefined, command_frame v, 13%nat)).
Proof.
  split; [| split].
  - intros config. unfold constructor.
    destruct (cfg_data config) as [[[d0 d1] d2] d3]. reflexivity.
  - intros config. unfold constructor.
    destruct (cfg_data config) as [[[d0 d1] d2] d3]. reflexivity.
  - intros config ops t this.
    assert (Hs : sane this)
      by (apply toggle_sane, after_sane, constructor_sane).
    destruct Hs as [Hw (c & m & Hc & Hcr & Hm & Hmr)].
    rewrite toggle_sends. fold this.
    rewrite (command_ok _ Hw).
    destruct t; cbn [register]; rewrite ?Hc, ?Hm, byte_frame_command.
    1-6: exists c; repeat split; lia.
    all: exists m; repeat split; lia.
Qed.

Lemma init_steps (config : LcdConfig) (ops : list Toggle) :
  exists t, run hw_ok 0 (Lcd.init (after ops (constructor config))) =
            (Ok Undefined, t, 89%nat).
Proof.
  destruct (after_sane ops _ (constructor_sane config)) as [Hw _].
  unfold Lcd.init.
  repeat (rewrite run_bind;
          first [ rewrite (write4Bits_ok _ Hw)
                | rewrite (command_ok _ Hw)
                | cbn [run delay settle is_pin_write] ]).
  cbn [run delay settle is_pin_write Nat.add]. eexists. reflexivity.
Qed.

(** C6. On every driver state reached from the constructor, [init] sends
    the four wake-up nibbles with their waits, then the function-set byte --
    0x20, with the two-line bit exactly when [rows > 1] and the large-font
    bit exactly when [rows = 1] and large font is asked for -- as a command,
    then the commands 0x10, Display Control, Display Mode and 0x01, in this
    order, and waits 3 ms. *)
Theorem init_sequence (config : LcdConfig) (ops : list Toggle) :
  let this := after ops (constructor config) in
  let functionSet :=
    Z.lor (Z.lor 0x20 (if rows this >? 1 then 0x08 else 0))
          (if (rows this =? 1) && largeFont this then 0x04 else 0) in
  exists control mode,
    displayControl this = Int control /\
    displayMode this = Int mode /\
    run hw_ok 0 (Lcd.init this) =
    (Ok Undefined,
     [Delay 16] ++ nibble_frame 0x03 ++
     [Delay 16] ++ nibble_frame 0x03 ++
     [Delay 2] ++ nibble_frame 0x03 ++
     [Delay 2] ++ nibble_frame 0x02 ++
     command_frame functionSet ++
     command_frame 0x10 ++
     command_frame control ++
     command_frame mode ++
     command_frame 0x01 ++
     [Delay 3],
     89%nat).
Proof.
  intros this functionSet.
  destruct (after_sane ops _ (constructor_sane config))
    as [Hw (c & m & Hc & Hcr & Hm & Hmr)].
  fold this in Hw, Hc, Hm.
  exists c, m. split; [exact Hc |]. split; [exact Hm |].
  assert (Hf : Lcd.displayFunction this = Int functionSet).
  { unfold Lcd.displayFunction, functionSet.
    destruct (rows this >? 1), ((rows this =? 1) && largeFont this); reflexivity. }
  unfold Lcd.init. rewrite Hf, Hc, Hm.
  repeat (rewrite run_bind;
          first [ rewrite (write4Bits_ok _ Hw)
                | rewrite (command_ok _ Hw)
                | cbn [run delay settle is_pin_write] ]).
  rewrite !byte_frame_command.
  cbn [run delay settle is_pin_write app Nat.add].
  rewrite !(toInt32_small 3), !(toInt32_small 2) by lia.
  reflexivity.
Qed.

(** What [setCursor] does when the row is above the row count: the last row
    is addressed, as for [setCursor(col, 5)] on four rows. *)
Lemma setCursor_above_rows this col row :
  wired this -> (1 <= rows this <= 4) -> (rows this < row) -> (0 <= col < 2 ^ 30) ->
  run hw_ok 0 (Plain.setCursor this (Int col) row) =
  (Ok Undefined,
   command_frame (Z.lor 0x80 (col + nth (Z.to_nat (rows this - 1)) ROW_OFFSETS 0)),
   13%nat).
Proof.
  intros Hw Hrows Hrow Hcol. unfold Plain.setCursor.
  assert (Hgt : (row >? rows this) = true) by (apply Z.gtb_lt; lia).
  rewrite Hgt. cbv zeta. rewrite (command_ok _ Hw).
  assert (Hoff : exists off,
             Js.toNumber (Js.index ROW_OFFSETS (rows this - 1)) = Int off /\
             nth (Z.to_nat (rows this - 1)) ROW_OFFSETS 0 = off /\ 0 <= off < 128).
  { assert (Hr : rows this = 1 \/ rows this = 2 \/ rows this = 3 \/ rows this = 4) by lia.
    destruct Hr as [Hr | [Hr | [Hr | Hr]]]; rewrite Hr;
      eexists; (split; [reflexivity |]); (split; [reflexivity |]); lia. }
  destruct Hoff as (off & Hidx & Hnth & Hoff). rewrite Hidx, Hnth.
  unfold Js.add, Js.or, COMMANDS.SET_CURSOR.
  rewrite byte_frame_command.
  rewrite (toInt32_small 128), (toInt32_small (col + off)) by lia. reflexivity.
Qed.

(** C3, at the row just above the last one.  With two rows configured,
    [setCursor(0, 2)] is not clamped to row 1 (address 0x40, command 0xC0): the
    guard [row > this.rows] lets row 2 through, and the command sent is
    [0x80 | 0x14].  With four rows, [setCursor(0, 4)] reads past the offset
    table and sends the bare command 0x80. *)
Theorem setCursor_row_equal_rows_unclamped :
  run hw_ok 0 (Plain.setCursor (constructor (sample_config 2)) (Int 0) 2) =
    (Ok Undefined, command_frame (Z.lor 0x80 (0 + 0x14)), 13%nat) /\
  command_frame (Z.lor 0x80 (0 + 0x14)) <> command_frame (Z.lor 0x80 (0 + 0x40)) /\
  run hw_ok 0 (Plain.setCursor (constructor (sample_config 4)) (Int 0) 4) =
    (Ok Undefined, command_frame 0x80, 13%nat) /\
  command_frame 0x80 <> command_frame (Z.lor 0x80 (0 + 0x54)).
Proof.
  repeat split; try reflexivity; vm_compute; discriminate.
Qed.

(** The example of the clamp: [setCursor(col, 5)] on a four-row display
    sends [0x80 | (col + 0x54)]. *)
Lemma setCursor_row_five_of_four config col :
  cfg_rows config = 4 -> 0 <= col < 2 ^ 30 ->
  run hw_ok 0 (Plain.setCursor (constructor config) (Int col) 5) =
  (Ok Undefined, command_frame (Z.lor 0x80 (col + 0x54)), 13%nat).
Proof.
  intros Hrows Hcol.
  assert (Hr : rows (constructor config) = 4).
  { unfold constructor. destruct (cfg_data config) as [[[d0 d1] d2] d3].
    cbn [rows]. rewrite Hrows. reflexivity. }
  rewrite (setCursor_above_rows _ col 5 (constructor_wired config)) by lia.
  rewrite Hr. reflexivity.
Qed.

(** ** The task pool *)

Lemma settle_steady b evs : forall n,
  fst (settle (steady b) n evs) = fst (settle (steady b) 0 evs).
Proof.
  induction evs as [| ev evs IH]; intros n; [reflexivity |].
  cbn [settle]. destruct (is_pin_write ev); [| apply IH].
  specialize (IH (S n)) as H1. specialize (IH 1%nat) as H2.
  destruct (settle (steady b) (S n) evs) as [ok1 n1].
  destruct (settle (steady b) 1 evs) as [ok2 n2].
  cbn [fst] in *. rewrite H1, H2. reflexivity.
Qed.

(** On steady hardware the result and the events of a run do not depend on
    how many pin writes came before. *)
Lemma run_steady b p : forall n,
  fst (run (steady b) n p) = fst (run (steady b) 0 p).
Proof.
  induction p as [v | err | ev k IH | evs k IH]; intros n; try reflexivity.
  - cbn [run].
    pose proof (settle_steady b [ev] n) as Hs.
    destruct (settle (steady b) n [ev]) as [ok n1].
    destruct (settle (steady b) 0 [ev]) as [ok' n1'].
    cbn [fst] in Hs. subst ok'.
    pose proof (IH ok n1) as H1. pose proof (IH ok n1') as H2.
    destruct (run (steady b) n1 (k ok)) as [[o t] n2].
    destruct (run (steady b) n1' (k ok)) as [[o' t'] n2'].
    destruct (run (steady b) 0 (k ok)) as [[o0 t0] n0].
    cbn [fst] in *. congruence.
  - cbn [run].
    pose proof (settle_steady b evs n) as Hs.
    destruct (settle (steady b) n evs) as [ok n1].
    destruct (settle (steady b) 0 evs) as [ok' n1'].
    cbn [fst] in Hs. subst ok'.
    pose proof (IH ok n1) as H1. pose proof (IH ok n1') as H2.
    destruct (run (steady b) n1 (k ok)) as [[o t] n2].
    destruct (run (steady b) n1' (k ok)) as [[o' t'] n2'].
    destruct (run (steady b) 0 (k ok)) as [[o0 t0] n0].
    cbn [fst] in *. congruence.
Qed.

Lemma trace_steady b p n : snd (fst (run (steady b) n p)) = trace_of (steady b) p.
Proof. unfold trace_of. rewrite (run_steady b p n). reflexivity. Qed.

(** A turn produces the first events of the run; what is left produces the
    others. *)
Lemma segment_trace b p : forall n seg q n',
  segment (steady b) n p = (seg, q, n') ->
  trace_of (steady b) p =
  seg ++ match q with Some q => trace_of (steady b) q | None => [] end.
Proof.
  induction p as [v | err | ev k IH | evs k IH]; intros n seg q n' Hseg;
    cbn [segment] in Hseg.
  - injection Hseg as <- <- <-. reflexivity.
  - injection Hseg as <- <- <-. reflexivity.
  - destruct (settle (steady b) n [ev]) as [ok n1] eqn:Hs.
    destruct (segment (steady b) n1 (k ok)) as [[seg1 q1] n2] eqn:Hk.
    injection Hseg as <- <- <-.
    rewrite <- (trace_steady b _ n). cbn [run]. rewrite Hs.
    pose proof (trace_steady b (k ok) n1) as Ht.
    destruct (run (steady b) n1 (k ok)) as [[o t] n3]. cbn [fst snd] in *.
    rewrite Ht, (IH ok _ _ _ _ Hk). reflexivity.
  - destruct (settle (steady b) n evs) as [ok n1] eqn:Hs.
    injection Hseg as <- <- <-.
    rewrite <- (trace_steady b _ n). cbn [run]. rewrite Hs.
    pose proof (trace_steady b (k ok) n1) as Ht.
    destruct (run (steady b) n1 (k ok)) as [[o t] n3]. cbn [fst snd] in *.
    rewrite Ht. reflexivity.
Qed.

(** *** The lock during a turn *)

Lemma effects_log seg : forall st,
  log (effects seg st) = log st /\ writes (effects seg st) = writes st.
Proof.
  induction seg as [| ev seg IH]; intros st; [split; reflexivity |].
  destruct ev; try apply IH.
  cbn [effects fold_left]. fold (effects seg (release_lock st)).
  destruct (IH (release_lock st)) as [Hl Hw]. rewrite Hl, Hw.
  unfold release_lock. destruct (queue st) as [| [j t] ws]; split; reflexivity.
Qed.

Lemma effects_free seg : forall st, release_free seg -> effects seg st = st.
Proof.
  unfold release_free.
  induction seg as [| ev seg IH]; intros st Hfree; [reflexivity |].
  destruct ev; cbn [after_release] in Hfree; try discriminate; apply IH; exact Hfree.
Qed.

Lemma effects_release seg s2 : forall st,
  after_release seg = Some s2 -> effects seg st = effects s2 (release_lock st).
Proof.
  induction seg as [| ev seg IH]; intros st Hrel; [discriminate |].
  destruct ev; cbn [after_release] in Hrel; try (apply IH; exact Hrel).
  injection Hrel as <-. reflexivity.
Qed.

Lemma effects_empty_queue seg : forall st,
  queue st = [] ->
  pending (effects seg st) = pending st /\ queue (effects seg st) = [].
Proof.
  induction seg as [| ev seg IH]; intros st Hq; [split; [reflexivity | exact Hq] |].
  destruct ev; try (apply IH; exact Hq).
  cbn [effects fold_left]. fold (effects seg (release_lock st)).
  assert (Hr : pending (release_lock st) = pending st /\ queue (release_lock st) = [])
    by (unfold release_lock; rewrite Hq; split; reflexivity).
  destruct Hr as [Hp Hq']. destruct (IH _ Hq') as [H1 H2].
  rewrite H1, H2, Hp. split; reflexivity.
Qed.

Lemma after_release_app l1 l2 :
  after_release (l1 ++ l2) =
  match after_release l1 with
  | Some s => Some (s ++ l2)
  | None => after_release l2
  end.
Proof.
  induction l1 as [| ev l1 IH]; [reflexivity |].
  destruct ev; cbn [app after_release]; try apply IH. reflexivity.
Qed.

Lemma release_free_app l1 l2 :
  release_free (l1 ++ l2) -> release_free l1 /\ release_free l2.
Proof.
  unfold release_free. rewrite after_release_app.
  destruct (after_release l1); [discriminate | tauto].
Qed.

Lemma filter_nil_app {A} (f : A -> bool) l1 l2 :
  filter f (l1 ++ l2) = [] -> filter f l1 = [] /\ filter f l2 = [].
Proof. rewrite filter_app. apply app_eq_nil. Qed.

Lemma observe_tag P i l : observe P (tag i l) = observed P i l.
Proof.
  unfold observe, observed, tag. induction l as [| ev l IH]; [reflexivity |].
  cbn [map filter fst snd]. destruct (P i ev); cbn [map]; rewrite IH; reflexivity.
Qed.

Lemma observed_app P i l1 l2 :
  observed P i (l1 ++ l2) = observed P i l1 ++ observed P i l2.
Proof. unfold observed, tag. rewrite filter_app, map_app. reflexivity. Qed.

Lemma observed_nil P i l : filter (P i) l = [] -> observed P i l = [].
Proof. unfold observed. intros ->. reflexivity. Qed.

Lemma pick_perm {A} (l : list A) : forall k x r,
  pick k l = Some (x, r) -> Permutation l (x :: r).
Proof.
  induction l as [| y l IH]; intros k x r Hp; [discriminate |].
  destruct k as [| k]; cbn [pick] in Hp.
  - injection Hp as <- <-. reflexivity.
  - destruct (pick k l) as [[z r'] |] eqn:Hk; [| discriminate].
    injection Hp as <- <-. rewrite (IH _ _ _ Hk). apply perm_swap.
Qed.

Lemma pick_nil {A} (l : list A) k : pick k l = None -> l = [] \/ (List.length l <= k)%nat.
Proof.
  revert k; induction l as [| y l IH]; intros k Hp; [left; reflexivity |].
  right. destruct k as [| k]; cbn [pick] in Hp; [discriminate |].
  destruct (pick k l) as [[z r'] |] eqn:Hk; [discriminate |].
  destruct (IH _ Hk) as [-> | Hle]; cbn [List.length]; lia.
Qed.

(** *** One computation at a time produces the selected events *)

Section Serialisation.

Variable P : Tid -> Event -> bool.
Variable b : bool.

Lemma resume_log i p st seg q n :
  segment (steady b) (writes st) p = (seg, q, n) ->
  log (resume (steady b) i p st) = log st ++ tag i seg.
Proof.
  intros Hs. unfold resume. rewrite Hs.
  destruct q; unfold suspend; cbn [log]; rewrite (proj1 (effects_log _ _)); reflexivity.
Qed.

Lemma resume_quiet i p st seg q n :
  segment (steady b) (writes st) p = (seg, q, n) ->
  release_free seg \/ queue st = [] ->
  pending (resume (steady b) i p st) = pending st ++ next_of i q /\
  queue (resume (steady b) i p st) = queue st.
Proof.
  intros Hs Hcase. unfold resume. rewrite Hs.
  set (st1 := {| pending := pending st; held := held st; queue := queue st;
                 log := log st ++ tag i seg; writes := n |}).
  assert (Hfields : pending (effects seg st1) = pending st /\
                    queue (effects seg st1) = queue st).
  { destruct Hcase as [Hfree | Hq].
    - rewrite effects_free by assumption. split; reflexivity.
    - destruct (effects_empty_queue seg st1 Hq) as [H1 H2].
      rewrite H1, H2, Hq. split; reflexivity. }
  destruct Hfields as [Hp Hq].
  destruct q; unfold suspend, next_of; cbn [pending queue]; rewrite Hp, Hq;
    rewrite ?app_nil_r; split; reflexivity.
Qed.

Lemma resume_handover i p st seg q n s2 j t ws :
  segment (steady b) (writes st) p = (seg, q, n) ->
  after_release seg = Some s2 -> release_free s2 ->
  queue st = (j, t) :: ws ->
  pending (resume (steady b) i p st) = pending st ++ [(j, Start t)] ++ next_of i q /\
  queue (resume (steady b) i p st) = ws.
Proof.
  intros Hs Hrel Hfree Hq. unfold resume. rewrite Hs.
  rewrite (effects_release _ _ _ Hrel), effects_free by assumption.
  unfold release_lock. cbn [queue]. rewrite Hq.
  destruct q; unfold suspend, next_of; cbn [pending queue];
    rewrite <- ?app_assoc, ?app_nil_r; split; reflexivity.
Qed.

Lemma resume_bystander st i p o others :
  Permutation (pending st) (option_list o ++ others) ->
  Forall (bystander P b) others ->
  owner_ok P b (queue st) o ->
  Forall (waiting_ok P b) (queue st) ->
  filter (P i) (trace_of (steady b) p) = [] ->
  release_free (trace_of (steady b) p) ->
  Serial P b (resume (steady b) i p st)
         (owner_future P b o ++ queue_future P b (queue st)) /\
  observe P (log (resume (steady b) i p st)) = observe P (log st).
Proof.
  intros Hperm Hby Hown Hwait Hquiet Hfree.
  destruct (segment (steady b) (writes st) p) as [[seg q] n] eqn:Hs.
  pose proof (segment_trace b p _ _ _ _ Hs) as Ht.
  rewrite Ht in Hquiet, Hfree.
  apply filter_nil_app in Hquiet. destruct Hquiet as [Hq1 Hq2].
  apply release_free_app in Hfree. destruct Hfree as [Hf1 Hf2].
  destruct (resume_quiet i p st seg q n Hs (or_introl Hf1)) as [Hp Hq].
  split.
  - exists o, (others ++ next_of i q). rewrite Hp, Hq.
    refine (conj _ (conj _ (conj Hown (conj Hwait eq_refl)))).
    { rewrite app_assoc; apply Permutation_app_tail; exact Hperm. }
    apply Forall_app. split; [exact Hby |].
    destruct q as [q |]; cbn [next_of]; constructor; [| constructor].
    split; [exact I | split; assumption].
  - rewrite (resume_log i p st seg q n Hs).
    unfold observe at 1. rewrite filter_app. fold (observe P (log st)).
    fold (observe P (tag i seg)). rewrite observe_tag, (observed_nil _ _ _ Hq1).
    apply app_nil_r.
Qed.

Lemma resume_owner st i p others :
  Permutation (pending st) others ->
  Forall (bystander P b) others ->
  queue st = [] \/ release_final (P i) (trace_of (steady b) p) ->
  Forall (waiting_ok P b) (queue st) ->
  exists F',
    Serial P b (resume (steady b) i p st) F' /\
    observe P (log (resume (steady b) i p st)) ++ F' =
    observe P (log st) ++ observed P i (trace_of (steady b) p)
                       ++ queue_future P b (queue st).
Proof.
  intros Hperm Hby Hfinal Hwait.
  destruct (segment (steady b) (writes st) p) as [[seg q] n] eqn:Hs.
  pose proof (segment_trace b p _ _ _ _ Hs) as Ht.
  set (rest := match q with Some q => trace_of (steady b) q | None => [] end) in Ht.
  assert (Hlog : observe P (log (resume (steady b) i p st)) =
                 observe P (log st) ++ observed P i seg).
  { rewrite (resume_log i p st seg q n Hs). unfold observe at 1.
    rewrite filter_app. fold (observe P (log st)). fold (observe P (tag i seg)).
    rewrite observe_tag. reflexivity. }
  rewrite Hlog, Ht, observed_app, <- !app_assoc.
  assert (Hnext : forall F0, owner_future P b
                    (match q with Some q => Some (i, Resume q) | None => None end) ++ F0
                  = observed P i rest ++ F0).
  { intros F0. subst rest. destruct q; reflexivity. }
  destruct (after_release seg) as [s2 |] eqn:Hrel.
  - destruct (queue st) as [| [j t] ws] eqn:Hq.
    + (* nobody is waiting: the lock becomes free and the owner goes on *)
      destruct (resume_quiet i p st seg q n Hs (or_intror Hq)) as [Hp Hq'].
      exists (observed P i rest ++ queue_future P b []).
      split; [| rewrite <- app_assoc; reflexivity].
      exists (match q with Some q => Some (i, Resume q) | None => None end), others.
      rewrite Hp, Hq', Hq.
      refine (conj _ (conj Hby (conj _ (conj (Forall_nil _) (eq_sym (Hnext _)))))).
      * rewrite Hperm. destruct q; cbn [next_of option_list app];
          [apply Permutation_sym, Permutation_cons_append | rewrite app_nil_r; reflexivity].
      * destruct q; cbn [owner_ok]; [split; [exact I | left; reflexivity] | exact I].
    + (* the lock goes to the first waiting operation *)
      destruct Hfinal as [Hnil | Hfinal]; [discriminate |].
      unfold release_final in Hfinal. rewrite Ht, after_release_app, Hrel in Hfinal.
      destruct Hfinal as [Hquiet Hfree].
      apply filter_nil_app in Hquiet. destruct Hquiet as [Hq1 Hq2].
      apply release_free_app in Hfree. destruct Hfree as [Hf1 Hf2].
      destruct (resume_handover i p st seg q n s2 j t ws Hs Hrel Hf1 Hq) as [Hp Hq'].
      apply Forall_cons_iff in Hwait. destruct Hwait as [[Hflat Hwfinal] Hws].
      cbn [fst snd] in Hflat, Hwfinal.
      destruct t as [pt | |]; try contradiction.
      exists (observed P j (trace_of (steady b) pt) ++ queue_future P b ws).
      split.
      * exists (Some (j, Start (Async pt))), (others ++ next_of i q).
        rewrite Hp, Hq'.
        refine (conj _ (conj _ (conj _ (conj Hws eq_refl)))).
        -- rewrite Hperm. cbn [option_list app].
           rewrite <- Permutation_middle. reflexivity.
        -- apply Forall_app. split; [exact Hby |].
           destruct q as [q |]; cbn [next_of]; constructor; [| constructor].
           split; [exact I | split; assumption].
        -- cbn [owner_ok fst snd]. split; [exact I | right; exact Hwfinal].
      * rewrite (observed_nil _ _ _ Hq2), <- app_assoc.
        cbn [queue_future map List.concat fst snd upcoming_task app].
        reflexivity.
  - (* no release in this turn *)
    destruct (resume_quiet i p st seg q n Hs (or_introl Hrel)) as [Hp Hq].
    exists (observed P i rest ++ queue_future P b (queue st)).
    split; [| rewrite <- app_assoc; reflexivity].
    exists (match q with Some q => Some (i, Resume q) | None => None end), others.
    rewrite Hp, Hq.
    refine (conj _ (conj Hby (conj _ (conj Hwait (eq_sym (Hnext _)))))).
    + rewrite Hperm. destruct q; cbn [next_of option_list app];
        [apply Permutation_sym, Permutation_cons_append | rewrite app_nil_r; reflexivity].
    + destruct q as [q |]; cbn [owner_ok fst snd]; [| exact I].
      split; [exact I |]. destruct Hfinal as [Hnil | Hfinal]; [left; exact Hnil | right].
      unfold release_final in *. rewrite Ht, after_release_app, Hrel in Hfinal.
      exact Hfinal.
Qed.

End Serialisation.

Section Execution.

Variable P : Tid -> Event -> bool.
Variable b : bool.

Lemma step_serial st F s :
  Serial P b st F ->
  exists F',
    Serial P b (step (steady b) st s) F' /\
    observe P (log (step (steady b) st s)) ++ F' = observe P (log st) ++ F.
Proof.
  intros HS. pose proof HS as (o & others & Hperm & Hby & Hown & Hwait & HF).
  unfold step.
  destruct (pick (s mod List.length (pending st)) (pending st)) as [[[i c] rest] |] eqn:Hpick;
    [| exists F; split; [exact HS | reflexivity]].
  pose proof (pick_perm _ _ _ _ Hpick) as Hpr.
  set (st0 := {| pending := rest; held := held st; queue := queue st;
                 log := log st; writes := writes st |}).
  assert (Hall : Permutation ((i, c) :: rest) (option_list o ++ others))
    by (rewrite <- Hpr; exact Hperm).
  assert (Hin : In (i, c) (option_list o ++ others))
    by (apply (Permutation_in _ Hall); left; reflexivity).
  apply in_app_or in Hin. destruct Hin as [Hin | Hin].
  - (* the owner goes on *)
    destruct o as [c0 |]; [| contradiction]. destruct Hin as [-> | []].
    cbn [option_list app] in Hall. apply Permutation_cons_inv in Hall.
    destruct Hown as [Hflat Hfinal]. cbn [fst snd] in Hflat, Hfinal.
    assert (Hgo : exists p, upcoming b c = trace_of (steady b) p /\
                    match c with Start t => start (steady b) i t st0
                               | Resume p => resume (steady b) i p st0 end
                    = resume (steady b) i p st0).
    { destruct c as [[p | fn | ch r] | p]; try contradiction;
        exists p; split; reflexivity. }
    destruct Hgo as (p & Hup & ->). rewrite Hup in Hfinal.
    destruct (resume_owner P b st0 i p others Hall Hby Hfinal Hwait) as (F' & HS' & Heq).
    exists F'. split; [exact HS' |]. rewrite Heq, HF.
    cbn [owner_future fst snd]. rewrite Hup. reflexivity.
  - (* a bystander goes on *)
    apply in_split in Hin. destruct Hin as (l1 & l2 & ->).
    rewrite app_assoc in Hall. apply Permutation_cons_app_inv in Hall.
    rewrite <- app_assoc in Hall.
    apply Forall_app in Hby. destruct Hby as [Hby1 Hby2].
    apply Forall_cons_iff in Hby2. destruct Hby2 as [(Hflat & Hquiet & Hfree) Hby2].
    cbn [fst snd] in Hflat, Hquiet, Hfree.
    assert (Hgo : exists p, upcoming b c = trace_of (steady b) p /\
                    match c with Start t => start (steady b) i t st0
                               | Resume p => resume (steady b) i p st0 end
                    = resume (steady b) i p st0).
    { destruct c as [[p | fn | ch r] | p]; try contradiction;
        exists p; split; reflexivity. }
    destruct Hgo as (p & Hup & ->). rewrite Hup in Hquiet, Hfree.
    assert (Hby' : Forall (bystander P b) (l1 ++ l2))
      by (apply Forall_app; split; assumption).
    destruct (resume_bystander P b st0 i p o (l1 ++ l2) Hall Hby' Hown Hwait Hquiet Hfree)
      as [HS' Heq].
    exists F. split; [rewrite HF; exact HS' | rewrite Heq; reflexivity].
Qed.

Lemma exec_serial sched : forall st F,
  Serial P b st F ->
  exists F',
    Serial P b (exec (steady b) sched st) F' /\
    observe P (log (exec (steady b) sched st)) ++ F' = observe P (log st) ++ F.
Proof.
  induction sched as [| s sched IH]; intros st F HS.
  - exists F. split; [exact HS | reflexivity].
  - destruct (step_serial st F s HS) as (F1 & HS1 & Heq1).
    destruct (IH _ _ HS1) as (F2 & HS2 & Heq2).
    exists F2. change (exec (steady b) (s :: sched) st)
      with (exec (steady b) sched (step (steady b) st s)).
    split; [exact HS2 |]. rewrite Heq2, Heq1. reflexivity.
Qed.

Lemma serial_finished st F : Serial P b st F -> finished st -> F = [].
Proof.
  intros (o & others & Hperm & _ & _ & _ & ->) [Hp Hq].
  rewrite Hp in Hperm. apply Permutation_nil in Hperm.
  apply app_eq_nil in Hperm. destruct Hperm as [Ho _].
  destruct o; [discriminate |]. rewrite Hq. reflexivity.
Qed.

(** Whatever the order of the turns, what has been observed is the beginning
    of the serial order, and all of it once everything has finished. *)
Lemma exec_observed sched st F :
  Serial P b st F ->
  (exists F', observe P (log (exec (steady b) sched st)) ++ F' = observe P (log st) ++ F) /\
  (finished (exec (steady b) sched st) ->
   observe P (log (exec (steady b) sched st)) = observe P (log st) ++ F).
Proof.
  intros HS. destruct (exec_serial sched st F HS) as (F' & HS' & Heq).
  split; [exists F'; exact Heq |].
  intros Hfin. rewrite (serial_finished _ _ HS' Hfin), app_nil_r in Heq. exact Heq.
Qed.

End Execution.

(** ** Operations that overlap *)

Lemma observe_all l : observe (fun _ _ => true) l = l.
Proof.
  unfold observe. induction l as [| x l IH]; [reflexivity |].
  cbn [filter]. rewrite IH. reflexivity.
Qed.

Lemma observe_app P l1 l2 : observe P (l1 ++ l2) = observe P l1 ++ observe P l2.
Proof. unfold observe. apply filter_app. Qed.

(** A lone operation that holds the lock and is about to run. *)
Lemma lone_serial P b i p :
  Serial P b
    {| pending := [(i, Start (Async p))]; held := true; queue := [];
       log := []; writes := 0 |}
    (observed P i (trace_of (steady b) p)).
Proof.
  exists (Some (i, Start (Async p))), [].
  refine (conj _ (conj (Forall_nil _) (conj _ (conj (Forall_nil _) _)))).
  - reflexivity.
  - split; [exact I | left; reflexivity].
  - cbn [owner_future queue_future map List.concat fst snd upcoming].
    rewrite app_nil_r. reflexivity.
Qed.

(** A call that is not awaited, made by a callback that holds the lock while
    nothing else is pending: the caller goes on as the owner, the call is a
    bystander once its first turn is over. *)
Lemma detached_call P b st i child parent seg q n :
  pending st = [] -> queue st = [] ->
  segment (steady b) (writes st) child = (seg, q, n) ->
  filter (P (Detached i))
         (match q with Some q => trace_of (steady b) q | None => [] end) = [] ->
  release_free (match q with Some q => trace_of (steady b) q | None => [] end) ->
  exists F',
    Serial P b (start (steady b) i (Detach child (Async parent)) st) F' /\
    observe P (log (start (steady b) i (Detach child (Async parent)) st)) ++ F' =
    observe P (log st) ++ observed P (Detached i) seg
                       ++ observed P i (trace_of (steady b) parent).
Proof.
  intros Hp Hq Hs Hquiet Hfree. cbn [start].
  set (st1 := resume (steady b) (Detached i) child st).
  destruct (resume_quiet b (Detached i) child st seg q n Hs (or_intror Hq)) as [Hp1 Hq1].
  fold st1 in Hp1, Hq1. rewrite Hp in Hp1. cbn [app] in Hp1. rewrite Hq in Hq1.
  assert (Hby : Forall (bystander P b) (next_of (Detached i) q)).
  { destruct q as [q |]; cbn [next_of]; constructor; [| constructor].
    split; [exact I | split; assumption]. }
  assert (Hperm : Permutation (pending st1) (next_of (Detached i) q))
    by (rewrite Hp1; reflexivity).
  assert (Hwait : Forall (waiting_ok P b) (queue st1)) by (rewrite Hq1; constructor).
  destruct (resume_owner P b st1 i parent _ Hperm Hby (or_introl Hq1) Hwait)
    as (F' & HS & Heq).
  exists F'. split; [exact HS |]. rewrite Heq, Hq1.
  unfold st1. rewrite (resume_log b _ _ _ _ _ _ Hs), observe_app, observe_tag.
  cbn [queue_future map List.concat]. rewrite app_nil_r, <- app_assoc. reflexivity.
Qed.

Lemma exec_idle hw sched st : pending st = [] -> exec hw sched st = st.
Proof.
  intros Hp. induction sched as [| s sched IH]; [reflexivity |].
  cbn [exec fold_left]. unfold step at 2. rewrite Hp. cbn [pick]. exact IH.
Qed.

(** *** Events that are neither reports nor releases *)

Lemma characters_release_free cs : release_free (characters cs).
Proof.
  unfold release_free. induction cs as [| c cs IH]; [reflexivity |].
  unfold characters in *. cbn [flat_map]. rewrite after_release_app.
  cbn. exact IH.
Qed.

Lemma characters_no_report cs : filter is_report (characters cs) = [].
Proof.
  induction cs as [| c cs IH]; [reflexivity |].
  unfold characters in *. cbn [flat_map]. rewrite filter_app, IH.
  reflexivity.
Qed.

Lemma command_frame_release_free v : release_free (command_frame v).
Proof. reflexivity. Qed.

Lemma command_frame_no_report v : filter is_report (command_frame v) = [].
Proof. reflexivity. Qed.

(** *** Two prints *)

Lemma tagged_order i j (e1 e2 : Event) (B : list Event) Y :
  i <> j -> In (i, e1) Y ->
  forall A X, tag i A ++ tag j B = X ++ (j, e2) :: Y -> False.
Proof.
  intros Hij Hin. induction A as [| a A IH]; intros X Heq.
  - cbn [tag map app] in Heq.
    assert (Hb : In (i, e1) (tag j B))
      by (fold (tag j B) in Heq; rewrite Heq; apply in_or_app; right; right; exact Hin).
    unfold tag in Hb. apply in_map_iff in Hb. destruct Hb as (x & Hx & _). congruence.
  - destruct X as [| x X]; cbn [tag map app] in Heq.
    + injection Heq as Heq _. congruence.
    + injection Heq as _ Heq. apply (IH X). exact Heq.
Qed.

Lemma observed_before i j A B l rest :
  i <> j ->
  pin_writes l ++ rest = tag i A ++ tag j B ->
  before i j l.
Proof.
  intros Hij Heq l1 e2 l2 e1 -> Hw2 Hin Hw1.
  unfold pin_writes in Heq. rewrite observe_app in Heq.
  unfold observe at 2 in Heq. cbn [filter fst snd] in Heq. rewrite Hw2 in Heq.
  rewrite <- app_assoc in Heq. cbn [app] in Heq.
  refine (tagged_order i j e1 e2 B _ Hij _ A _ (eq_sym Heq)).
  apply in_or_app. left. apply filter_In. split; [exact Hin | exact Hw1].
Qed.

Lemma plain_commandAndDelay_ok this cmd timeout :
  wired this ->
  trace_of hw_ok (Plain.commandAndDelay_locked this cmd timeout) =
  command_frame (Js.toInt32 cmd) ++ [Delay timeout; Resolve; Release].
Proof.
  intros Hw. unfold trace_of, Plain.commandAndDelay_locked.
  rewrite run_bind, run_try_catch, run_bind, (command_ok _ Hw).
  cbn [run bind delay resolve release perform settle is_pin_write fst snd].
  rewrite <- app_assoc. reflexivity.
Qed.

Lemma print_release_final this str :
  wired this ->
  release_final is_pin_write (trace_of hw_ok (Plain.print_locked this str)) /\
  filter is_pin_write (trace_of hw_ok (Plain.print_locked this str)) =
  filter is_pin_write (characters (skipn (start_index (List.length str)) str)).
Proof.
  intros Hw. unfold trace_of. rewrite (print_locked_ok _ Hw). cbn [fst snd].
  pose proof (characters_release_free (skipn (start_index (List.length str)) str)) as Hfree.
  unfold release_free in Hfree.
  split.
  - unfold release_final. rewrite after_release_app, Hfree. cbn. split; reflexivity.
  - rewrite filter_app. cbn. apply app_nil_r.
Qed.

(** On hardware whose pin writes fail, [print] gives up at the first
    register-select write, or has nothing to send. *)
Lemma print_locked_dead this str :
  trace_of hw_dead (Plain.print_locked this str) =
  if (List.length str <=? start_index (List.length str))%nat
  then [Immediate; Release; Resolve]
  else [Immediate; WriteSync RS (Int 1); Release; Reject PinFault].
Proof.
  unfold trace_of, Plain.print_locked. cbv zeta. fold (start_index (List.length str)).
  rewrite run_try_catch, run_bind, printChar_eq.
  destruct (List.length str <=? start_index (List.length str))%nat; reflexivity.
Qed.

Lemma plain_locked_release_final this op b :
  wired this ->
  release_final is_pin_write (trace_of (steady b) (plain_locked this op)).
Proof.
  intros Hw. destruct b.
  - fold hw_ok. destruct op as [str | |]; cbn [plain_locked].
    + apply print_release_final, Hw.
    + rewrite (plain_commandAndDelay_ok _ _ _ Hw). unfold release_final.
      rewrite after_release_app. cbn. split; reflexivity.
    + rewrite (plain_commandAndDelay_ok _ _ _ Hw). unfold release_final.
      rewrite after_release_app. cbn. split; reflexivity.
  - fold hw_dead. destruct op as [str | |]; cbn [plain_locked].
    + rewrite print_locked_dead.
      destruct (List.length str <=? start_index (List.length str))%nat;
        cbn; split; reflexivity.
    + cbn. split; reflexivity.
    + cbn. split; reflexivity.
Qed.


(** Two callbacks, one holding the lock and one waiting for it, each of
    which makes no pin write after it has released: their pin writes come
    one callback after the other. *)
Lemma locked_pair b p1 p2 sched :
  release_final is_pin_write (trace_of (steady b) p1) ->
  release_final is_pin_write (trace_of (steady b) p2) ->
  let st := exec (steady b) sched
              {| pending := [(Op 0, Start (Async p1))]; held := true;
                 queue := [(Op 1, Async p2)]; log := []; writes := 0 |} in
  let first := filter is_pin_write (trace_of (steady b) p1) in
  let second := filter is_pin_write (trace_of (steady b) p2) in
  (exists rest, pin_writes (log st) ++ rest = tag (Op 0) first ++ tag (Op 1) second) /\
  (finished st -> pin_writes (log st) = tag (Op 0) first ++ tag (Op 1) second) /\
  before (Op 0) (Op 1) (log st).
Proof.
  intros Hf1 Hf2 st first second.
  set (P := fun (_ : Tid) => is_pin_write).
  set (st0 := {| pending := [(Op 0, Start (Async p1))]; held := true;
                 queue := [(Op 1, Async p2)]; log := []; writes := 0 |}) in *.
  assert (HS : Serial P b st0 (tag (Op 0) first ++ tag (Op 1) second)).
  { exists (Some (Op 0, Start (Async p1))), [].
    refine (conj _ (conj (Forall_nil _) (conj _ (conj _ _)))).
    - reflexivity.
    - split; [exact I | right; exact Hf1].
    - constructor; [split; [exact I | exact Hf2] | constructor].
    - cbn [st0 queue owner_future queue_future map List.concat fst snd
           upcoming upcoming_task].
      rewrite app_nil_r. reflexivity. }
  destruct (exec_observed P b sched _ _ HS) as [Hprefix Hall].
  fold st in Hprefix, Hall.
  change (observe P) with pin_writes in Hprefix, Hall.
  cbn [st0 log pin_writes observe filter app] in Hprefix, Hall.
  split; [exact Hprefix | split; [exact Hall |]].
  destruct Hprefix as (rest & Heq).
  apply (observed_before (Op 0) (Op 1) first second _ rest); [discriminate | exact Heq].
Qed.

(** Two prints on healthy hardware: the characters of the first, then the
    characters of the second. *)
Lemma prints_do_not_interleave (config : LcdConfig) (a b : JsString) (sched : list nat) :
  let this := constructor config in
  let st := exec hw_ok sched (issue hw_ok [Plain.print this a; Plain.print this b]) in
  let first := filter is_pin_write (characters (skipn (start_index (List.length a)) a)) in
  let second := filter is_pin_write (characters (skipn (start_index (List.length b)) b)) in
  (exists rest, pin_writes (log st) ++ rest = tag (Op 0) first ++ tag (Op 1) second) /\
  (finished st -> pin_writes (log st) = tag (Op 0) first ++ tag (Op 1) second) /\
  before (Op 0) (Op 1) (log st).
Proof.
  intros this st first second. subst st first second.
  pose proof (constructor_wired config) as Hw. fold this in Hw.
  destruct (print_release_final this a Hw) as [Hfa Hwa].
  destruct (print_release_final this b Hw) as [Hfb Hwb].
  rewrite <- Hwa, <- Hwb.
  change (issue hw_ok [Plain.print this a; Plain.print this b])
    with {| pending := [(Op 0, Start (Async (Plain.print_locked this a)))];
            held := true; queue := [(Op 1, Async (Plain.print_locked this b))];
            log := []; writes := 0 |}.
  exact (locked_pair true _ _ sched Hfa Hfb).
Qed.

(** *** Completion reports of [lcd-ts.ts] *)

Lemma step_single hw i t s st :
  pending st = [(i, Start t)] ->
  step hw st s =
  start hw i t {| pending := []; held := held st; queue := queue st;
                  log := log st; writes := writes st |}.
Proof.
  intros Hp. unfold step. rewrite Hp. cbn [List.length].
  rewrite Nat.mod_1_r. reflexivity.
Qed.

Lemma tryCommand_ok this cmd cb :
  wired this ->
  trace_of hw_ok (Ts.tryCommand this cmd cb) = command_frame (Js.toInt32 cmd).
Proof.
  intros Hw. unfold trace_of, Ts.tryCommand.
  rewrite run_try_catch, run_bind, (command_ok _ Hw). cbn [run fst snd]. apply app_nil_r.
Qed.

Lemma ts_commandAndDelay_locked_ok timeout event cb :
  trace_of hw_ok (Ts.commandAndDelay_locked timeout event cb) =
  [Delay timeout; notification None Null event cb; Release; Resolve].
Proof. destruct cb; reflexivity. Qed.

Lemma notification_is_report err value event cb :
  is_report (notification err value event cb) = true.
Proof. destruct cb; reflexivity. Qed.

(** The first turn of a [commandAndDelay] of [lcd-ts.ts] made alone. *)
Lemma ts_commandAndDelay_first_turn hw this cmd timeout event cb s sched :
  exec hw (s :: sched) (issue hw [Ts.commandAndDelay this cmd timeout event cb]) =
  exec hw sched
    (start hw (Op 0)
       (Detach (Ts.tryCommand this cmd cb)
               (Async (Ts.commandAndDelay_locked timeout event cb)))
       {| pending := []; held := true; queue := []; log := []; writes := 0 |}).
Proof.
  change (exec hw (s :: sched) ?st) with (exec hw sched (step hw st s)).
  rewrite (step_single hw (Op 0)
             (Detach (Ts.tryCommand this cmd cb)
                     (Async (Ts.commandAndDelay_locked timeout event cb))))
    by reflexivity.
  reflexivity.
Qed.

(** C4 as stated fails: [print("")] with a callback, on healthy hardware,
    calls the callback while the lock is still held. *)
Lemma callback_precedes_release :
  trace_of hw_ok (Ts.print_locked (constructor (sample_config 4)) [] true) =
    [Immediate; Callback (AVal (Str [])); Release; Resolve] /\
  ~ reported_after_release
      (trace_of hw_ok (Ts.print_locked (constructor (sample_config 4)) [] true)).
Proof.
  split; [reflexivity |].
  intros H. specialize (H [Immediate] (Callback (AVal (Str []))) [Release; Resolve]
                          eq_refl eq_refl).
  destruct H as [H | []]. discriminate H.
Qed.

(** *** The two files side by side *)

Lemma observed_everything i l : observed (fun _ _ => true) i l = tag i l.
Proof.
  unfold observed. f_equal. induction l as [| x l IH]; [reflexivity |].
  cbn [filter]. rewrite IH. reflexivity.
Qed.

(** C8, where the two files part.  On hardware whose pin writes fail,
    [clear()] of [lcd-ts.ts] (with a callback) reports the failure, then
    still waits 3 ms and reports success, whatever the order of the turns;
    [clear()] of the plain file rejects and releases without any wait. *)
Theorem clear_diverges_on_dead_hardware
    (config : LcdConfig) (sched_ts sched_plain : list nat) :
  let this := constructor config in
  let ts := exec hw_dead sched_ts (issue hw_dead [Ts.clear this true]) in
  let plain := exec hw_dead sched_plain (issue hw_dead [Plain.clear this]) in
  finished ts -> finished plain ->
  events ts = [WriteSync RS (Int 0); Callback (AErr PinFault);
               Delay 3; Callback (AVal Null); Release; Resolve] /\
  events plain = [WriteSync RS (Int 0); Reject PinFault; Release].
Proof.
  intros this ts plain Hts Hplain. subst ts plain. split.
  - destruct sched_ts as [| s sched]; [destruct Hts as [Hp _]; discriminate Hp |].
    unfold Ts.clear in *. rewrite ts_commandAndDelay_first_turn in *.
    set (st0 := {| pending := []; held := true; queue := []; log := []; writes := 0 |}) in *.
    assert (Hs : segment (steady false) (writes st0)
                   (Ts.tryCommand this COMMANDS.CLEAR_DISPLAY true) =
                 ([WriteSync RS (Int 0); Callback (AErr PinFault)], None, 1%nat))
      by reflexivity.
    destruct (detached_call (fun _ _ => true) false st0 (Op 0) _
                (Ts.commandAndDelay_locked 3 "clear" true) _ _ _
                eq_refl eq_refl Hs eq_refl eq_refl) as (F' & HS & Heq).
    destruct (exec_observed _ false sched _ _ HS) as [_ Hall].
    fold hw_dead in Hall, Heq. specialize (Hall Hts).
    rewrite !observe_all in Hall, Heq. rewrite !observed_everything in Heq.
    unfold events. rewrite Hall, Heq. reflexivity.
  - pose proof (lone_serial (fun _ _ => true) false (Op 0)
                  (Plain.commandAndDelay_locked this COMMANDS.CLEAR_DISPLAY 3)) as HS.
    destruct (exec_observed _ false sched_plain _ _ HS) as [_ Hall].
    fold hw_dead in Hall.
    change {| pending := [(Op 0, Start (Async (Plain.commandAndDelay_locked this
                                                 COMMANDS.CLEAR_DISPLAY 3)))];
              held := true; queue := []; log := []; writes := 0 |}
      with (issue hw_dead [Plain.clear this]) in Hall.
    specialize (Hall Hplain). rewrite !observe_all in Hall.
    rewrite observed_everything in Hall.
    unfold events. rewrite Hall. reflexivity.
Qed.

(** Elsewhere the two files drive the bus alike: [print] makes the same pin
    writes and waits in both, and [init] of [lcd-ts.ts] is that of the plain
    file followed by the "ready" notification. *)
Lemma characters_not_reports cs :
  filter (fun ev => negb (is_report ev)) (characters cs) = characters cs.
Proof.
  induction cs as [| c cs IH]; [reflexivity |].
  unfold characters in *. cbn [flat_map]. rewrite filter_app, IH. reflexivity.
Qed.

Lemma print_same_bus (config : LcdConfig) (str : JsString) (cb : bool) :
  filter (fun ev => negb (is_report ev))
         (trace_of hw_ok (Ts.print_locked (constructor config) str cb)) =
  filter (fun ev => negb (is_report ev))
         (trace_of hw_ok (Plain.print_locked (constructor config) str)).
Proof.
  pose proof (constructor_wired config) as Hw. unfold trace_of.
  rewrite (ts_print_locked_ok _ Hw), (print_locked_ok _ Hw). cbn [fst snd].
  rewrite !filter_app. cbn [filter is_report negb].
  rewrite notification_is_report. reflexivity.
Qed.

Lemma init_same_bus (config : LcdConfig) (ops : list Toggle) :
  trace_of hw_ok (Ts.init (after ops (constructor config))) =
  trace_of hw_ok (Lcd.init (after ops (constructor config)))
    ++ [Emit "ready" (AVal Undefined)].
Proof.
  destruct (init_steps config ops) as (t & Hrun).
  unfold trace_of, Ts.init. rewrite run_bind, Hrun. reflexivity.
Qed.

(** The log only grows. *)
Lemma resume_extends hw i p st : exists l, log (resume hw i p st) = log st ++ l.
Proof.
  unfold resume. destruct (segment hw (writes st) p) as [[seg q] n].
  exists (tag i seg).
  destruct q; unfold suspend; cbn [log]; rewrite (proj1 (effects_log _ _)); reflexivity.
Qed.

Lemma start_extends hw t : forall i st, exists l, log (start hw i t st) = log st ++ l.
Proof.
  induction t as [p | fn IH | child rest IH]; intros i st; cbn [start].
  - apply resume_extends.
  - exists []. unfold acquire. destruct (held st); cbn [log]; rewrite app_nil_r; reflexivity.
  - destruct (resume_extends hw (Detached i) child st) as (l1 & H1).
    destruct (IH i (resume hw (Detached i) child st)) as (l2 & H2).
    exists (l1 ++ l2). rewrite H2, H1, app_assoc. reflexivity.
Qed.

Lemma step_extends hw st s : exists l, log (step hw st s) = log st ++ l.
Proof.
  unfold step.
  destruct (pick (s mod List.length (pending st)) (pending st)) as [[[i c] rest] |];
    [| exists []; rewrite app_nil_r; reflexivity].
  set (st0 := {| pending := rest; held := held st; queue := queue st;
                 log := log st; writes := writes st |}).
  destruct c as [t | p].
  - destruct (start_extends hw t i st0) as (l & Hl). exists l. exact Hl.
  - destruct (resume_extends hw i p st0) as (l & Hl). exists l. exact Hl.
Qed.

Lemma exec_extends hw sched : forall st, exists l, log (exec hw sched st) = log st ++ l.
Proof.
  induction sched as [| s sched IH]; intros st.
  - exists []. rewrite app_nil_r. reflexivity.
  - destruct (step_extends hw st s) as (l1 & H1).
    destruct (IH (step hw st s)) as (l2 & H2).
    exists (l1 ++ l2). cbn [exec fold_left]. fold (exec hw sched (step hw st s)).
    rewrite H2, H1, app_assoc. reflexivity.
Qed.

(** On healthy hardware too the two files differ: [clear()] of [lcd-ts.ts]
    starts its 3 ms wait as soon as the first enable write has been issued,
    while the plain file starts it after the whole command. *)
Lemma clear_wait_starts_early (config : LcdConfig) (cb : bool) (s : nat) (sched : list nat) :
  let this := constructor config in
  firstn 3 (events (exec hw_ok (s :: sched) (issue hw_ok [Ts.clear this cb]))) =
    [WriteSync RS (Int 0); Write E (Int 1); Delay 3] /\
  trace_of hw_ok (plain_locked this Clear) =
    command_frame 0x01 ++ [Delay 3; Resolve; Release].
Proof.
  intros this. split.
  - unfold Ts.clear. rewrite ts_commandAndDelay_first_turn.
    match goal with |- context [exec hw_ok sched ?st] =>
      destruct (exec_extends hw_ok sched st) as (l & Hl);
      assert (Hlog : log st = [(Detached (Op 0), WriteSync RS (Int 0));
                               (Detached (Op 0), Write E (Int 1)); (Op 0, Delay 3)])
        by reflexivity
    end.
    unfold events. rewrite Hl, Hlog. reflexivity.
  - cbn [plain_locked].
    rewrite (plain_commandAndDelay_ok _ _ _ (constructor_wired config)). reflexivity.
Qed.

(** ** Concrete instances *)

(** [print("A")] on a four-row display, event by event. *)
Example print_A :
  trace_of hw_ok (Plain.print_locked (constructor (sample_config 4)) [0x41]) =
  [Immediate;
   WriteSync RS (Int 1);
   Write E (Int 1);
   Write (D 0) (Int 0); Write (D 1) (Int 0); Write (D 2) (Int 1); Write (D 3) (Int 0);
   Write E (Int 0); Sleepus 1;
   Write E (Int 1);
   Write (D 0) (Int 1); Write (D 1) (Int 0); Write (D 2) (Int 0); Write (D 3) (Int 0);
   Write E (Int 0); Sleepus 1;
   Sleepus 43;
   Immediate; Release; Resolve].
Proof. reflexivity. Qed.

(** In [lcd-ts.ts], a [print] that fails on its second character tells the
    callback about the failure once for each character reached, and releases
    the lock as many times. *)
Example ts_print_failure_reported_per_character :
  filter is_report
    (trace_of (fun n => (n <? 13)%nat)
       (Ts.print_locked (constructor (sample_config 4)) [0x41; 0x42] true)) =
  [Callback (AErr PinFault); Release; Callback (AErr PinFault); Release; Reject PinFault].
Proof. reflexivity. Qed.

Lemma send_frames_witness :
  0 <= 0x41 <= 255 /\
  run hw_ok 0 (Lcd.send (constructor (sample_config 4)) (Int 0x41) (Int 1)) =
  (Ok Undefined,
   [WriteSync RS (Int 1)]
     ++ [Write E (Int 1);
         Write (D 0) (Int 0); Write (D 1) (Int 0); Write (D 2) (Int 1); Write (D 3) (Int 0);
         Write E (Int 0); Sleepus 1]
     ++ [Write E (Int 1);
         Write (D 0) (Int 1); Write (D 1) (Int 0); Write (D 2) (Int 0); Write (D 3) (Int 0);
         Write E (Int 0); Sleepus 1],
   13%nat).
Proof.
  split; [lia | exact (send_frames (sample_config 4) 0x41 (Int 1) ltac:(lia))].
Defined.

Lemma send_low_byte_witness :
  0 <= 0x141 < 2 ^ 31 /\
  run hw_ok 0 (Lcd.send (constructor (sample_config 4)) (Int 0x141) (Int 1)) =
  run hw_ok 0 (Lcd.send (constructor (sample_config 4)) (Int (Z.land 0x141 0xFF)) (Int 1)).
Proof.
  split; [lia | exact (send_low_byte (sample_config 4) hw_ok 0x141 (Int 1) ltac:(lia))].
Defined.

Lemma clear_diverges_witness :
  finished (exec hw_dead [0%nat; 0%nat]
              (issue hw_dead [Ts.clear (constructor (sample_config 4)) true])) /\
  finished (exec hw_dead [0%nat]
              (issue hw_dead [Plain.clear (constructor (sample_config 4))])) /\
  events (exec hw_dead [0%nat; 0%nat]
            (issue hw_dead [Ts.clear (constructor (sample_config 4)) true])) =
    [WriteSync RS (Int 0); Callback (AErr PinFault);
     Delay 3; Callback (AVal Null); Release; Resolve] /\
  events (exec hw_dead [0%nat]
            (issue hw_dead [Plain.clear (constructor (sample_config 4))])) =
    [WriteSync RS (Int 0); Reject PinFault; Release].
Proof.
  assert (Hts : finished (exec hw_dead [0%nat; 0%nat]
              (issue hw_dead [Ts.clear (constructor (sample_config 4)) true])))
    by (split; vm_compute; reflexivity).
  assert (Hplain : finished (exec hw_dead [0%nat]
              (issue hw_dead [Plain.clear (constructor (sample_config 4))])))
    by (split; vm_compute; reflexivity).
  split; [exact Hts | split; [exact Hplain |]].
  exact (clear_diverges_on_dead_hardware (sample_config 4) [0%nat; 0%nat] [0%nat] Hts Hplain).
Defined.

Lemma print_guard_witness :
  In (Reject PinFault)
     (trace_of hw_dead (Plain.print_locked (constructor (sample_config 4)) [0x41])) /\
  ~ reports_error NotANumber (Reject PinFault).
Proof.
  assert (Hin : In (Reject PinFault)
     (trace_of hw_dead (Plain.print_locked (constructor (sample_config 4)) [0x41])))
    by (vm_compute; tauto).
  split; [exact Hin |].
  exact (proj2 (proj1 (print_never_trips_number_guard (sample_config 4) hw_dead [0x41]))
               (Reject PinFault) Hin).
Defined.

(** ** Faults in straight-line code *)

Lemma settle_no_write hw evs : forall n,
  existsb is_pin_write evs = false -> settle hw n evs = (true, n).
Proof.
  induction evs as [| ev evs IH]; intros n Hw; [reflexivity |].
  cbn [existsb] in Hw. apply orb_false_iff in Hw. destruct Hw as [Hev Hevs].
  cbn [settle]. rewrite Hev. apply IH. exact Hevs.
Qed.

Lemma settle_ok evs : forall n, fst (settle hw_ok n evs) = true.
Proof.
  induction evs as [| ev evs IH]; intros n; [reflexivity |].
  cbn [settle]. destruct (is_pin_write ev); [| apply IH].
  specialize (IH (S n)). destruct (settle hw_ok (S n) evs) as [ok n1].
  cbn [fst] in *. rewrite IH. reflexivity.
Qed.

Lemma straight_bind p f :
  Straight p -> (forall v, Straight (f v)) -> Straight (bind p f).
Proof.
  intros Hp Hf. induction Hp as [v | ev k Hk IH Hfail | evs k Hk IH Hfail]; cbn [bind].
  - apply Hf.
  - constructor; [exact IH |]. intros Hw. rewrite (Hfail Hw). reflexivity.
  - constructor; [exact IH |]. intros Hw. rewrite (Hfail Hw). reflexivity.
Qed.

(** On any hardware, straight-line code produces an initial part of what it
    produces on healthy hardware: all of it, with the same result, when it
    succeeds; and it can only fail with a pin fault. *)
Lemma straight_run p :
  Straight p ->
  forall hw n,
  exists rest,
    snd (fst (run hw n p)) ++ rest = trace_of hw_ok p /\
    match fst (fst (run hw n p)) with
    | Ok v => rest = [] /\ outcome_of hw_ok p = Ok v
    | Err err => err = PinFault
    end.
Proof.
  intros Hp. induction Hp as [v | ev k Hk IH Hfail | evs k Hk IH Hfail]; intros hw n.
  - exists []. split; [reflexivity | split; reflexivity].
  - assert (Hok : trace_of hw_ok (Sync ev k) = ev :: trace_of hw_ok (k true) /\
                  outcome_of hw_ok (Sync ev k) = outcome_of hw_ok (k true)).
    { unfold trace_of, outcome_of. cbn [run].
      pose proof (settle_ok [ev] 0) as Hs.
      destruct (settle hw_ok 0 [ev]) as [ok n1]. cbn [fst] in Hs. subst ok.
      pose proof (run_steady true (k true) n1) as Hr. fold hw_ok in Hr.
      destruct (run hw_ok n1 (k true)) as [[o t] n2].
      destruct (run hw_ok 0 (k true)) as [[o' t'] n2'].
      cbn [fst snd] in *. injection Hr as -> ->. split; reflexivity. }
    destruct Hok as [Ht Ho]. rewrite Ht, Ho. cbn [run].
    destruct (settle hw n [ev]) as [ok n1] eqn:Hs. destruct ok.
    + destruct (IH hw n1) as (rest & Hrest & Hres).
      destruct (run hw n1 (k true)) as [[o t] n2]. cbn [fst snd] in *.
      exists rest. split; [rewrite <- Hrest; reflexivity | exact Hres].
    + assert (Hw : is_pin_write ev = true).
      { destruct (is_pin_write ev) eqn:Hw; [reflexivity |].
        cbn [settle] in Hs. rewrite Hw in Hs. discriminate Hs. }
      rewrite (Hfail Hw). cbn [run fst snd].
      exists (trace_of hw_ok (k true)). split; reflexivity.
  - assert (Hok : trace_of hw_ok (Await evs k) = evs ++ trace_of hw_ok (k true) /\
                  outcome_of hw_ok (Await evs k) = outcome_of hw_ok (k true)).
    { unfold trace_of, outcome_of. cbn [run].
      pose proof (settle_ok evs 0) as Hs.
      destruct (settle hw_ok 0 evs) as [ok n1]. cbn [fst] in Hs. subst ok.
      pose proof (run_steady true (k true) n1) as Hr. fold hw_ok in Hr.
      destruct (run hw_ok n1 (k true)) as [[o t] n2].
      destruct (run hw_ok 0 (k true)) as [[o' t'] n2'].
      cbn [fst snd] in *. injection Hr as -> ->. split; reflexivity. }
    destruct Hok as [Ht Ho]. rewrite Ht, Ho. cbn [run].
    destruct (settle hw n evs) as [ok n1] eqn:Hs. destruct ok.
    + destruct (IH hw n1) as (rest & Hrest & Hres).
      destruct (run hw n1 (k true)) as [[o t] n2]. cbn [fst snd] in *.
      exists rest. split; [rewrite <- Hrest, app_assoc; reflexivity | exact Hres].
    + assert (Hw : existsb is_pin_write evs = true).
      { destruct (existsb is_pin_write evs) eqn:Hw; [reflexivity |].
        rewrite (settle_no_write hw evs n Hw) in Hs. discriminate Hs. }
      rewrite (Hfail Hw). cbn [run fst snd].
      exists (trace_of hw_ok (k true)). split; [rewrite app_nil_r; reflexivity | reflexivity].
Qed.

Lemma straight_await_all evs : Straight (await_all evs).
Proof. constructor; [constructor | reflexivity]. Qed.

Lemma straight_writeSync g v : Straight (writeSync g v).
Proof. constructor; [constructor | reflexivity]. Qed.

Lemma straight_perform ev : is_pin_write ev = false -> Straight (perform ev).
Proof. intros Hw. constructor; [constructor | rewrite Hw; discriminate]. Qed.

Lemma straight_delay time : Straight (delay time).
Proof. constructor; [constructor | discriminate]. Qed.

Lemma straight_write4Bits this val : Straight (Lcd.write4Bits this (Num val)).
Proof.
  unfold Lcd.write4Bits. cbn [Js.typeof String.eqb Ascii.eqb Bool.eqb negb Js.toNumber].
  repeat (apply straight_bind; [apply straight_await_all | intros _]).
  apply straight_perform. reflexivity.
Qed.

Lemma straight_send this val mode : Straight (Lcd.send this val mode).
Proof.
  unfold Lcd.send.
  apply straight_bind; [apply straight_writeSync | intros _].
  apply straight_bind; [apply straight_write4Bits | intros _; apply straight_write4Bits].
Qed.

Lemma straight_command this cmd : Straight (Lcd.command this cmd).
Proof.
  unfold Lcd.command.
  apply straight_bind; [apply straight_send | intros _; apply straight_perform; reflexivity].
Qed.

Lemma straight_write this val : Straight (Lcd.write this val).
Proof.
  unfold Lcd.write.
  apply straight_bind; [apply straight_send | intros _; apply straight_perform; reflexivity].
Qed.

Lemma straight_init this : Straight (Lcd.init this).
Proof.
  unfold Lcd.init.
  repeat (apply straight_bind;
          [first [apply straight_delay | apply straight_write4Bits | apply straight_command]
          | intros _]).
  apply straight_delay.
Qed.

(** X1. One nibble on any hardware.  The enable write comes first and alone;
    the four data-line writes are issued together, also when one of them
    fails; enable is lowered only when all four succeeded, and the
    pulse-width wait is made only when the lowering succeeded too. *)
Theorem write4Bits_on_any_hardware (this : Lcd) (hw : Hardware) (n : nat) (val : number) :
  wired this ->
  run hw n (Lcd.write4Bits this (Num val)) =
  let high := [Write E (Int 1)] in
  let lines := [Write (D 0) (bit 0 (Js.toInt32 val)); Write (D 1) (bit 1 (Js.toInt32 val));
                Write (D 2) (bit 2 (Js.toInt32 val)); Write (D 3) (bit 3 (Js.toInt32 val))] in
  if negb (hw n) then (Err PinFault, high, S n)
  else if negb (hw (1 + n) && hw (2 + n) && hw (3 + n) && hw (4 + n))%nat
       then (Err PinFault, high ++ lines, (5 + n)%nat)
  else if negb (hw (5 + n)%nat)
       then (Err PinFault, high ++ lines ++ [Write E (Int 0)], (6 + n)%nat)
  else (Ok Undefined, nibble_frame (Js.toInt32 val), (6 + n)%nat).
Proof.
  intros Hw. rewrite (write4Bits_number _ Hw). cbv zeta.
  cbn [run bind await_all sleepus perform settle is_pin_write Nat.add].
  destruct (hw n);
    cbn [andb negb settled bind run settle is_pin_write app sleepus perform];
    [| reflexivity].
  destruct (hw (S n)), (hw (S (S n))), (hw (S (S (S n)))), (hw (S (S (S (S n)))));
    cbn [andb negb settled bind run settle is_pin_write app sleepus perform];
    try reflexivity.
  destruct (hw (S (S (S (S (S n))))));
    cbn [andb negb settled bind run settle is_pin_write app sleepus perform];
    reflexivity.
Qed.

Lemma send_on_any_hardware this hw n val mode :
  wired this ->
  exists rest,
    snd (fst (run hw n (Lcd.send this val mode))) ++ rest = byte_frame mode (Js.toInt32 val) /\
    match fst (fst (run hw n (Lcd.send this val mode))) with
    | Ok v => rest = [] /\ v = Undefined
    | Err err => err = PinFault
    end.
Proof.
  intros Hw.
  destruct (straight_run _ (straight_send this val mode) hw n) as (rest & Hrest & Hres).
  unfold trace_of, outcome_of in *. rewrite (send_ok _ Hw) in *. cbn [fst snd] in *.
  exists rest. split; [exact Hrest |].
  destruct (fst (fst (run hw n (Lcd.send this val mode)))) as [v | err]; [| exact Hres].
  destruct Hres as [-> Hv]. injection Hv as <-. split; reflexivity.
Qed.

(** X2. A command on any hardware.  What is driven on the bus is an initial
    part of the healthy frame of the command; a command that succeeds has
    driven all of it; a command that fails has failed with a pin fault, has
    stopped at the failed write without retrying, and has not made the 39 us
    execution wait. *)
Theorem command_stops_at_fault (this : Lcd) (hw : Hardware) (cmd : number) :
  wired this ->
  exists rest,
    trace_of hw (Lcd.command this cmd) ++ rest = command_frame (Js.toInt32 cmd) /\
    match outcome_of hw (Lcd.command this cmd) with
    | Ok _ => rest = []
    | Err err => err = PinFault /\ ~ In (Sleepus 39) (trace_of hw (Lcd.command this cmd))
    end.
Proof.
  intros Hw. unfold trace_of, outcome_of, Lcd.command. rewrite run_bind.
  destruct (send_on_any_hardware this hw 0 cmd (Int 0) Hw) as (rest & Hrest & Hres).
  destruct (run hw 0 (Lcd.send this cmd (Int 0))) as [[o t] n1]. cbn [fst snd] in *.
  destruct o as [v | err].
  - destruct Hres as [-> _]. rewrite app_nil_r in Hrest. subst t.
    cbn [run sleepus perform settle is_pin_write fst snd]. exists [].
    split; [rewrite app_nil_r; reflexivity | reflexivity].
  - cbn [fst snd]. exists (rest ++ [Sleepus 39]).
    split; [rewrite app_assoc, Hrest; reflexivity |].
    split; [exact Hres |]. intros Hin.
    assert (Hin' : In (Sleepus 39) (byte_frame (Int 0) (Js.toInt32 cmd)))
      by (rewrite <- Hrest; apply in_or_app; left; exact Hin).
    cbn in Hin'. intuition discriminate.
Qed.

Lemma init_ok this n :
  wired this ->
  run hw_ok n (Lcd.init this) = (Ok Undefined, init_frame this, (n + 89)%nat).
Proof.
  intros Hw. unfold Lcd.init.
  repeat (rewrite run_bind;
          first [ rewrite (write4Bits_ok _ Hw)
                | rewrite (command_ok _ Hw)
                | cbn [run delay settle is_pin_write] ]).
  cbn [run delay settle is_pin_write].
  rewrite !(toInt32_small 3), !(toInt32_small 2), !(toInt32_small 16), !(toInt32_small 1)
    by lia.
  unfold init_frame. cbn [app]. f_equal. lia.
Qed.

(** X3. [init] on any hardware.  The events are an initial part of the
    healthy initialisation sequence, in the same order and without
    repetition; when [init] succeeds they are the whole sequence; and [init]
    can only fail with a pin fault. *)
Theorem init_stops_at_fault (this : Lcd) (hw : Hardware) :
  wired this ->
  exists rest,
    trace_of hw (Lcd.init this) ++ rest = init_frame this /\
    match outcome_of hw (Lcd.init this) with
    | Ok _ => rest = []
    | Err err => err = PinFault
    end.
Proof.
  intros Hw.
  destruct (straight_run _ (straight_init this) hw 0%nat) as (rest & Hrest & Hres).
  unfold trace_of in Hrest. rewrite (init_ok _ 0%nat Hw) in Hrest. cbn [fst snd] in Hrest.
  exists rest. split; [exact Hrest |]. unfold outcome_of.
  destruct (fst (fst (run hw 0 (Lcd.init this)))); [apply Hres | exact Hres].
Qed.

(** X4. [init] of [lcd-ts.ts] on any hardware: "ready" is emitted exactly
    when the initialisation has succeeded, once, as the last event; a failed
    initialisation emits no "ready". *)
Theorem ready_only_after_successful_init (this : Lcd) (hw : Hardware) :
  wired this ->
  match outcome_of hw (Ts.init this) with
  | Ok _ => trace_of hw (Ts.init this) = init_frame this ++ [Emit "ready" (AVal Undefined)]
  | Err err =>
      err = PinFault /\
      forall a, ~ In (Emit "ready" a) (trace_of hw (Ts.init this))
  end.
Proof.
  intros Hw. unfold outcome_of, trace_of, Ts.init. rewrite run_bind.
  destruct (straight_run _ (straight_init this) hw 0%nat) as (rest & Hrest & Hres).
  unfold trace_of in Hrest. rewrite (init_ok _ 0%nat Hw) in Hrest. cbn [fst snd] in Hrest.
  destruct (run hw 0 (Lcd.init this)) as [[o t] n1]. cbn [fst snd] in *.
  destruct o as [v | err]; cbn [run perform settle is_pin_write fst snd].
  - destruct Hres as [-> _]. rewrite app_nil_r in Hrest. subst t. reflexivity.
  - split; [exact Hres |]. intros a Hin.
    assert (Hin' : In (Emit "ready" a) (init_frame this))
      by (rewrite <- Hrest; apply in_or_app; left; exact Hin).
    unfold init_frame in Hin'. cbn in Hin'. intuition discriminate.
Qed.

(** ** The registers as settings *)

Lemma constructor_holds config : holds power_on (constructor config).
Proof.
  unfold holds, constructor. destruct (cfg_data config) as [[[d0 d1] d2] d3].
  split; reflexivity.
Qed.

Lemma toggle_holds t f this : holds f this -> holds (switch t f) (fst (toggle t this)).
Proof.
  intros [Hc Hm]. unfold holds.
  destruct t; cbn [toggle fst Plain.display Plain.noDisplay Plain.cursor Plain.noCursor
                   Plain.blink Plain.noBlink Plain.leftToRight Plain.rightToLeft
                   Plain.autoscroll Plain.noAutoscroll
                   set_displayControl set_displayMode displayControl displayMode];
    rewrite ?Hc, ?Hm;
    destruct f as [[] [] [] [] []]; split; reflexivity.
Qed.

Lemma after_holds ops : forall f this,
  holds f this -> holds (fold_left (fun f t => switch t f) ops f) (after ops this).
Proof.
  induction ops as [| t ops IH]; intros f this H; [exact H |].
  cbn [fold_left]. apply IH, toggle_holds, H.
Qed.

(** X5. The ten toggles implement five independent on/off settings: after
    any sequence of toggles, Display Control is [0x08 | D<<2 | C<<1 | B] and
    Display Mode is [0x04 | I<<1 | S], where each of D, C, B, I, S is what the
    last toggle of that setting asked for (or the initial value: display on,
    left to right, the others off).  A toggle never disturbs another setting
    nor the bits that identify the instruction. *)
Theorem registers_hold_the_settings (config : LcdConfig) (ops : list Toggle) :
  displayControl (after ops (constructor config)) = Int (control_byte (switched ops)) /\
  displayMode (after ops (constructor config)) = Int (mode_byte (switched ops)).
Proof.
  apply (after_holds ops power_on (constructor config)), constructor_holds.
Qed.

(** ** The cursor address *)

Lemma lor_high_bit x : 0 <= x < 128 -> Z.lor 128 x = 128 + x.
Proof.
  intros Hx.
  assert (Hcases : exists n, x = Z.of_nat n /\ (n < 128)%nat)
    by (exists (Z.to_nat x); lia).
  destruct Hcases as (n & -> & Hn).
  do 128 (destruct n as [| n]; [reflexivity |]). lia.
Qed.

(** X6. [setCursor] on a row of the offset table: when the row looked up
    (the row given, or [rows - 1] when the row given is above [rows]) is
    0, 1, 2 or 3 and the column plus the row's offset is a 7-bit address, the
    one command sent is "set DDRAM address" with the address column +
    offset, and nothing else happens. *)
Theorem setCursor_address (this : Lcd) (col row : Z) :
  wired this ->
  0 <= row_used this row <= 3 ->
  0 <= col ->
  col + nth (Z.to_nat (row_used this row)) ROW_OFFSETS 0 < 128 ->
  run hw_ok 0 (Plain.setCursor this (Int col) row) =
  (Ok Undefined,
   command_frame (0x80 + (col + nth (Z.to_nat (row_used this row)) ROW_OFFSETS 0)),
   13%nat).
Proof.
  intros Hw Hr Hcol Haddr. unfold Plain.setCursor. fold (row_used this row). cbv zeta.
  rewrite (command_ok _ Hw).
  assert (Hoff : exists off,
             Js.toNumber (Js.index ROW_OFFSETS (row_used this row)) = Int off /\
             nth (Z.to_nat (row_used this row)) ROW_OFFSETS 0 = off /\ 0 <= off < 128).
  { assert (Hc : row_used this row = 0 \/ row_used this row = 1 \/
                 row_used this row = 2 \/ row_used this row = 3) by lia.
    destruct Hc as [Hc | [Hc | [Hc | Hc]]]; rewrite Hc;
      eexists; (split; [reflexivity |]); (split; [reflexivity |]); lia. }
  destruct Hoff as (off & Hidx & Hnth & Hoff). rewrite Hnth in Haddr. rewrite Hidx, Hnth.
  unfold Js.add, Js.or, COMMANDS.SET_CURSOR.
  rewrite byte_frame_command.
  rewrite (toInt32_small 128), (toInt32_small (col + off)) by lia.
  rewrite lor_high_bit by lia. reflexivity.
Qed.

Lemma index_off_table r : r < 0 \/ 3 < r -> Js.index ROW_OFFSETS r = Undefined.
Proof.
  intros [Hr | Hr]; unfold Js.index.
  - assert (H : (r <? 0) = true) by (apply Z.ltb_lt; lia). rewrite H. reflexivity.
  - assert (H : (r <? 0) = false) by (apply Z.ltb_ge; lia). rewrite H.
    assert (Hn : nth_error ROW_OFFSETS (Z.to_nat r) = None)
      by (apply nth_error_None; cbn [List.length ROW_OFFSETS]; lia).
    rewrite Hn. reflexivity.
Qed.

(** X7. [setCursor] off the offset table: when the row looked up is negative
    (a negative row is never clamped) or above 3 (a row equal to [rows] = 4,
    or any row from 4 on with more than four rows configured), the lookup
    gives [undefined], the sum is [NaN], and the command sent is the bare
    0x80 -- row 0, column 0 -- whatever the column asked for. *)
Theorem setCursor_off_table (this : Lcd) (col : number) (row : Z) :
  wired this ->
  row_used this row < 0 \/ 3 < row_used this row ->
  run hw_ok 0 (Plain.setCursor this col row) =
  (Ok Undefined, command_frame 0x80, 13%nat).
Proof.
  intros Hw Hr. unfold Plain.setCursor. fold (row_used this row). cbv zeta.
  rewrite (command_ok _ Hw), (index_off_table _ Hr).
  assert (Hnan : Js.add col (Js.toNumber Undefined) = NaN) by (destruct col; reflexivity).
  rewrite Hnan. reflexivity.
Qed.

(** ** What the controller receives *)

Lemma level_bit i n : level (bit i n) = Z.testbit n i.
Proof. unfold level, bit. destruct (Z.testbit n i); reflexivity. Qed.

Lemma nibble_value n :
  Z.b2z (Z.testbit n 0) + 2 * Z.b2z (Z.testbit n 1) +
  4 * Z.b2z (Z.testbit n 2) + 8 * Z.b2z (Z.testbit n 3) = n mod 16.
Proof.
  rewrite <- (Z.mod_pow2_bits_low n 4 0), <- (Z.mod_pow2_bits_low n 4 1),
          <- (Z.mod_pow2_bits_low n 4 2), <- (Z.mod_pow2_bits_low n 4 3) by lia.
  change (2 ^ 4) with 16.
  assert (Hr : 0 <= n mod 16 < 16) by (apply Z.mod_pos_bound; lia).
  apply small_cases in Hr.
  repeat (destruct Hr as [Hr | Hr]; [rewrite Hr; reflexivity |]).
  rewrite Hr; reflexivity.
Qed.

Lemma byte_value v : 16 * (Z.shiftr v 4 mod 16) + Z.land v 0xF mod 16 = v mod 256.
Proof.
  change 0xF with (Z.ones 4). rewrite Z.land_ones, Z.shiftr_div_pow2 by lia.
  change (2 ^ 4) with 16. rewrite Z.mod_mod by lia.
  change 256 with (16 * 16). rewrite Z.rem_mul_r by lia. lia.
Qed.

Lemma latched_app t1 : forall l t2,
  latched l (t1 ++ t2) = latched l t1 ++ latched (lines_after l t1) t2.
Proof.
  induction t1 as [| ev t1 IH]; intros l t2; [reflexivity |].
  destruct ev; cbn [app latched lines_after fold_left]; try apply IH;
    fold (lines_after (drive l g v) t1);
    destruct (line_e l && negb (line_e (drive l g v)));
    cbn [app]; rewrite IH; reflexivity.
Qed.

Lemma lines_after_app t1 t2 l :
  lines_after l (t1 ++ t2) = lines_after (lines_after l t1) t2.
Proof. apply fold_left_app. Qed.

Lemma latched_nibble l n :
  latched l (nibble_frame n) = [(line_rs l, n mod 16)] /\
  line_rs (lines_after l (nibble_frame n)) = line_rs l.
Proof.
  split; [| reflexivity].
  unfold nibble_frame.
  cbn [latched drive line_e line_rs line_d level Z.eqb negb andb].
  rewrite andb_false_r.
  unfold nibble_of. cbn [line_d Nat.eqb]. rewrite !level_bit, nibble_value. reflexivity.
Qed.

Lemma latched_byte l mode v :
  latched l (byte_frame mode v) =
  [(level mode, Z.shiftr v 4 mod 16); (level mode, Z.land v 0xF mod 16)].
Proof.
  unfold byte_frame. cbn [app latched drive line_e].
  assert (He : line_e l && negb (line_e l) = false) by (destruct (line_e l); reflexivity).
  rewrite He, latched_app.
  destruct (latched_nibble {| line_rs := level mode; line_e := line_e l;
                              line_d := line_d l |} (Z.shiftr v 4)) as [H1 H1'].
  rewrite H1.
  destruct (latched_nibble
              (lines_after {| line_rs := level mode; line_e := line_e l;
                              line_d := line_d l |} (nibble_frame (Z.shiftr v 4)))
              (Z.land v 0xF)) as [H2 _].
  rewrite H2, H1'. reflexivity.
Qed.

(** X8. The byte that arrives.  Reading register select and the four data
    lines at each falling edge of enable, and taking two nibbles as a byte,
    high nibble first, the controller receives from [command(v)] the one
    instruction byte [v mod 256] and from [write(v)] the one data byte
    [v mod 256], for every integer [v]. *)
Theorem byte_received (this : Lcd) (v : Z) :
  wired this ->
  received (trace_of hw_ok (Lcd.command this (Int v))) = [(false, v mod 256)] /\
  received (trace_of hw_ok (Lcd.write this (Int v))) = [(true, v mod 256)].
Proof.
  intros Hw. unfold trace_of, received.
  rewrite (command_ok _ Hw), (write_ok _ Hw). cbn [fst snd].
  rewrite byte_frame_command, byte_frame_character.
  unfold command_frame, character_frame.
  rewrite !latched_app, !latched_byte. cbn [latched app paired level Z.eqb negb].
  rewrite byte_value. split; reflexivity.
Qed.

Lemma latched_characters cs : forall l tail,
  (forall l', latched l' tail = []) ->
  latched l (characters cs ++ tail) =
  flat_map (fun c => [(true, Z.shiftr c 4 mod 16); (true, Z.land c 0xF mod 16)]) cs.
Proof.
  induction cs as [| c cs IH]; intros l tail Htail; [apply Htail |].
  cbn [characters flat_map app latched].
  fold (characters cs). unfold character_frame.
  rewrite <- !app_assoc, latched_app, latched_byte. cbn [app latched].
  rewrite (IH _ _ Htail). reflexivity.
Qed.

Lemma paired_nibbles cs :
  paired (flat_map (fun c => [(true, Z.shiftr c 4 mod 16); (true, Z.land c 0xF mod 16)]) cs) =
  map (fun c => (true, c mod 256)) cs.
Proof.
  induction cs as [| c cs IH]; [reflexivity |].
  cbn [flat_map app paired map]. rewrite IH, byte_value. reflexivity.
Qed.

(** X9. What the display receives from [print], in both files: exactly the
    low bytes of the code units from the start index on, in order, all as
    data bytes (register select high), and no instruction byte. *)
Theorem print_received (this : Lcd) (str : JsString) (cb : bool) :
  wired this ->
  let sent := skipn (start_index (List.length str)) str in
  received (trace_of hw_ok (Plain.print_locked this str)) =
    map (fun c => (true, c mod 256)) sent /\
  received (trace_of hw_ok (Ts.print_locked this str cb)) =
    map (fun c => (true, c mod 256)) sent.
Proof.
  intros Hw sent. unfold trace_of, received.
  rewrite (print_locked_ok _ Hw), (ts_print_locked_ok _ Hw). cbn [fst snd]. fold sent.
  rewrite !latched_characters, paired_nibbles; [split; reflexivity | |].
  - intros l'. unfold notification. destruct cb; reflexivity.
  - intros l'. reflexivity.
Qed.

(** ** [print] on any hardware *)

Lemma write_on_any_hardware this hw n c :
  wired this ->
  exists o t n',
    run hw n (Lcd.write this (Int c)) = (o, t, n') /\
    ((o = Ok Undefined /\ t = character_frame c) \/
     (o = Err PinFault /\ exists rest, t ++ rest = character_frame c /\ rest <> [])).
Proof.
  intros Hw. unfold Lcd.write. rewrite run_bind.
  destruct (send_on_any_hardware this hw n (Int c) (Int 1) Hw) as (rest & Hrest & Hres).
  rewrite byte_frame_int in Hrest.
  destruct (run hw n (Lcd.send this (Int c) (Int 1))) as [[o t] n1]. cbn [fst snd] in *.
  destruct o as [v | err].
  - destruct Hres as [-> ->]. rewrite app_nil_r in Hrest. subst t.
    cbn [run sleepus perform settle is_pin_write].
    eexists _, _, _. split; [reflexivity |]. left. split; reflexivity.
  - subst err. eexists _, _, _. split; [reflexivity |]. right. split; [reflexivity |].
    exists (rest ++ [Sleepus 43]). split.
    + unfold character_frame. rewrite app_assoc, Hrest. reflexivity.
    + intros H. apply app_eq_nil in H. destruct H as [_ H]. discriminate H.
Qed.

Lemma printChar_any this hw str :
  wired this ->
  forall k index n,
  (List.length str - index = k)%nat ->
  exists o t n',
    run hw n (Plain.printChar this str index) = (o, t, n') /\
    ((o = Ok Undefined /\ t = characters (skipn index str) ++ [Immediate; Release]) \/
     (o = Err PinFault /\
      exists j part,
        stopped (skipn index str) j part /\
        t = characters (firstn j (skipn index str)) ++ Immediate :: part
            ++ repeat Release (S j))).
Proof.
  intros Hw. induction k as [| k IH]; intros index n Hk; rewrite printChar_eq.
  - assert (Hle : (List.length str <=? index)%nat = true) by (apply Nat.leb_le; lia).
    rewrite Hle. rewrite skipn_all2 by lia.
    eexists _, _, _. split; [reflexivity |]. left. split; reflexivity.
  - assert (Hgt : (List.length str <=? index)%nat = false) by (apply Nat.leb_gt; lia).
    rewrite Hgt.
    destruct (nth_error str index) as [c |] eqn:Hc;
      [| apply nth_error_None in Hc; lia].
    rewrite (skipn_step _ _ _ Hc).
    unfold Js.charCodeAt. rewrite Hc.
    rewrite run_bind. cbn [run setImmediate settle is_pin_write].
    rewrite run_try_catch, run_bind.
    destruct (write_on_any_hardware this hw n c Hw) as (o & t & n1 & Hrun & Hcase).
    rewrite Hrun.
    destruct Hcase as [[-> ->] | [-> (rest & Hrest & Hne)]].
    + rewrite run_bind.
      destruct (IH (S index) n1 ltac:(lia)) as (o2 & t2 & n2 & Hrun2 & Hcase2).
      rewrite Hrun2.
      destruct Hcase2 as [[-> ->] | [-> (j & part & Hstop & ->)]].
      * cbn [run]. eexists _, _, _. split; [reflexivity |]. left. split; [reflexivity |].
        unfold characters. cbn [flat_map app].
        rewrite app_nil_r, <- !app_assoc. reflexivity.
      * cbn [run release perform settle is_pin_write].
        eexists _, _, _. split; [reflexivity |]. right. split; [reflexivity |].
        exists (S j), part. split.
        -- destruct Hstop as (c' & rest' & Hn & Hp & Hr).
           exists c', rest'. cbn [nth_error]. repeat split; assumption.
        -- cbn [firstn characters flat_map app].
           fold (characters (firstn j (skipn (S index) str))).
           rewrite <- !app_assoc. cbn [app].
           do 3 f_equal. f_equal.
           rewrite <- app_assoc. f_equal.
           change (Release :: repeat Release j ++ [Release])
             with (repeat Release (S j) ++ [Release]).
           rewrite <- repeat_cons. reflexivity.
    + cbn [run release perform settle is_pin_write].
      eexists _, _, _. split; [reflexivity |]. right. split; [reflexivity |].
      exists 0%nat, t. split.
      * exists c, rest. repeat split; assumption.
      * reflexivity.
Qed.

(** X10. [print] of the plain file on any hardware.  Either every code unit
    from the start index on is transmitted, the lock is released once and the
    promise resolved; or transmission stops inside the frame of the [j]-th of
    them at the first pin write that fails, nothing more is written, and then
    [release()] is called [j + 1] times -- once by the [catch] of each
    [printChar] on the way out -- before the promise is rejected once. *)
Theorem print_on_any_hardware (this : Lcd) (hw : Hardware) (str : JsString) :
  wired this ->
  let sent := skipn (start_index (List.length str)) str in
  let t := trace_of hw (Plain.print_locked this str) in
  t = characters sent ++ [Immediate; Release; Resolve] \/
  exists j part,
    stopped sent j part /\
    t = characters (firstn j sent) ++ Immediate :: part
        ++ repeat Release (S j) ++ [Reject PinFault].
Proof.
  intros Hw sent t. subst t. unfold trace_of, Plain.print_locked. cbv zeta.
  fold (start_index (List.length str)). fold sent.
  rewrite run_try_catch, run_bind.
  destruct (printChar_any this hw str Hw _ (start_index (List.length str)) 0%nat eq_refl)
    as (o & t & n' & Hrun & Hcase).
  rewrite Hrun. fold sent in Hcase.
  destruct Hcase as [[-> ->] | [-> (j & part & Hstop & ->)]];
    cbn [run resolve reject perform settle is_pin_write fst snd].
  - left. rewrite <- app_assoc. reflexivity.
  - right. exists j, part. split; [exact Hstop |].
    rewrite <- !app_assoc. cbn [app]. rewrite <- app_assoc. reflexivity.
Qed.

Lemma eventOrCB_run hw err value event cb n :
  run hw n (Ts.eventOrCB err value event cb) =
  (Ok Undefined, [notification err value event cb], n).
Proof.
  unfold Ts.eventOrCB, notification. destruct cb, err; reflexivity.
Qed.

Lemma ts_printChar_any this hw str cb :
  wired this ->
  forall k index n,
  (List.length str - index = k)%nat ->
  exists o t n',
    run hw n (Ts.printChar this str index cb) = (o, t, n') /\
    ((o = Ok Undefined /\
      t = characters (skipn index str)
          ++ [Immediate; notification None (Str str) "printed" cb; Release]) \/
     (o = Err PinFault /\
      exists j part,
        stopped (skipn index str) j part /\
        t = characters (firstn j (skipn index str)) ++ Immediate :: part
            ++ List.concat
                 (repeat [notification (Some PinFault) Undefined "error" cb; Release]
                         (S j)))).
Proof.
  intros Hw. induction k as [| k IH]; intros index n Hk; rewrite ts_printChar_eq.
  - assert (Hle : (List.length str <=? index)%nat = true) by (apply Nat.leb_le; lia).
    rewrite Hle. rewrite skipn_all2 by lia.
    rewrite run_bind. cbn [run setImmediate settle is_pin_write].
    rewrite run_bind, eventOrCB_run.
    eexists _, _, _. split; [reflexivity |]. left. split; reflexivity.
  - assert (Hgt : (List.length str <=? index)%nat = false) by (apply Nat.leb_gt; lia).
    rewrite Hgt.
    destruct (nth_error str index) as [c |] eqn:Hc;
      [| apply nth_error_None in Hc; lia].
    rewrite (skipn_step _ _ _ Hc).
    unfold Js.charCodeAt. rewrite Hc.
    rewrite run_bind. cbn [run setImmediate settle is_pin_write].
    rewrite run_try_catch, run_bind.
    destruct (write_on_any_hardware this hw n c Hw) as (o & t & n1 & Hrun & Hcase).
    rewrite Hrun.
    destruct Hcase as [[-> ->] | [-> (rest & Hrest & Hne)]].
    + rewrite run_bind.
      destruct (IH (S index) n1 ltac:(lia)) as (o2 & t2 & n2 & Hrun2 & Hcase2).
      rewrite Hrun2.
      destruct Hcase2 as [[-> ->] | [-> (j & part & Hstop & ->)]].
      * cbn [run]. eexists _, _, _. split; [reflexivity |]. left. split; [reflexivity |].
        unfold characters. cbn [flat_map app].
        rewrite app_nil_r, <- !app_assoc. reflexivity.
      * rewrite run_bind, eventOrCB_run.
        cbn [run release perform settle is_pin_write].
        eexists _, _, _. split; [reflexivity |]. right. split; [reflexivity |].
        exists (S j), part. split.
        -- destruct Hstop as (c' & rest' & Hn & Hp & Hr).
           exists c', rest'. cbn [nth_error]. repeat split; assumption.
        -- cbn [firstn characters flat_map app].
           fold (characters (firstn j (skipn (S index) str))).
           rewrite <- !app_assoc. cbn [app].
           do 3 f_equal. f_equal.
           rewrite <- app_assoc. f_equal.
           set (report := [notification (Some PinFault) Undefined "error" cb; Release]).
           change (List.concat (repeat report (S j)) ++ report = List.concat (repeat report (S (S j)))).
           change (repeat report (S (S j))) with (report :: repeat report (S j)).
           rewrite (repeat_cons (S j) report), concat_app. cbn [List.concat].
           rewrite app_nil_r. reflexivity.
    + rewrite run_bind, eventOrCB_run.
      cbn [run release perform settle is_pin_write].
      eexists _, _, _. split; [reflexivity |]. right. split; [reflexivity |].
      exists 0%nat, t. split.
      * exists c, rest. repeat split; assumption.
      * reflexivity.
Qed.

(** X11. [print] of [lcd-ts.ts] called with a callback, on any hardware.  A
    print that succeeds calls the callback once with the string, then
    releases and resolves.  A print that stops inside the [j]-th code unit
    transmitted calls the callback with the error [j + 1] times, each call
    followed by a [release()], and then rejects: the callback is not called
    once but once for every character reached. *)
Theorem ts_print_on_any_hardware (this : Lcd) (hw : Hardware) (str : JsString) :
  wired this ->
  let sent := skipn (start_index (List.length str)) str in
  let t := trace_of hw (Ts.print_locked this str true) in
  t = characters sent ++ [Immediate; Callback (AVal (Str str)); Release; Resolve] \/
  exists j part,
    stopped sent j part /\
    t = characters (firstn j sent) ++ Immediate :: part
        ++ List.concat (repeat [Callback (AErr PinFault); Release] (S j))
        ++ [Reject PinFault].
Proof.
  intros Hw sent t. subst t. unfold trace_of, Ts.print_locked. cbv zeta.
  fold (start_index (List.length str)). fold sent.
  rewrite run_try_catch, run_bind.
  destruct (ts_printChar_any this hw str true Hw _ (start_index (List.length str)) 0%nat
              eq_refl)
    as (o & t & n' & Hrun & Hcase).
  rewrite Hrun. fold sent in Hcase. cbn [notification] in Hcase.
  destruct Hcase as [[-> ->] | [-> (j & part & Hstop & ->)]];
    cbn [run resolve reject perform settle is_pin_write fst snd].
  - left. rewrite <- app_assoc. reflexivity.
  - right. exists j, part. split; [exact Hstop |].
    rewrite <- !app_assoc. cbn [app]. rewrite <- !app_assoc. reflexivity.
Qed.

(** ** Any number of locked operations *)

Lemma plain_operation_lock this op :
  plain_operation this op = Lock (Async (plain_locked this op)).
Proof. destruct op; reflexivity. Qed.

Lemma issue_from_held hw this ops : forall n st,
  held st = true ->
  issue_from hw n (map (plain_operation this) ops) st =
  {| pending := pending st; held := true;
     queue := queue st ++ mapi_from n (fun op k => (Op k, Async (plain_locked this op))) ops;
     log := log st; writes := writes st |}.
Proof.
  induction ops as [| op ops IH]; intros n st Hheld.
  - cbn [map issue_from mapi_from]. rewrite app_nil_r.
    destruct st as [p h q l w]. cbn [held] in Hheld. subst h. reflexivity.
  - cbn [map issue_from mapi_from]. rewrite plain_operation_lock.
    cbn [start]. unfold acquire. rewrite Hheld.
    rewrite IH by reflexivity. cbn [pending queue log writes].
    rewrite <- app_assoc. reflexivity.
Qed.

Lemma issue_locked hw this op ops :
  issue hw (map (plain_operation this) (op :: ops)) =
  {| pending := [(Op 0, Start (Async (plain_locked this op)))]; held := true;
     queue := mapi_from 1 (fun op k => (Op k, Async (plain_locked this op))) ops;
     log := []; writes := 0 |}.
Proof.
  unfold issue. cbn [map issue_from]. rewrite plain_operation_lock.
  cbn [start]. unfold acquire. cbn [held idle].
  rewrite issue_from_held by reflexivity. reflexivity.
Qed.

Lemma queue_future_locked P b this ops : forall n,
  queue_future P b (mapi_from n (fun op k => (Op k, Async (plain_locked this op))) ops) =
  List.concat
    (mapi_from n (fun op k =>
                    observed P (Op k) (trace_of (steady b) (plain_locked this op))) ops).
Proof.
  induction ops as [| op ops IH]; intros n; [reflexivity |].
  unfold queue_future in *. cbn [mapi_from map List.concat fst snd upcoming_task].
  rewrite IH. reflexivity.
Qed.

Lemma waiting_locked (Q : Tid * Task -> Prop) this ops :
  (forall k op, Q (Op k, Async (plain_locked this op))) ->
  forall n, Forall Q (mapi_from n (fun op k => (Op k, Async (plain_locked this op))) ops).
Proof.
  intros HQ. induction ops as [| op ops IH]; intros n; cbn [mapi_from]; constructor.
  - apply HQ.
  - apply IH.
Qed.

(** X12. Any number of calls of [print], [clear] and [home] of the plain
    file, made one after the other on one driver, on hardware whose pin
    writes all succeed or all fail.  Whatever the order in which the event
    loop resumes suspended code, the pin writes made so far are an initial
    part of "all pin writes of the first call, then all of the second, and
    so on in the order of the calls", and they are exactly that once all
    calls have finished. *)
Theorem locked_operations_serialise
    (config : LcdConfig) (ops : list Mutating) (b : bool) (sched : list nat) :
  let this := constructor config in
  let st := exec (steady b) sched (issue (steady b) (map (plain_operation this) ops)) in
  (exists rest, pin_writes (log st) ++ rest = serial_order b this ops) /\
  (finished st -> pin_writes (log st) = serial_order b this ops).
Proof.
  intros this st. subst st.
  destruct ops as [| op ops].
  - change (issue (steady b) (map (plain_operation this) [])) with idle.
    rewrite exec_idle by reflexivity.
    split; [exists []; reflexivity | intros _; reflexivity].
  - rewrite issue_locked.
    set (P := fun (_ : Tid) => is_pin_write).
    set (st0 := {| pending := [(Op 0, Start (Async (plain_locked this op)))];
                   held := true;
                   queue := mapi_from 1 (fun op k => (Op k, Async (plain_locked this op))) ops;
                   log := []; writes := 0 |}).
    assert (Hw : wired this) by apply constructor_wired.
    assert (HS : Serial P b st0 (serial_order b this (op :: ops))).
    { exists (Some (Op 0, Start (Async (plain_locked this op)))), [].
      refine (conj _ (conj (Forall_nil _) (conj _ (conj _ _)))).
      - reflexivity.
      - split; [exact I | right; apply plain_locked_release_final, Hw].
      - apply waiting_locked. intros k op'.
        split; [exact I | apply plain_locked_release_final, Hw].
      - cbn [st0 queue owner_future fst snd upcoming].
        rewrite queue_future_locked. reflexivity. }
    destruct (exec_observed P b sched _ _ HS) as [Hprefix Hall].
    split; [exact Hprefix | exact Hall].
Qed.

(** ** Every call finishes *)

Lemma segment_turns b p : forall n seg q n',
  segment (steady b) n p = (seg, q, n') ->
  turns b p = match q with Some q' => S (turns b q') | None => 0%nat end.
Proof.
  induction p as [v | err | ev k IH | evs k IH]; intros n seg q n' Hseg;
    cbn [segment] in Hseg.
  - injection Hseg as <- <- <-. reflexivity.
  - injection Hseg as <- <- <-. reflexivity.
  - pose proof (settle_steady b [ev] n) as Hs.
    destruct (settle (steady b) n [ev]) as [ok n1].
    destruct (segment (steady b) n1 (k ok)) as [[seg1 q1] n2] eqn:Hk.
    injection Hseg as <- <- <-. cbn [turns]. rewrite <- Hs. cbn [fst].
    exact (IH ok _ _ _ _ Hk).
  - pose proof (settle_steady b evs n) as Hs.
    destruct (settle (steady b) n evs) as [ok n1].
    injection Hseg as <- <- <-. cbn [turns]. rewrite <- Hs. reflexivity.
Qed.

Lemma pending_load_app b l1 l2 :
  pending_load b (l1 ++ l2) = (pending_load b l1 + pending_load b l2)%nat.
Proof. unfold pending_load. rewrite map_app, list_sum_app. reflexivity. Qed.

Lemma pending_load_perm b l1 l2 :
  Permutation l1 l2 -> pending_load b l1 = pending_load b l2.
Proof.
  unfold pending_load, list_sum. induction 1; cbn [map fold_right]; lia.
Qed.

Lemma pending_load_next b i p n seg q n' :
  segment (steady b) n p = (seg, q, n') ->
  pending_load b (next_of i q) = turns b p.
Proof.
  intros Hs. rewrite (segment_turns b p _ _ _ _ Hs).
  destruct q; cbn; lia.
Qed.

Lemma pick_some {A} (l : list A) : forall k,
  (k < List.length l)%nat -> exists x r, pick k l = Some (x, r).
Proof.
  intros k Hk. destruct (pick k l) as [[x r] |] eqn:Hp; [exists x, r; reflexivity |].
  apply pick_nil in Hp. destruct Hp as [-> | Hle]; cbn [List.length] in *; lia.
Qed.

Lemma releases_once_split l1 l2 :
  releases_once (l1 ++ l2) ->
  (exists s, after_release l1 = Some s /\ release_free s /\ release_free l2) \/
  (release_free l1 /\ releases_once l2).
Proof.
  intros (l' & Hrel & Hfree). rewrite after_release_app in Hrel.
  destruct (after_release l1) as [s |] eqn:H1.
  - left. injection Hrel as <-. apply release_free_app in Hfree.
    exists s. split; [reflexivity | exact Hfree].
  - right. split; [exact H1 | exists l'; split; assumption].
Qed.

Lemma flat_go hw b i c st :
  flat c ->
  exists p, upcoming b c = trace_of (steady b) p /\ weight b c = S (turns b p) /\
            match c with
            | Start t => start hw i t st
            | Resume p => resume hw i p st
            end = resume hw i p st.
Proof.
  intros Hflat. destruct c as [[p | fn | ch r] | p]; try contradiction;
    exists p; repeat split; reflexivity.
Qed.

Section Liveness.

Variable b : bool.

Lemma resume_live_bystander st i p o others :
  Permutation (pending st) (option_list o ++ others) ->
  Forall (quiet b) others ->
  owner_live b (queue st) o ->
  Forall (waiting_live b) (queue st) ->
  release_free (trace_of (steady b) p) ->
  Live b (resume (steady b) i p st) /\
  load b (resume (steady b) i p st) = (turns b p + load b st)%nat.
Proof.
  intros Hperm Hby Hown Hwait Hfree.
  destruct (segment (steady b) (writes st) p) as [[seg q] n] eqn:Hs.
  pose proof (segment_trace b p _ _ _ _ Hs) as Ht.
  rewrite Ht in Hfree. apply release_free_app in Hfree. destruct Hfree as [Hf1 Hf2].
  destruct (resume_quiet b i p st seg q n Hs (or_introl Hf1)) as [Hp Hq].
  split.
  - exists o, (others ++ next_of i q). rewrite Hp, Hq.
    refine (conj _ (conj _ (conj Hown Hwait))).
    { rewrite app_assoc; apply Permutation_app_tail; exact Hperm. }
    apply Forall_app. split; [exact Hby |].
    destruct q as [q |]; cbn [next_of]; constructor; [| constructor].
    split; [exact I | exact Hf2].
  - unfold load. rewrite Hp, Hq, pending_load_app, (pending_load_next b i p _ _ _ _ Hs). lia.
Qed.

Lemma resume_live_owner st i p others :
  Permutation (pending st) others ->
  Forall (quiet b) others ->
  releases_once (trace_of (steady b) p) ->
  Forall (waiting_live b) (queue st) ->
  Live b (resume (steady b) i p st) /\
  load b (resume (steady b) i p st) = (turns b p + load b st)%nat.
Proof.
  intros Hperm Hby Honce Hwait.
  destruct (segment (steady b) (writes st) p) as [[seg q] n] eqn:Hs.
  pose proof (segment_trace b p _ _ _ _ Hs) as Ht.
  pose proof (pending_load_next b i p _ _ _ _ Hs) as Hload.
  rewrite Ht in Honce. apply releases_once_split in Honce.
  destruct Honce as [(s2 & Hrel & Hf1 & Hf2) | [Hf1 Honce]].
  - destruct (queue st) as [| [j t] ws] eqn:Hq.
    + (* nobody waits: the lock becomes free *)
      destruct (resume_quiet b i p st seg q n Hs (or_intror Hq)) as [Hp Hq'].
      split.
      * exists None, (others ++ next_of i q). rewrite Hp, Hq', Hq.
        refine (conj _ (conj _ (conj eq_refl (Forall_nil _)))).
        { cbn [option_list app]. apply Permutation_app_tail; exact Hperm. }
        apply Forall_app. split; [exact Hby |].
        destruct q as [q |]; cbn [next_of]; constructor; [| constructor].
        split; [exact I | exact Hf2].
      * unfold load. rewrite Hp, Hq', Hq, pending_load_app, Hload. lia.
    + (* the lock goes to the first waiting call *)
      destruct (resume_handover b i p st seg q n s2 j t ws Hs Hrel Hf1 Hq) as [Hp Hq'].
      apply Forall_cons_iff in Hwait. destruct Hwait as [[Hflat Hwonce] Hws].
      cbn [fst snd] in Hflat, Hwonce.
      destruct t as [pt | |]; try contradiction.
      split.
      * exists (Some (j, Start (Async pt))), (others ++ next_of i q).
        rewrite Hp, Hq'.
        refine (conj _ (conj _ (conj _ Hws))).
        -- rewrite Hperm. cbn [option_list app].
           rewrite <- Permutation_middle. reflexivity.
        -- apply Forall_app. split; [exact Hby |].
           destruct q as [q |]; cbn [next_of]; constructor; [| constructor].
           split; [exact I | exact Hf2].
        -- cbn [owner_live fst snd]. split; [exact I | exact Hwonce].
      * unfold load. rewrite Hp, Hq', Hq, !pending_load_app, Hload.
        unfold queue_load, pending_load, list_sum.
        cbn [map fold_right snd task_weight weight]. lia.
  - (* no release in this turn: the owner goes on *)
    destruct (resume_quiet b i p st seg q n Hs (or_introl Hf1)) as [Hp Hq].
    destruct q as [q |];
      [| destruct Honce as (l' & Hrel & _); discriminate Hrel].
    split.
    + exists (Some (i, Resume q)), others. rewrite Hp, Hq.
      refine (conj _ (conj Hby (conj _ Hwait))).
      * rewrite Hperm. cbn [next_of option_list app].
        apply Permutation_sym, Permutation_cons_append.
      * cbn [owner_live fst snd upcoming]. split; [exact I | exact Honce].
    + unfold load. rewrite Hp, Hq, pending_load_app, Hload. lia.
Qed.

Lemma step_live st s :
  Live b st -> pending st <> [] ->
  Live b (step (steady b) st s) /\ S (load b (step (steady b) st s)) = load b st.
Proof.
  intros (o & others & Hperm & Hby & Hown & Hwait) Hne.
  unfold step.
  assert (Hlt : (s mod List.length (pending st) < List.length (pending st))%nat).
  { apply Nat.mod_upper_bound. destruct (pending st); [congruence | discriminate]. }
  destruct (pick_some _ _ Hlt) as ([i c] & rest & Hpick). rewrite Hpick.
  pose proof (pick_perm _ _ _ _ Hpick) as Hpr.
  set (st0 := {| pending := rest; held := held st; queue := queue st;
                 log := log st; writes := writes st |}).
  assert (Hload : load b st = (weight b c + load b st0)%nat).
  { unfold load. rewrite (pending_load_perm b _ _ Hpr).
    unfold pending_load, list_sum. cbn [st0 pending queue map fold_right snd]. lia. }
  assert (Hall : Permutation ((i, c) :: rest) (option_list o ++ others))
    by (rewrite <- Hpr; exact Hperm).
  assert (Hin : In (i, c) (option_list o ++ others))
    by (apply (Permutation_in _ Hall); left; reflexivity).
  apply in_app_or in Hin. destruct Hin as [Hin | Hin].
  - (* the owner goes on *)
    destruct o as [c0 |]; [| contradiction]. destruct Hin as [-> | []].
    cbn [option_list app] in Hall. apply Permutation_cons_inv in Hall.
    destruct Hown as [Hflat Honce]. cbn [fst snd] in Hflat, Honce.
    destruct (flat_go (steady b) b i c st0 Hflat) as (p & Hup & Hwt & ->).
    rewrite Hup in Honce.
    destruct (resume_live_owner st0 i p others Hall Hby Honce Hwait) as [HL Hl].
    split; [exact HL |]. rewrite Hl, Hload, Hwt. reflexivity.
  - (* a bystander goes on *)
    apply in_split in Hin. destruct Hin as (l1 & l2 & ->).
    rewrite app_assoc in Hall. apply Permutation_cons_app_inv in Hall.
    rewrite <- app_assoc in Hall.
    apply Forall_app in Hby. destruct Hby as [Hby1 Hby2].
    apply Forall_cons_iff in Hby2. destruct Hby2 as [(Hflat & Hfree) Hby2].
    cbn [fst snd] in Hflat, Hfree.
    destruct (flat_go (steady b) b i c st0 Hflat) as (p & Hup & Hwt & ->).
    rewrite Hup in Hfree.
    assert (Hby' : Forall (quiet b) (l1 ++ l2))
      by (apply Forall_app; split; assumption).
    destruct (resume_live_bystander st0 i p o (l1 ++ l2) Hall Hby' Hown Hwait Hfree)
      as [HL Hl].
    split; [exact HL |]. rewrite Hl, Hload, Hwt. reflexivity.
Qed.

Lemma live_idle st : Live b st -> pending st = [] -> finished st /\ load b st = 0%nat.
Proof.
  intros (o & others & Hperm & _ & Hown & _) Hp.
  rewrite Hp in Hperm. apply Permutation_nil in Hperm.
  apply app_eq_nil in Hperm. destruct Hperm as [Ho _].
  destruct o; [discriminate |]. cbn [owner_live] in Hown.
  split; [split; assumption |]. unfold load. rewrite Hp, Hown. reflexivity.
Qed.

Lemma live_busy st : Live b st -> pending st <> [] -> (0 < load b st)%nat /\ ~ finished st.
Proof.
  intros (o & others & Hperm & Hby & Hown & _) Hne.
  split; [| intros [Hp _]; contradiction].
  unfold load. rewrite (pending_load_perm b _ _ Hperm).
  destruct o as [c |].
  - destruct Hown as [Hflat _].
    destruct c as [i [[p | fn | ch r] | p]]; try contradiction; cbn; lia.
  - cbn [option_list app] in *.
    destruct others as [| [i c] others].
    + apply Permutation_sym, Permutation_nil in Hperm. contradiction.
    + apply Forall_cons_iff in Hby. destruct Hby as [[Hflat _] _]. cbn [snd] in Hflat.
      destruct c as [[p | fn | ch r] | p]; try contradiction; cbn; lia.
Qed.

(** Each turn takes one unit off the load, whatever computation it resumes. *)
Lemma exec_live sched : forall st,
  Live b st ->
  Live b (exec (steady b) sched st) /\
  load b (exec (steady b) sched st) = (load b st - List.length sched)%nat.
Proof.
  induction sched as [| s sched IH]; intros st HL.
  - split; [exact HL | cbn [exec fold_left List.length]; lia].
  - change (exec (steady b) (s :: sched) st)
      with (exec (steady b) sched (step (steady b) st s)).
    destruct (pending st) as [| c l] eqn:Hp.
    + destruct (live_idle st HL Hp) as [_ H0].
      assert (Hstep : step (steady b) st s = st)
        by (unfold step; rewrite Hp; reflexivity).
      rewrite Hstep. destruct (IH st HL) as [HL' Hl]. split; [exact HL' |].
      rewrite Hl, H0. reflexivity.
    + assert (Hne : pending st <> []) by (rewrite Hp; discriminate).
      destruct (step_live st s HL Hne) as [HL1 Hl1].
      destruct (IH _ HL1) as [HL' Hl]. split; [exact HL' |].
      rewrite Hl. cbn [List.length]. lia.
Qed.

Lemma live_finished st : Live b st -> (finished st <-> load b st = 0%nat).
Proof.
  intros HL. destruct (pending st) as [| c l] eqn:Hp.
  - destruct (live_idle st HL Hp) as [Hf H0]. tauto.
  - assert (Hne : pending st <> []) by (rewrite Hp; discriminate).
    destruct (live_busy st HL Hne) as [Hpos Hnf]. split; [tauto | lia].
Qed.

End Liveness.

Lemma plain_locked_releases_once this op b :
  wired this ->
  releases_once (trace_of (steady b) (plain_locked this op)).
Proof.
  intros Hw. unfold releases_once. destruct b.
  - fold hw_ok. destruct op as [str | |]; cbn [plain_locked].
    + unfold trace_of. rewrite (print_locked_ok _ Hw). cbn [fst snd].
      pose proof (characters_release_free (skipn (start_index (List.length str)) str))
        as Hfree.
      unfold release_free in Hfree. rewrite after_release_app, Hfree.
      exists [Resolve]. split; reflexivity.
    + rewrite (plain_commandAndDelay_ok _ _ _ Hw), after_release_app.
      exists []. split; reflexivity.
    + rewrite (plain_commandAndDelay_ok _ _ _ Hw), after_release_app.
      exists []. split; reflexivity.
  - fold hw_dead. destruct op as [str | |]; cbn [plain_locked].
    + rewrite print_locked_dead.
      destruct (List.length str <=? start_index (List.length str))%nat;
        eexists; split; reflexivity.
    + eexists; split; reflexivity.
    + eexists; split; reflexivity.
Qed.

Lemma issue_live this ops b :
  wired this -> Live b (issue (steady b) (map (plain_operation this) ops)).
Proof.
  intros Hw. destruct ops as [| op ops].
  - exists None, []. repeat split; constructor.
  - rewrite issue_locked.
    exists (Some (Op 0, Start (Async (plain_locked this op)))), [].
    refine (conj _ (conj (Forall_nil _) (conj _ _))).
    + reflexivity.
    + split; [exact I | apply plain_locked_releases_once, Hw].
    + apply waiting_locked. intros k op'.
      split; [exact I | apply plain_locked_releases_once, Hw].
Qed.

(** X13. No call waits for ever.  Any number of calls of [print], [clear]
    and [home] of the plain file made together, on hardware whose pin writes
    all succeed or all fail, need a fixed number of turns of the event loop,
    the same whatever the order of the turns: they have all finished -- the
    lock is free and nothing is waiting for it -- exactly when that many
    turns have been taken. *)
Theorem locked_operations_finish
    (config : LcdConfig) (ops : list Mutating) (b : bool) (sched : list nat) :
  let st0 := issue (steady b) (map (plain_operation (constructor config)) ops) in
  finished (exec (steady b) sched st0) <-> (load b st0 <= List.length sched)%nat.
Proof.
  intros st0.
  assert (HL : Live b st0) by apply issue_live, constructor_wired.
  destruct (exec_live b sched st0 HL) as [HL' Hl].
  rewrite (live_finished b _ HL'), Hl. lia.
Qed.

(** ** Two locked calls on any hardware *)













(** *** One turn, on any hardware *)















(** ** Turns of a print *)

Lemma turns_bind b p f : forall v,
  outcome_of (steady b) p = Ok v ->
  turns b (bind p f) = (turns b p + turns b (f v))%nat.
Proof.
  unfold outcome_of.
  induction p as [v' | err | ev k IH | evs k IH]; intros v Ho; cbn [bind turns].
  - injection Ho as ->. reflexivity.
  - discriminate Ho.
  - apply IH. cbn [run] in Ho.
    destruct (settle (steady b) 0 [ev]) as [ok n1]. cbn [fst].
    rewrite <- (run_steady b (k ok) n1).
    destruct (run (steady b) n1 (k ok)) as [[o t] n2]. exact Ho.
  - cbn [Nat.add]. f_equal. apply IH. cbn [run] in Ho.
    destruct (settle (steady b) 0 evs) as [ok n1]. cbn [fst].
    rewrite <- (run_steady b (k ok) n1).
    destruct (run (steady b) n1 (k ok)) as [[o t] n2]. exact Ho.
Qed.

Lemma turns_try_catch b p h : forall v,
  outcome_of (steady b) p = Ok v ->
  turns b (try_catch p h) = turns b p.
Proof.
  unfold outcome_of.
  induction p as [v' | err | ev k IH | evs k IH]; intros v Ho; cbn [try_catch turns].
  - reflexivity.
  - discriminate Ho.
  - apply (IH _ v). cbn [run] in Ho.
    destruct (settle (steady b) 0 [ev]) as [ok n1]. cbn [fst].
    rewrite <- (run_steady b (k ok) n1).
    destruct (run (steady b) n1 (k ok)) as [[o t] n2]. exact Ho.
  - f_equal. apply (IH _ v). cbn [run] in Ho.
    destruct (settle (steady b) 0 evs) as [ok n1]. cbn [fst].
    rewrite <- (run_steady b (k ok) n1).
    destruct (run (steady b) n1 (k ok)) as [[o t] n2]. exact Ho.
Qed.

Lemma turns_write this val : wired this -> turns true (Lcd.write this val) = 6%nat.
Proof.
  intros Hw. unfold Lcd.write, Lcd.send. rewrite !(write4Bits_number _ Hw). reflexivity.
Qed.

Lemma turns_printChar this str :
  wired this ->
  forall k index, (List.length str - index = k)%nat ->
  turns true (Plain.printChar this str index) = (7 * k + 1)%nat.
Proof.
  intros Hw. induction k as [| k IH]; intros index Hk; rewrite printChar_eq.
  - assert (Hle : (List.length str <=? index)%nat = true) by (apply Nat.leb_le; lia).
    rewrite Hle. reflexivity.
  - assert (Hgt : (List.length str <=? index)%nat = false) by (apply Nat.leb_gt; lia).
    rewrite Hgt. cbn [setImmediate bind turns].
    assert (Hwrite : outcome_of (steady true) (Lcd.write this (Js.charCodeAt str index))
                     = Ok Undefined)
      by (unfold outcome_of; fold hw_ok; rewrite (write_ok _ Hw); reflexivity).
    assert (Hrest : outcome_of (steady true) (Plain.printChar this str (S index))
                    = Ok Undefined)
      by (unfold outcome_of; fold hw_ok;
          rewrite (printChar_ok _ Hw str _ (S index) 0 eq_refl); reflexivity).
    rewrite (turns_try_catch true _ _ Undefined).
    + rewrite (turns_bind true _ _ Undefined Hwrite), (turns_write _ _ Hw).
      rewrite (turns_bind true _ _ Undefined Hrest), (IH (S index)) by lia.
      cbn [turns]. lia.
    + unfold outcome_of. fold hw_ok. rewrite run_bind, (write_ok _ Hw).
      rewrite run_bind, (printChar_ok _ Hw str _ (S index) _ eq_refl). reflexivity.
Qed.

Lemma turns_print this str :
  wired this ->
  turns true (Plain.print_locked this str) =
  (7 * (List.length str - start_index (List.length str)) + 1)%nat.
Proof.
  intros Hw. unfold Plain.print_locked. cbv zeta. fold (start_index (List.length str)).
  assert (Hpc : outcome_of (steady true)
                  (Plain.printChar this str (start_index (List.length str))) = Ok Undefined)
    by (unfold outcome_of; fold hw_ok;
        rewrite (printChar_ok _ Hw str _ _ 0 eq_refl); reflexivity).
  rewrite (turns_try_catch true _ _ Undefined).
  - rewrite (turns_bind true _ _ Undefined Hpc).
    rewrite (turns_printChar _ str Hw _ _ eq_refl). cbn [resolve perform turns]. lia.
  - unfold outcome_of. fold hw_ok. rewrite run_bind, (printChar_ok _ Hw str _ _ _ eq_refl).
    reflexivity.
Qed.

Lemma events_tag i l : map snd (tag i l) = l.
Proof.
  unfold tag. rewrite map_map. cbn [snd]. apply map_id.
Qed.

(** One [print] of the plain file, alone on healthy hardware, under any
    order of turns. *)
Lemma print_alone this str sched :
  wired this ->
  let st := exec hw_ok sched (issue hw_ok [Plain.print this str]) in
  let sent := characters (skipn (start_index (List.length str)) str)
                ++ [Immediate; Release; Resolve] in
  (exists rest, events st ++ rest = sent) /\
  ((7 * (List.length str - start_index (List.length str)) + 2 <= List.length sched)%nat ->
   finished st /\ events st = sent).
Proof.
  intros Hw st sent.
  pose proof (lone_serial (fun _ _ => true) true (Op 0) (Plain.print_locked this str)) as HS.
  change {| pending := [(Op 0, Start (Async (Plain.print_locked this str)))];
            held := true; queue := []; log := []; writes := 0 |}
    with (issue hw_ok [Plain.print this str]) in HS.
  destruct (exec_observed _ true sched _ _ HS) as [(F' & Hprefix) Hall].
  fold hw_ok in Hprefix, Hall. fold st in Hprefix, Hall.
  rewrite !observe_all, observed_everything in Hprefix, Hall.
  assert (Htrace : trace_of hw_ok (Plain.print_locked this str) = sent)
    by (unfold trace_of; rewrite (print_locked_ok _ Hw); reflexivity).
  rewrite Htrace in Hprefix, Hall.
  cbn [issue issue_from start Plain.print acquire idle held log app] in Hprefix, Hall.
  split.
  - exists (map snd F'). unfold events.
    rewrite <- map_app, Hprefix. apply events_tag.
  - intros Hlen.
    assert (HL : Live true (issue (steady true) (map (plain_operation this) [Print str])))
      by (apply issue_live, Hw).
    destruct (exec_live true sched _ HL) as [HL' Hl].
    assert (Hload : load true (issue (steady true) (map (plain_operation this) [Print str]))
                    = (7 * (List.length str - start_index (List.length str)) + 2)%nat).
    { rewrite issue_locked. unfold load, pending_load, queue_load, list_sum.
      cbn [mapi_from pending queue map fold_right snd weight plain_locked].
      rewrite (turns_print _ _ Hw). lia. }
    assert (Hfin : finished st).
    { apply (live_finished true _ HL'). rewrite Hl, Hload. lia. }
    split; [exact Hfin |].
    unfold events. rewrite (Hall Hfin). apply events_tag.
Qed.

(** C2, for [print] as it is called.  A [print] of the plain file alone on
    healthy hardware, under any order of the turns of the event loop: what
    has happened so far is an initial part of "the code units at indices
    [start .. length-1] transmitted in order, then the release and the
    resolution", where [start = (n-1)*80] when [n = floor(length/80) > 1] and
    0 otherwise; and after seven turns for each of these code units and two
    more the call has finished and exactly that has happened.  A string of 802
    code units is transmitted from index 720 on; the empty string transmits
    nothing and has finished after two turns. *)
Theorem print_transmits :
  (forall config str sched,
     let n := (List.length str / 80)%nat in
     let start := if (1 <? n)%nat then ((n - 1) * 80)%nat else 0%nat in
     let st := exec hw_ok sched (issue hw_ok [Plain.print (constructor config) str]) in
     let sent := characters (skipn start str) ++ [Immediate; Release; Resolve] in
     (exists rest, events st ++ rest = sent) /\
     ((7 * (List.length str - start) + 2 <= List.length sched)%nat ->
      finished st /\ events st = sent)) /\
  (forall config str sched,
     List.length str = 802%nat ->
     (576 <= List.length sched)%nat ->
     let st := exec hw_ok sched (issue hw_ok [Plain.print (constructor config) str]) in
     finished st /\
     events st = characters (skipn 720 str) ++ [Immediate; Release; Resolve]) /\
  (forall config sched,
     (2 <= List.length sched)%nat ->
     let st := exec hw_ok sched (issue hw_ok [Plain.print (constructor config) []]) in
     finished st /\ events st = [Immediate; Release; Resolve]).
Proof.
  split; [| split].
  - intros config str sched n start.
    exact (print_alone (constructor config) str sched (constructor_wired config)).
  - intros config str sched Hlen Hsched.
    destruct (print_alone (constructor config) str sched (constructor_wired config))
      as [_ Hdone].
    rewrite Hlen in Hdone. apply Hdone. cbn. lia.
  - intros config sched Hsched.
    destruct (print_alone (constructor config) [] sched (constructor_wired config))
      as [_ Hdone].
    apply Hdone. cbn. lia.
Qed.

(** ** C7 *)





(** ** Calls that release in their last turn *)

Lemma calm_bind b p f : calm b p -> (forall v, calm b (f v)) -> calm b (bind p f).
Proof.
  intros Hp Hf. induction p as [v | err | ev k IH | evs k IH]; cbn [bind calm] in *.
  - apply Hf.
  - exact Hp.
  - destruct Hp as [Hev Hk]. split; [exact Hev | apply IH, Hk].
  - exact Hp.
Qed.

Lemma calm_try_catch b p h : calm b p -> calm b (try_catch p h).
Proof.
  intros Hp. induction p as [v | err | ev k IH | evs k IH]; cbn [try_catch calm] in *.
  - exact I.
  - destruct Hp.
  - destruct Hp as [Hev Hk]. split; [exact Hev | apply IH, Hk].
  - exact Hp.
Qed.

Lemma owned_bind b p f : owned b p -> (forall v, calm b (f v)) -> owned b (bind p f).
Proof.
  intros Hp Hf. induction p as [v | err | ev k IH | evs k IH]; cbn [bind owned] in *.
  - destruct Hp.
  - exact Hp.
  - destruct ev; try (apply IH, Hp). apply calm_bind; [exact Hp | exact Hf].
  - destruct Hp as [Hev Hk]. split; [exact Hev | apply IH, Hk].
Qed.

Lemma owned_after b p f : passes b p -> (forall v, owned b (f v)) -> owned b (bind p f).
Proof.
  intros Hp Hf. induction p as [v | err | ev k IH | evs k IH];
    cbn [bind owned passes] in *.
  - apply Hf.
  - exact Hp.
  - destruct Hp as [Hev Hk]. destruct ev; try (apply IH, Hk). discriminate Hev.
  - destruct Hp as [Hev Hk]. split; [exact Hev | apply IH, Hk].
Qed.

Lemma owned_try_catch b p h : owned b p -> owned b (try_catch p h).
Proof.
  intros Hp. induction p as [v | err | ev k IH | evs k IH]; cbn [try_catch owned] in *.
  - exact Hp.
  - destruct Hp.
  - destruct ev; try (apply IH, Hp). apply calm_try_catch, Hp.
  - destruct Hp as [Hev Hk]. split; [exact Hev | apply IH, Hk].
Qed.

Lemma segment_calm b p : forall n seg q n',
  calm b p -> segment (steady b) n p = (seg, q, n') ->
  q = None /\ release_free seg.
Proof.
  induction p as [v | err | ev k IH | evs k IH]; intros n seg q n' Hp Hseg;
    cbn [segment calm] in *.
  - injection Hseg as <- <- <-. split; reflexivity.
  - destruct Hp.
  - destruct Hp as [Hev Hk].
    pose proof (settle_steady b [ev] n) as Hs.
    destruct (settle (steady b) n [ev]) as [ok n1]. cbn [fst] in Hs. rewrite <- Hs in Hk.
    destruct (segment (steady b) n1 (k ok)) as [[seg1 q1] n2] eqn:Hs1.
    injection Hseg as <- <- <-.
    destruct (IH ok _ _ _ _ Hk Hs1) as [-> Hfree]. split; [reflexivity |].
    destruct ev; try exact Hfree. discriminate Hev.
  - destruct Hp.
Qed.

Lemma segment_owned b p : forall n seg q n',
  owned b p -> segment (steady b) n p = (seg, q, n') ->
  (release_free seg /\ exists q', q = Some q' /\ owned b q') \/
  (q = None /\ exists s2, after_release seg = Some s2 /\ release_free s2).
Proof.
  induction p as [v | err | ev k IH | evs k IH]; intros n seg q n' Hp Hseg;
    cbn [segment owned] in *.
  - destruct Hp.
  - destruct Hp.
  - pose proof (settle_steady b [ev] n) as Hs.
    destruct (settle (steady b) n [ev]) as [ok n1]. cbn [fst] in Hs. rewrite <- Hs in Hp.
    destruct (segment (steady b) n1 (k ok)) as [[seg1 q1] n2] eqn:Hs1.
    injection Hseg as <- <- <-.
    destruct ev; try (exact (IH ok _ _ _ _ Hp Hs1)).
    destruct (segment_calm b (k ok) _ _ _ _ Hp Hs1) as [-> Hfree].
    right. split; [reflexivity |]. exists seg1. split; [reflexivity | exact Hfree].
  - destruct Hp as [Hev Hk].
    pose proof (settle_steady b evs n) as Hs.
    destruct (settle (steady b) n evs) as [ok n1]. cbn [fst] in Hs. rewrite <- Hs in Hk.
    injection Hseg as <- <- <-.
    left. split; [exact Hev |]. exists (k ok). split; [reflexivity | exact Hk].
Qed.

Lemma pending_duty_app b l1 l2 :
  pending_duty b (l1 ++ l2) = (pending_duty b l1 + pending_duty b l2)%nat.
Proof. unfold pending_duty. rewrite map_app, list_sum_app. reflexivity. Qed.

Lemma pending_duty_perm b l1 l2 :
  Permutation l1 l2 -> pending_duty b l1 = pending_duty b l2.
Proof.
  unfold pending_duty, list_sum. induction 1; cbn [map fold_right]; lia.
Qed.

Lemma pending_duty_next b i p n seg q n' :
  segment (steady b) n p = (seg, q, n') ->
  pending_duty b (next_of i q) = turns b p.
Proof.
  intros Hs. rewrite (segment_turns b p _ _ _ _ Hs).
  destruct q; cbn; lia.
Qed.

Section Turns.

Variable P : Tid -> Event -> bool.
Variable b : bool.

Lemma start_spawn i t : forall st,
  guarded P b i t ->
  start (steady b) i t st = resume (steady b) i (main t) (spawn (steady b) i t st).
Proof.
  induction t as [p | fn IH | child rest IH]; intros st Hg; cbn [guarded] in Hg.
  - reflexivity.
  - destruct Hg.
  - cbn [start main spawn]. apply IH. apply Hg.
Qed.

(** Starting the detached calls of a task adds bystanders and nothing
    else. *)
Lemma spawn_spec i t : forall st,
  guarded P b i t ->
  exists kids,
    pending (spawn (steady b) i t st) = pending st ++ kids /\
    queue (spawn (steady b) i t st) = queue st /\
    Forall (bystander P b) kids /\
    pending_duty b kids = side_turns b t /\
    observe P (log (spawn (steady b) i t st)) = observe P (log st).
Proof.
  induction t as [p | fn IH | child rest IH]; intros st Hg; cbn [guarded] in Hg.
  - exists []. cbn [spawn side_turns]. rewrite app_nil_r. repeat split. constructor.
  - destruct Hg.
  - destruct Hg as (Hquiet & Hfree & Hg). cbn [spawn side_turns].
    destruct (segment (steady b) (writes st) child) as [[seg q] n] eqn:Hs.
    pose proof (segment_trace b child _ _ _ _ Hs) as Ht.
    rewrite Ht in Hquiet, Hfree.
    apply filter_nil_app in Hquiet. destruct Hquiet as [Hq1 Hq2].
    apply release_free_app in Hfree. destruct Hfree as [Hf1 Hf2].
    destruct (resume_quiet b (Detached i) child st seg q n Hs (or_introl Hf1)) as [Hp Hq].
    pose proof (resume_log b (Detached i) child st seg q n Hs) as Hl.
    destruct (IH (resume (steady b) (Detached i) child st) Hg)
      as (kids & Hp' & Hq' & Hby & Hd & Ho).
    exists (next_of (Detached i) q ++ kids).
    rewrite Hp', Hq', Ho, Hp, Hq, Hl, <- app_assoc.
    repeat split.
    + apply Forall_app. split; [| exact Hby].
      destruct q as [q |]; cbn [next_of]; constructor; [| constructor].
      split; [exact I | split; assumption].
    + rewrite pending_duty_app, (pending_duty_next b _ _ _ _ _ _ Hs), Hd. reflexivity.
    + rewrite observe_app, observe_tag, (observed_nil _ _ _ Hq1). apply app_nil_r.
Qed.

(** The holder of the lock takes a turn. *)
Lemma resume_owned st i p others :
  Permutation (pending st) others ->
  Forall (bystander P b) others ->
  owned b p ->
  Forall (fun w => guarded P b (fst w) (snd w)) (queue st) ->
  exists F',
    Turnwise P b (resume (steady b) i p st) F' /\
    observe P (log (resume (steady b) i p st)) ++ F' =
    observe P (log st) ++ observed P i (trace_of (steady b) p)
                       ++ waiting_future P b (queue st) /\
    duty b (resume (steady b) i p st) = (turns b p + duty b st)%nat.
Proof.
  intros Hperm Hby Hown Hwait.
  destruct (segment (steady b) (writes st) p) as [[seg q] n] eqn:Hs.
  pose proof (segment_trace b p _ _ _ _ Hs) as Ht.
  pose proof (pending_duty_next b i p _ _ _ _ Hs) as Hduty.
  assert (Hlog : observe P (log (resume (steady b) i p st)) =
                 observe P (log st) ++ observed P i seg).
  { rewrite (resume_log b i p st seg q n Hs), observe_app, observe_tag. reflexivity. }
  rewrite Ht, observed_app.
  destruct (segment_owned b p _ _ _ _ Hown Hs)
    as [(Hfree & q' & -> & Hq') | (-> & s2 & Hrel & Hfree)].
  - (* the turn ends at a suspension *)
    destruct (resume_quiet b i p st seg (Some q') n Hs (or_introl Hfree)) as [Hp Hq].
    exists (observed P i (trace_of (steady b) q') ++ waiting_future P b (queue st)).
    split; [| split; [rewrite Hlog, <- !app_assoc; reflexivity |]].
    + exists (Some (i, Resume q')), others. rewrite Hp, Hq.
      refine (conj _ (conj Hby (conj Hq' (conj Hwait eq_refl)))).
      rewrite Hperm. cbn [next_of option_list app].
      apply Permutation_sym, Permutation_cons_append.
    + unfold duty. rewrite Hp, Hq, pending_duty_app, Hduty. lia.
  - (* the turn releases and ends the call *)
    cbn [observed tag filter map app].
    destruct (queue st) as [| [j t] ws] eqn:Hqueue.
    + destruct (resume_quiet b i p st seg None n Hs (or_intror Hqueue)) as [Hp Hq].
      exists []. split; [| split].
      * exists None, others. rewrite Hp, Hq, Hqueue. cbn [next_of]. rewrite app_nil_r.
        refine (conj Hperm (conj Hby (conj eq_refl (conj (Forall_nil _) eq_refl)))).
      * rewrite Hlog, !app_nil_r. reflexivity.
      * unfold duty. rewrite Hp, Hq, Hqueue, pending_duty_app, Hduty. lia.
    + destruct (resume_handover b i p st seg None n s2 j t ws Hs Hrel Hfree Hqueue)
        as [Hp Hq].
      apply Forall_cons_iff in Hwait. destruct Hwait as [Hg Hws]. cbn [fst snd] in Hg.
      exists (observed P j (trace_of (steady b) (main t)) ++ waiting_future P b ws).
      split; [| split].
      * exists (Some (j, Start t)), others. rewrite Hp, Hq. cbn [next_of]. rewrite app_nil_r.
        refine (conj _ (conj Hby (conj Hg (conj Hws eq_refl)))).
        rewrite Hperm. cbn [option_list app].
        apply Permutation_sym, Permutation_cons_append.
      * rewrite Hlog, <- !app_assoc. cbn [waiting_future map List.concat fst snd app].
        reflexivity.
      * unfold duty. rewrite Hp, Hq, Hqueue, !pending_duty_app, Hduty.
        unfold queue_duty, pending_duty, list_sum.
        cbn [map fold_right snd duty_of next_of]. lia.
Qed.

Lemma resume_idler st i p o others :
  Permutation (pending st) (option_list o ++ others) ->
  Forall (bystander P b) others ->
  filter (P i) (trace_of (steady b) p) = [] ->
  release_free (trace_of (steady b) p) ->
  Permutation (pending (resume (steady b) i p st))
              (option_list o ++ others ++ next_of i
                 (snd (fst (segment (steady b) (writes st) p)))) /\
  Forall (bystander P b)
         (others ++ next_of i (snd (fst (segment (steady b) (writes st) p)))) /\
  queue (resume (steady b) i p st) = queue st /\
  observe P (log (resume (steady b) i p st)) = observe P (log st) /\
  duty b (resume (steady b) i p st) = (turns b p + duty b st)%nat.
Proof.
  intros Hperm Hby Hquiet Hfree.
  destruct (segment (steady b) (writes st) p) as [[seg q] n] eqn:Hs. cbn [fst snd].
  pose proof (segment_trace b p _ _ _ _ Hs) as Ht.
  rewrite Ht in Hquiet, Hfree.
  apply filter_nil_app in Hquiet. destruct Hquiet as [Hq1 Hq2].
  apply release_free_app in Hfree. destruct Hfree as [Hf1 Hf2].
  destruct (resume_quiet b i p st seg q n Hs (or_introl Hf1)) as [Hp Hq].
  rewrite Hp, Hq. repeat split.
  - rewrite app_assoc. apply Permutation_app_tail. exact Hperm.
  - apply Forall_app. split; [exact Hby |].
    destruct q as [q |]; cbn [next_of]; constructor; [| constructor].
    split; [exact I | split; assumption].
  - rewrite (resume_log b i p st seg q n Hs), observe_app, observe_tag,
      (observed_nil _ _ _ Hq1). apply app_nil_r.
  - unfold duty. rewrite Hp, Hq, pending_duty_app, (pending_duty_next b i p _ _ _ _ Hs). lia.
Qed.

Lemma step_turnwise st F s :
  Turnwise P b st F -> pending st <> [] ->
  exists F',
    Turnwise P b (step (steady b) st s) F' /\
    observe P (log (step (steady b) st s)) ++ F' = observe P (log st) ++ F /\
    S (duty b (step (steady b) st s)) = duty b st.
Proof.
  intros (o & others & Hperm & Hby & Hown & Hwait & HF) Hne.
  unfold step.
  assert (Hlt : (s mod List.length (pending st) < List.length (pending st))%nat).
  { apply Nat.mod_upper_bound. destruct (pending st); [congruence | discriminate]. }
  destruct (pick_some _ _ Hlt) as ([i c] & rest & Hpick). rewrite Hpick.
  pose proof (pick_perm _ _ _ _ Hpick) as Hpr.
  set (st0 := {| pending := rest; held := held st; queue := queue st;
                 log := log st; writes := writes st |}).
  assert (Hload : duty b st = (duty_of b c + duty b st0)%nat).
  { unfold duty. rewrite (pending_duty_perm b _ _ Hpr).
    unfold pending_duty, list_sum. cbn [st0 pending queue map fold_right snd]. lia. }
  assert (Hall : Permutation ((i, c) :: rest) (option_list o ++ others))
    by (rewrite <- Hpr; exact Hperm).
  assert (Hin : In (i, c) (option_list o ++ others))
    by (apply (Permutation_in _ Hall); left; reflexivity).
  apply in_app_or in Hin. destruct Hin as [Hin | Hin].
  - (* the holder of the lock goes on *)
    destruct o as [c0 |]; [| contradiction]. destruct Hin as [-> | []].
    cbn [option_list app] in Hall. apply Permutation_cons_inv in Hall.
    unfold holds_lock in Hown. cbn [fst snd] in Hown, HF.
    assert (Hgo : exists st1 kids p,
              match c with
              | Start t => start (steady b) i t st0
              | Resume p => resume (steady b) i p st0
              end = resume (steady b) i p st1 /\
              owned b p /\ plan b c = trace_of (steady b) p /\
              pending st1 = rest ++ kids /\ queue st1 = queue st /\
              Forall (bystander P b) kids /\
              (pending_duty b kids + S (turns b p) = duty_of b c)%nat /\
              observe P (log st1) = observe P (log st)).
    { destruct c as [t | p].
      - destruct (spawn_spec i t st0 Hown) as (kids & Hp & Hq & Hk & Hd & Ho).
        exists (spawn (steady b) i t st0), kids, (main t).
        rewrite (start_spawn i t st0 Hown).
        assert (Hmain : forall t', guarded P b i t' -> owned b (main t')).
        { induction t' as [p | fn IH | child r IH]; cbn [guarded main]; intros H;
            [exact H | destruct H | apply IH, H]. }
        repeat split; try assumption.
        + apply Hmain, Hown.
        + rewrite Hd. unfold duty_of, task_duty. lia.
      - exists st0, [], p. rewrite app_nil_r. repeat split; try assumption.
        constructor. }
    destruct Hgo as (st1 & kids & p & -> & Hp & Hplan & Hpend1 & Hq1 & Hkids & Hd & Ho).
    assert (Hperm1 : Permutation (pending st1) (others ++ kids))
      by (rewrite Hpend1; apply Permutation_app_tail; exact Hall).
    assert (Hby1 : Forall (bystander P b) (others ++ kids))
      by (apply Forall_app; split; assumption).
    rewrite <- Hq1 in Hwait.
    destruct (resume_owned st1 i p _ Hperm1 Hby1 Hp Hwait) as (F' & HT & Heq & Hduty).
    exists F'. split; [exact HT |]. split.
    + rewrite Heq, Ho, HF, Hplan, Hq1. reflexivity.
    + rewrite Hduty, Hload. unfold duty. rewrite Hpend1, Hq1, pending_duty_app.
      cbn [st0 pending queue]. lia.
  - (* a bystander goes on *)
    apply in_split in Hin. destruct Hin as (l1 & l2 & ->).
    rewrite app_assoc in Hall. apply Permutation_cons_app_inv in Hall.
    rewrite <- app_assoc in Hall.
    apply Forall_app in Hby. destruct Hby as [Hby1 Hby2].
    apply Forall_cons_iff in Hby2. destruct Hby2 as [(Hflat & Hquiet & Hfree) Hby2].
    cbn [fst snd] in Hflat, Hquiet, Hfree.
    destruct (flat_go (steady b) b i c st0 Hflat) as (p & Hup & Hwt & ->).
    rewrite Hup in Hquiet, Hfree.
    assert (Hby' : Forall (bystander P b) (l1 ++ l2))
      by (apply Forall_app; split; assumption).
    destruct (resume_idler st0 i p o (l1 ++ l2) Hall Hby' Hquiet Hfree)
      as (Hperm' & Hby'' & Hq' & Ho' & Hd').
    exists F. split; [| split].
    + exists o, ((l1 ++ l2) ++ next_of i (snd (fst (segment (steady b) (writes st0) p)))).
      rewrite Hq'. cbn [st0 queue].
      refine (conj Hperm' (conj Hby'' (conj Hown (conj Hwait HF)))).
    + rewrite Ho'. reflexivity.
    + rewrite Hd', Hload.
      assert (Hw : duty_of b c = S (turns b p)).
      { destruct c as [[p0 | fn | ch r] | p0]; try contradiction;
          unfold duty_of, task_duty; cbn [side_turns main]; cbn [weight] in Hwt; lia. }
      rewrite Hw. reflexivity.
Qed.

Lemma turnwise_idle st F :
  Turnwise P b st F -> pending st = [] -> finished st /\ F = [] /\ duty b st = 0%nat.
Proof.
  intros (o & others & Hperm & _ & Hown & _ & HF) Hp.
  rewrite Hp in Hperm. apply Permutation_nil in Hperm.
  apply app_eq_nil in Hperm. destruct Hperm as [Ho _].
  destruct o; [discriminate |].
  split; [split; assumption |]. split.
  - rewrite HF, Hown. reflexivity.
  - unfold duty. rewrite Hp, Hown. reflexivity.
Qed.

Lemma exec_turnwise sched : forall st F,
  Turnwise P b st F ->
  exists F',
    Turnwise P b (exec (steady b) sched st) F' /\
    observe P (log (exec (steady b) sched st)) ++ F' = observe P (log st) ++ F /\
    duty b (exec (steady b) sched st) = (duty b st - List.length sched)%nat.
Proof.
  induction sched as [| s sched IH]; intros st F HT.
  - exists F. split; [exact HT |]. split; [reflexivity |]. cbn [exec fold_left List.length]. lia.
  - change (exec (steady b) (s :: sched) st)
      with (exec (steady b) sched (step (steady b) st s)).
    destruct (pending st) as [| c l] eqn:Hp.
    + destruct (turnwise_idle st F HT Hp) as (_ & _ & H0).
      assert (Hstep : step (steady b) st s = st)
        by (unfold step; rewrite Hp; reflexivity).
      rewrite Hstep. destruct (IH st F HT) as (F' & HT' & Heq & Hd).
      exists F'. split; [exact HT' |]. split; [exact Heq |]. rewrite Hd, H0. reflexivity.
    + assert (Hne : pending st <> []) by (rewrite Hp; discriminate).
      destruct (step_turnwise st F s HT Hne) as (F1 & HT1 & Heq1 & Hd1).
      destruct (IH _ _ HT1) as (F' & HT' & Heq & Hd).
      exists F'. split; [exact HT' |]. split.
      * rewrite Heq, Heq1. reflexivity.
      * rewrite Hd. cbn [List.length]. lia.
Qed.

Lemma turnwise_done st F :
  Turnwise P b st F -> duty b st = 0%nat -> finished st /\ F = [].
Proof.
  intros HT H0.
  destruct (pending st) as [| [i c] l] eqn:Hp.
  - destruct (turnwise_idle st F HT Hp) as (Hf & HF & _). split; assumption.
  - exfalso. unfold duty in H0. rewrite Hp in H0.
    unfold pending_duty, list_sum in H0. cbn [map fold_right snd] in H0.
    destruct c as [t | p]; unfold duty_of, task_duty in H0; lia.
Qed.

End Turns.

(** ** C4 *)

Lemma passes_write this val : wired this -> passes true (Lcd.write this val).
Proof.
  intros Hw. unfold Lcd.write, Lcd.send. rewrite !(write4Bits_number _ Hw).
  cbn. repeat split.
Qed.

Lemma owned_eventOrCB_release err value event cb :
  owned true (Ts.eventOrCB err value event cb ;; release ;; Ret Undefined).
Proof. destruct cb, err; cbn; exact I. Qed.

Lemma owned_ts_printChar this str cb :
  wired this ->
  forall k index, (List.length str - index = k)%nat ->
  owned true (Ts.printChar this str index cb).
Proof.
  intros Hw. induction k as [| k IH]; intros index Hk; rewrite ts_printChar_eq.
  - assert (Hle : (List.length str <=? index)%nat = true) by (apply Nat.leb_le; lia).
    rewrite Hle. cbn [setImmediate bind owned].
    split; [reflexivity | apply owned_eventOrCB_release].
  - assert (Hgt : (List.length str <=? index)%nat = false) by (apply Nat.leb_gt; lia).
    rewrite Hgt. cbn [setImmediate bind owned].
    split; [reflexivity |].
    apply owned_try_catch, owned_after; [apply passes_write, Hw |]. intros _.
    apply owned_bind; [apply IH; lia |]. intros _. exact I.
Qed.

Lemma owned_ts_print_locked this str cb :
  wired this -> owned true (Ts.print_locked this str cb).
Proof.
  intros Hw. unfold Ts.print_locked. cbv zeta.
  apply owned_try_catch, owned_bind.
  - eapply owned_ts_printChar; [exact Hw | reflexivity].
  - intros _. cbn. repeat split.
Qed.

Lemma owned_ts_commandAndDelay_locked timeout event cb :
  owned true (Ts.commandAndDelay_locked timeout event cb).
Proof. destruct cb; cbn; repeat split. Qed.

Lemma ts_operation_lock this op cb :
  ts_operation this op cb = Lock (ts_locked this op cb).
Proof. destruct op; reflexivity. Qed.

Lemma guarded_ts_locked this op cb i :
  wired this -> guarded (fun _ => is_report) true i (ts_locked this op cb).
Proof.
  intros Hw. destruct op as [str | |]; cbn [ts_locked guarded].
  - apply owned_ts_print_locked, Hw.
  - fold hw_ok. rewrite (tryCommand_ok _ _ _ Hw).
    split; [apply command_frame_no_report |].
    split; [apply command_frame_release_free | apply owned_ts_commandAndDelay_locked].
  - fold hw_ok. rewrite (tryCommand_ok _ _ _ Hw).
    split; [apply command_frame_no_report |].
    split; [apply command_frame_release_free | apply owned_ts_commandAndDelay_locked].
Qed.

Lemma reports_ts_locked this op cb i :
  wired this ->
  observed (fun _ => is_report) i (trace_of (steady true) (main (ts_locked this op cb))) =
  [(i, success op cb); (i, Release); (i, Resolve)].
Proof.
  intros Hw. fold hw_ok. unfold observed.
  destruct op as [str | |]; cbn [ts_locked main success].
  - unfold trace_of. rewrite (ts_print_locked_ok _ Hw). cbn [fst snd].
    rewrite filter_app, characters_no_report.
    cbn [filter is_report app]. rewrite notification_is_report. reflexivity.
  - rewrite ts_commandAndDelay_locked_ok.
    cbn [filter is_report]. rewrite notification_is_report. reflexivity.
  - rewrite ts_commandAndDelay_locked_ok.
    cbn [filter is_report]. rewrite notification_is_report. reflexivity.
Qed.

Lemma issue_from_waiting hw this calls : forall n st,
  held st = true ->
  issue_from hw n (map (fun c => ts_operation this (fst c) (snd c)) calls) st =
  {| pending := pending st; held := true;
     queue := queue st ++ mapi_from n (fun c k => (Op k, ts_locked this (fst c) (snd c))) calls;
     log := log st; writes := writes st |}.
Proof.
  induction calls as [| c calls IH]; intros n st Hheld.
  - cbn [map issue_from mapi_from]. rewrite app_nil_r.
    destruct st as [p h q l w]. cbn [held] in Hheld. subst h. reflexivity.
  - cbn [map issue_from mapi_from]. rewrite ts_operation_lock.
    cbn [start]. unfold acquire. rewrite Hheld.
    rewrite IH by reflexivity. cbn [pending queue log writes].
    rewrite <- app_assoc. reflexivity.
Qed.

Lemma issue_ts hw this c calls :
  issue hw (map (fun c => ts_operation this (fst c) (snd c)) (c :: calls)) =
  {| pending := [(Op 0, Start (ts_locked this (fst c) (snd c)))]; held := true;
     queue := mapi_from 1 (fun c k => (Op k, ts_locked this (fst c) (snd c))) calls;
     log := []; writes := 0 |}.
Proof.
  unfold issue. cbn [map issue_from]. rewrite ts_operation_lock.
  cbn [start]. unfold acquire. cbn [held idle].
  rewrite issue_from_waiting by reflexivity. reflexivity.
Qed.

Lemma issue_turnwise this calls :
  wired this ->
  Turnwise (fun _ => is_report) true
    (issue hw_ok (map (fun c => ts_operation this (fst c) (snd c)) calls))
    (List.concat
       (mapi (fun c k => [(Op k, success (fst c) (snd c)); (Op k, Release); (Op k, Resolve)])
             calls)).
Proof.
  intros Hw. destruct calls as [| c calls].
  - exists None, []. repeat split; constructor.
  - rewrite issue_ts.
    exists (Some (Op 0, Start (ts_locked this (fst c) (snd c)))), [].
    refine (conj _ (conj (Forall_nil _) (conj _ (conj _ _)))).
    + reflexivity.
    + apply guarded_ts_locked, Hw.
    + cbn [queue]. generalize 1%nat.
      induction calls as [| c' calls IH]; intros n; cbn [mapi_from]; constructor.
      * apply guarded_ts_locked, Hw.
      * apply IH.
    + cbn [queue fst snd plan]. rewrite (reports_ts_locked _ _ _ _ Hw).
      unfold mapi. cbn [mapi_from List.concat app]. do 3 f_equal.
      generalize 1%nat.
      induction calls as [| c' calls IH]; intros n; [reflexivity |].
      unfold waiting_future in *. cbn [mapi_from map List.concat fst snd].
      rewrite (reports_ts_locked _ _ _ _ Hw), <- IH. reflexivity.
Qed.

(** C4, as the code has it.  In [lcd-ts.ts], any number of [print], [clear]
    and [home] calls made one after the other on one driver, each with or
    without a callback, on hardware whose pin writes succeed, under any order
    of the turns of the event loop.  What has been reported so far is an
    initial part of: for each call in the order of the calls, its success
    told to the caller through the callback (or the notification, when no
    callback is given), then the release of the lock, then the resolution of
    the promise.  Once the turns the calls need have been taken, all calls
    have finished and the reports are exactly that: each success is reported
    once, before the release and not after it; each promise is resolved once,
    after the release; no failure is reported. *)
Theorem completion_reported_once_before_release
    (config : LcdConfig) (calls : list (Mutating * bool)) (sched : list nat) :
  let this := constructor config in
  let st0 := issue hw_ok (map (fun c => ts_operation this (fst c) (snd c)) calls) in
  let st := exec hw_ok sched st0 in
  let expected :=
    List.concat
      (mapi (fun c k => [(Op k, success (fst c) (snd c)); (Op k, Release); (Op k, Resolve)])
            calls) in
  (exists rest, reports (log st) ++ rest = expected) /\
  ((duty true st0 <= List.length sched)%nat ->
   finished st /\ reports (log st) = expected).
Proof.
  intros this st0 st expected.
  assert (Hw : wired this) by apply constructor_wired.
  destruct (exec_turnwise _ true sched _ _ (issue_turnwise this calls Hw))
    as (F' & HT & Heq & Hd).
  fold hw_ok in HT, Heq, Hd. fold st0 in HT, Heq, Hd. fold st in HT, Heq, Hd.
  fold expected in Heq.
  assert (Hlog : observe (fun _ => is_report) (log st0) = []).
  { unfold st0. destruct calls as [| c calls]; [reflexivity |].
    rewrite issue_ts. reflexivity. }
  rewrite Hlog in Heq. cbn [app] in Heq. unfold reports.
  split; [exists F'; exact Heq |]. intros Hlen.
  destruct (turnwise_done _ true st F' HT ltac:(lia)) as [Hfin ->].
  rewrite app_nil_r in Heq. split; assumption.
Qed.

(** ** Commands under the lock, on any hardware *)

Lemma command_on_any_hardware this hw n cmd :
  wired this ->
  exists o t n',
    run hw n (Lcd.command this cmd) = (o, t, n') /\
    ((o = Ok Undefined /\ t = command_frame (Js.toInt32 cmd)) \/
     (o = Err PinFault /\
      exists rest, t ++ rest = command_frame (Js.toInt32 cmd) /\ rest <> [])).
Proof.
  intros Hw. unfold Lcd.command. rewrite run_bind.
  destruct (send_on_any_hardware this hw n cmd (Int 0) Hw) as (rest & Hrest & Hres).
  destruct (run hw n (Lcd.send this cmd (Int 0))) as [[o t] n1]. cbn [fst snd] in *.
  destruct o as [v | err].
  - destruct Hres as [-> ->]. rewrite app_nil_r in Hrest. subst t.
    cbn [run sleepus perform settle is_pin_write].
    eexists _, _, _. split; [reflexivity |]. left. split; reflexivity.
  - subst err. eexists _, _, _. split; [reflexivity |]. right. split; [reflexivity |].
    exists (rest ++ [Sleepus 39]). split.
    + unfold command_frame. rewrite app_assoc, Hrest. reflexivity.
    + intros H. apply app_eq_nil in H. destruct H as [_ H]. discriminate H.
Qed.

(** X14. [clear] and [home] of the plain file on any hardware
    ([commandAndDelay]).  Either the whole command is sent, the wait is made,
    the promise is resolved and then the lock released; or the command stops
    at the first pin write that fails, no wait is made, the promise is
    rejected and then the lock released.  In both cases the promise is
    settled once and the lock released once, as the last event. *)
Theorem commandAndDelay_on_any_hardware
    (this : Lcd) (hw : Hardware) (cmd : number) (timeout : Z) :
  wired this ->
  let t := trace_of hw (Plain.commandAndDelay_locked this cmd timeout) in
  t = command_frame (Js.toInt32 cmd) ++ [Delay timeout; Resolve; Release] \/
  exists part rest,
    part ++ rest = command_frame (Js.toInt32 cmd) /\ rest <> [] /\
    t = part ++ [Reject PinFault; Release].
Proof.
  intros Hw t. subst t. unfold trace_of, Plain.commandAndDelay_locked.
  rewrite run_bind, run_try_catch, run_bind.
  destruct (command_on_any_hardware this hw 0%nat cmd Hw) as (o & t & n1 & Hrun & Hcase).
  rewrite Hrun.
  destruct Hcase as [[-> ->] | [-> (rest & Hrest & Hne)]];
    cbn [run bind delay resolve reject release perform settle is_pin_write fst snd].
  - left. rewrite <- app_assoc. reflexivity.
  - right. exists t, rest. split; [exact Hrest |]. split; [exact Hne |].
    rewrite <- app_assoc. reflexivity.
Qed.

(** X15. [tryCommand] of [lcd-ts.ts] called with a callback, on any hardware,
    never throws.  It gives [true] when the whole command has been sent, and
    the callback has not been called; it gives [false] when the command has
    stopped at a pin write that failed, and then the callback has been called
    with the error exactly once, as the last event. *)
Theorem tryCommand_on_any_hardware (this : Lcd) (hw : Hardware) (cmd : number) :
  wired this ->
  let o := outcome_of hw (Ts.tryCommand this cmd true) in
  let t := trace_of hw (Ts.tryCommand this cmd true) in
  (o = Ok (Boolean true) /\ t = command_frame (Js.toInt32 cmd)) \/
  (o = Ok (Boolean false) /\
   exists part rest,
     part ++ rest = command_frame (Js.toInt32 cmd) /\ rest <> [] /\
     t = part ++ [Callback (AErr PinFault)]).
Proof.
  intros Hw o t. subst o t. unfold outcome_of, trace_of, Ts.tryCommand.
  rewrite run_try_catch, run_bind.
  destruct (command_on_any_hardware this hw 0%nat cmd Hw) as (o & t & n1 & Hrun & Hcase).
  rewrite Hrun.
  destruct Hcase as [[-> ->] | [-> (rest & Hrest & Hne)]].
  - left. cbn [run fst snd]. rewrite app_nil_r. split; reflexivity.
  - right. rewrite run_bind, eventOrCB_run. cbn [run fst snd notification].
    split; [reflexivity |].
    exists t, rest. split; [exact Hrest |]. split; [exact Hne |].
    rewrite app_nil_r. reflexivity.
Qed.

(** ** How much of a long string is printed *)

Lemma sent_length (str : JsString) :
  List.length (skipn (start_index (List.length str)) str) =
  if (List.length str <? 160)%nat then List.length str
  else (80 + List.length str mod 80)%nat.
Proof.
  rewrite length_skipn. unfold start_index. cbv zeta.
  pose proof (Nat.div_mod_eq (List.length str) 80) as Hdm.
  pose proof (Nat.mod_upper_bound (List.length str) 80 ltac:(lia)) as Hm.
  destruct (Nat.ltb_spec (List.length str) 160) as [Hlt | Hge];
    destruct (Nat.ltb_spec 1 (List.length str / 80)) as [H1 | H1]; lia.
Qed.

(** X16. The window of [print].  The display receives the whole string when
    it has fewer than 160 code units, and otherwise its last
    [80 + length mod 80] code units: never 160 bytes or more, and what is
    received is always the end of the string. *)
Theorem print_window (this : Lcd) (str : JsString) :
  wired this ->
  let got := received (trace_of hw_ok (Plain.print_locked this str)) in
  let n := if (List.length str <? 160)%nat then List.length str
           else (80 + List.length str mod 80)%nat in
  got = map (fun c => (true, c mod 256)) (skipn (List.length str - n) str) /\
  List.length got = n /\ (n < 160)%nat.
Proof.
  intros Hw got n. subst got. unfold trace_of, received.
  rewrite (print_locked_ok _ Hw). cbn [fst snd].
  rewrite latched_characters, paired_nibbles by (intros l'; reflexivity).
  pose proof (sent_length str) as Hlen. fold n in Hlen.
  pose proof (start_index_le (List.length str)) as Hle.
  rewrite length_skipn in Hlen.
  assert (Hstart : (List.length str - n = start_index (List.length str))%nat) by lia.
  rewrite Hstart.
  split; [reflexivity |]. split.
  - rewrite length_map, length_skipn. lia.
  - subst n. destruct (Nat.ltb_spec (List.length str) 160) as [Hlt | Hge]; [exact Hlt |].
    pose proof (Nat.mod_upper_bound (List.length str) 80 ltac:(lia)). lia.
Qed.

(** ** Instructions as the controller receives them *)

Lemma received_command v : received (command_frame v) = [(false, v mod 256)].
Proof.
  unfold received, command_frame.
  rewrite latched_app, latched_byte. cbn [latched app paired level Z.eqb negb].
  rewrite byte_value. reflexivity.
Qed.

Lemma after_snoc ops t this : after (ops ++ [t]) this = fst (toggle t (after ops this)).
Proof. unfold after. rewrite fold_left_app. reflexivity. Qed.

Lemma control_byte_small f : 0 <= control_byte f < 16 /\ 0 <= mode_byte f < 16.
Proof. destruct f as [[] [] [] [] []]; cbn; lia. Qed.

(** X17. A toggle as the controller receives it: after any sequence of
    toggles, the next toggle puts exactly one instruction byte on the bus --
    "display on/off control" with the display, cursor and blink settings
    asked for last, or "entry mode set" with the direction and autoscroll
    settings asked for last. *)
Theorem toggle_received (config : LcdConfig) (ops : list Toggle) (t : Toggle) :
  received (trace_of hw_ok (snd (toggle t (after ops (constructor config))))) =
  [(false,
    match t with
    | Display | NoDisplay | Cursor | NoCursor | Blink | NoBlink =>
        control_byte (switched (ops ++ [t]))
    | LeftToRight | RightToLeft | Autoscroll | NoAutoscroll =>
        mode_byte (switched (ops ++ [t]))
    end)].
Proof.
  rewrite toggle_sends, <- after_snoc.
  destruct (after_sane (ops ++ [t]) _ (constructor_sane config)) as [Hw _].
  destruct (after_holds (ops ++ [t]) power_on (constructor config) (constructor_holds config))
    as [Hc Hm].
  fold (switched (ops ++ [t])) in Hc, Hm.
  destruct (control_byte_small (switched (ops ++ [t]))) as [Hcs Hms].
  unfold trace_of. rewrite (command_ok _ Hw). cbn [fst snd].
  destruct t; cbn [register]; rewrite ?Hc, ?Hm, byte_frame_command, received_command,
    Z.mod_small by lia; reflexivity.
Qed.

(** X18. [init] as the controller receives it, on every driver state
    reached from the constructor.  The four wake-up nibbles 3, 3, 3, 2 are
    latched with register select at whatever level the last byte sent has
    left it, since [init] does not drive that line, and the nibbles after
    them pair into the instructions function set (with the
    two-line or the large-font bit), 0x10, display control and entry mode
    with the current settings, and clear display. *)
Theorem init_received (config : LcdConfig) (ops : list Toggle) (l : Lines) :
  let this := after ops (constructor config) in
  let functionSet :=
    0x20 + (if rows this >? 1 then 0x08 else 0)
         + (if (rows this =? 1) && largeFont this then 0x04 else 0) in
  let nibbles := latched l (trace_of hw_ok (Lcd.init this)) in
  firstn 4 nibbles = [(line_rs l, 3); (line_rs l, 3); (line_rs l, 3); (line_rs l, 2)] /\
  paired (skipn 4 nibbles) =
  [(false, functionSet); (false, 0x10);
   (false, control_byte (switched ops)); (false, mode_byte (switched ops));
   (false, 0x01)].
Proof.
  intros this functionSet nibbles. subst nibbles functionSet.
  destruct (after_sane ops _ (constructor_sane config)) as [Hw _]. fold this in Hw.
  destruct (after_holds ops power_on (constructor config) (constructor_holds config))
    as [Hc Hm].
  fold (switched ops) in Hc, Hm. fold this in Hc, Hm.
  unfold trace_of. rewrite (init_ok _ 0%nat Hw). cbn [fst snd].
  unfold init_frame, Lcd.displayFunction. rewrite Hc, Hm.
  destruct l as [r e d].
  destruct (rows this >? 1), ((rows this =? 1) && largeFont this),
           (switched ops) as [[] [] [] [] []], e;
    split; vm_compute; reflexivity.
Qed.

(** ** Bus discipline *)

Lemma disciplined_app t1 : forall l t2,
  disciplined l (t1 ++ t2) = disciplined l t1 && disciplined (lines_after l t1) t2.
Proof.
  induction t1 as [| ev t1 IH]; intros l t2; [reflexivity |].
  destruct ev; cbn [app disciplined lines_after fold_left]; try apply IH;
    fold (lines_after (drive l g v) t1); rewrite IH, andb_assoc; reflexivity.
Qed.

Lemma byte_disciplined l mode v tail :
  line_e l = false ->
  (forall l', disciplined l' tail = true /\ lines_after l' tail = l') ->
  disciplined l (byte_frame mode v ++ tail) = true /\
  line_e (lines_after l (byte_frame mode v ++ tail)) = false.
Proof.
  intros He Htail. rewrite disciplined_app, lines_after_app.
  destruct (Htail (lines_after l (byte_frame mode v))) as [Hd Hl]. rewrite Hd, Hl.
  destruct l as [r e d]. cbn [line_e] in He. subst e. split; reflexivity.
Qed.

Lemma quiet_tail (tail : list Event) :
  existsb is_pin_write tail = false ->
  forall l', disciplined l' tail = true /\ lines_after l' tail = l'.
Proof.
  induction tail as [| ev tail IH]; intros Hq l'; [split; reflexivity |].
  cbn [existsb] in Hq. apply orb_false_iff in Hq. destruct Hq as [Hev Hq].
  destruct ev; try discriminate Hev; apply (IH Hq).
Qed.

Lemma kept_app l t1 t2 :
  disciplined l t1 = true /\ line_e (lines_after l t1) = false ->
  (forall l', line_e l' = false ->
              disciplined l' t2 = true /\ line_e (lines_after l' t2) = false) ->
  disciplined l (t1 ++ t2) = true /\ line_e (lines_after l (t1 ++ t2)) = false.
Proof.
  intros [Hd He] H2. rewrite disciplined_app, lines_after_app, Hd.
  exact (H2 _ He).
Qed.

Lemma characters_disciplined cs tail :
  existsb is_pin_write tail = false ->
  forall l,
  line_e l = false ->
  disciplined l (characters cs ++ tail) = true /\
  line_e (lines_after l (characters cs ++ tail)) = false.
Proof.
  intros Hq. induction cs as [| c cs IH]; intros l He.
  - destruct (quiet_tail tail Hq l) as [Hd Hl]. cbn [characters flat_map app].
    rewrite Hd, Hl. split; [reflexivity | exact He].
  - change (characters (c :: cs) ++ tail)
      with ((Immediate :: byte_frame (Int 1) c ++ [Sleepus 43]) ++ characters cs ++ tail).
    apply kept_app; [| exact IH].
    change (disciplined l (byte_frame (Int 1) c ++ [Sleepus 43]) = true /\
            line_e (lines_after l (byte_frame (Int 1) c ++ [Sleepus 43])) = false).
    apply byte_disciplined; [exact He | apply quiet_tail; reflexivity].
Qed.

(** X19. Bus discipline on healthy hardware.  Starting with enable low,
    every operation -- [init], any command (so [setCursor], the toggles and
    the scroll commands), and [print], [clear] and [home] -- writes register
    select only while enable is low and the data lines only while enable is
    high, and leaves enable low for the next operation. *)
Theorem bus_discipline (this : Lcd) (l : Lines) :
  wired this ->
  line_e l = false ->
  let kept := fun t => disciplined l t = true /\ line_e (lines_after l t) = false in
  kept (trace_of hw_ok (Lcd.init this)) /\
  (forall cmd, kept (trace_of hw_ok (Lcd.command this cmd))) /\
  (forall op, kept (trace_of hw_ok (plain_locked this op))).
Proof.
  intros Hw He kept. subst kept. cbv beta.
  assert (Hcmd : forall v tail,
            existsb is_pin_write tail = false ->
            disciplined l (command_frame v ++ tail) = true /\
            line_e (lines_after l (command_frame v ++ tail)) = false).
  { intros v tail Hq. unfold command_frame. rewrite <- app_assoc.
    apply byte_disciplined; [exact He |]. apply quiet_tail. exact Hq. }
  split; [| split].
  - unfold trace_of. rewrite (init_ok _ 0%nat Hw). cbn [fst snd].
    destruct l as [r e d]. cbn [line_e] in He. subst e. split; reflexivity.
  - intros cmd. unfold trace_of. rewrite (command_ok _ Hw). cbn [fst snd].
    rewrite <- (app_nil_r (command_frame _)). apply Hcmd. reflexivity.
  - intros [str | |]; cbn [plain_locked].
    + unfold trace_of. rewrite (print_locked_ok _ Hw). cbn [fst snd].
      apply characters_disciplined; [reflexivity | exact He].
    + rewrite (plain_commandAndDelay_ok _ _ _ Hw). apply Hcmd. reflexivity.
    + rewrite (plain_commandAndDelay_ok _ _ _ Hw). apply Hcmd. reflexivity.
Qed.

(** ** Instances *)

(** A nibble whose second data-line write fails: enable stays high. *)
Lemma write4Bits_on_any_hardware_witness :
  wired (constructor (sample_config 4)) /\
  run (fun n : nat => negb (Nat.eqb n 2)) 0
      (Lcd.write4Bits (constructor (sample_config 4)) (Num (Int 5))) =
  (Err PinFault,
   [Write E (Int 1);
    Write (D 0) (Int 1); Write (D 1) (Int 0); Write (D 2) (Int 1); Write (D 3) (Int 0)],
   5%nat).
Proof.
  exact (conj eq_refl
           (write4Bits_on_any_hardware (constructor (sample_config 4))
              (fun n : nat => negb (Nat.eqb n 2)) 0%nat (Int 5) eq_refl)).
Defined.

Lemma command_stops_at_fault_witness :
  wired (constructor (sample_config 4)) /\
  exists rest,
    trace_of hw_dead (Lcd.command (constructor (sample_config 4)) (Int 1)) ++ rest =
    command_frame (Js.toInt32 (Int 1)) /\
    match outcome_of hw_dead (Lcd.command (constructor (sample_config 4)) (Int 1)) with
    | Ok _ => rest = []
    | Err err =>
        err = PinFault /\
        ~ In (Sleepus 39)
             (trace_of hw_dead (Lcd.command (constructor (sample_config 4)) (Int 1)))
    end.
Proof.
  exact (conj eq_refl
           (command_stops_at_fault (constructor (sample_config 4)) hw_dead (Int 1) eq_refl)).
Defined.

Lemma init_stops_at_fault_witness :
  wired (constructor (sample_config 4)) /\
  exists rest,
    trace_of hw_dead (Lcd.init (constructor (sample_config 4))) ++ rest =
    init_frame (constructor (sample_config 4)) /\
    match outcome_of hw_dead (Lcd.init (constructor (sample_config 4))) with
    | Ok _ => rest = []
    | Err err => err = PinFault
    end.
Proof.
  exact (conj eq_refl
           (init_stops_at_fault (constructor (sample_config 4)) hw_dead eq_refl)).
Defined.

Lemma ready_only_after_successful_init_witness :
  wired (constructor (sample_config 4)) /\
  match outcome_of hw_dead (Ts.init (constructor (sample_config 4))) with
  | Ok _ =>
      trace_of hw_dead (Ts.init (constructor (sample_config 4))) =
      init_frame (constructor (sample_config 4)) ++ [Emit "ready" (AVal Undefined)]
  | Err err =>
      err = PinFault /\
      forall a, ~ In (Emit "ready" a)
                     (trace_of hw_dead (Ts.init (constructor (sample_config 4))))
  end.
Proof.
  exact (conj eq_refl
           (ready_only_after_successful_init (constructor (sample_config 4)) hw_dead eq_refl)).
Defined.

(** Column 5 of row 1: address 0x45. *)
Lemma setCursor_address_witness :
  wired (constructor (sample_config 4)) /\
  0 <= row_used (constructor (sample_config 4)) 1 <= 3 /\
  0 <= 5 /\
  5 + nth (Z.to_nat (row_used (constructor (sample_config 4)) 1)) ROW_OFFSETS 0 < 128 /\
  run hw_ok 0 (Plain.setCursor (constructor (sample_config 4)) (Int 5) 1) =
  (Ok Undefined,
   command_frame
     (0x80 + (5 + nth (Z.to_nat (row_used (constructor (sample_config 4)) 1)) ROW_OFFSETS 0)),
   13%nat).
Proof.
  assert (Hrow : 0 <= row_used (constructor (sample_config 4)) 1 <= 3)
    by (vm_compute; split; discriminate).
  assert (Hcol : 0 <= 5) by lia.
  assert (Haddr : 5 + nth (Z.to_nat (row_used (constructor (sample_config 4)) 1))
                          ROW_OFFSETS 0 < 128)
    by (vm_compute; reflexivity).
  exact (conj eq_refl (conj Hrow (conj Hcol (conj Haddr
           (setCursor_address (constructor (sample_config 4)) 5 1 eq_refl Hrow Hcol Haddr))))).
Defined.

(** Row 4 of a four-row display. *)
Lemma setCursor_off_table_witness :
  wired (constructor (sample_config 4)) /\
  (row_used (constructor (sample_config 4)) 4 < 0 \/
   3 < row_used (constructor (sample_config 4)) 4) /\
  run hw_ok 0 (Plain.setCursor (constructor (sample_config 4)) (Int 7) 4) =
  (Ok Undefined, command_frame 0x80, 13%nat).
Proof.
  assert (Hrow : row_used (constructor (sample_config 4)) 4 < 0 \/
                 3 < row_used (constructor (sample_config 4)) 4)
    by (right; vm_compute; reflexivity).
  exact (conj eq_refl (conj Hrow
           (setCursor_off_table (constructor (sample_config 4)) (Int 7) 4 eq_refl Hrow))).
Defined.

Lemma byte_received_witness :
  wired (constructor (sample_config 4)) /\
  received (trace_of hw_ok (Lcd.command (constructor (sample_config 4)) (Int 0x263A))) =
    [(false, 0x263A mod 256)] /\
  received (trace_of hw_ok (Lcd.write (constructor (sample_config 4)) (Int 0x263A))) =
    [(true, 0x263A mod 256)].
Proof.
  exact (conj eq_refl (byte_received (constructor (sample_config 4)) 0x263A eq_refl)).
Defined.

Lemma print_received_witness :
  wired (constructor (sample_config 4)) /\
  let sent := skipn (start_index (List.length [0x48; 0x69])) [0x48; 0x69] in
  received (trace_of hw_ok (Plain.print_locked (constructor (sample_config 4)) [0x48; 0x69])) =
    map (fun c => (true, c mod 256)) sent /\
  received (trace_of hw_ok (Ts.print_locked (constructor (sample_config 4)) [0x48; 0x69] true)) =
    map (fun c => (true, c mod 256)) sent.
Proof.
  exact (conj eq_refl
           (print_received (constructor (sample_config 4)) [0x48; 0x69] true eq_refl)).
Defined.

(** A print of two code units that fails at the second. *)
Lemma print_on_any_hardware_witness :
  wired (constructor (sample_config 4)) /\
  let sent := skipn (start_index (List.length [0x41; 0x42])) [0x41; 0x42] in
  let t := trace_of (fun n : nat => (n <? 13)%nat)
                    (Plain.print_locked (constructor (sample_config 4)) [0x41; 0x42]) in
  t = characters sent ++ [Immediate; Release; Resolve] \/
  exists j part,
    stopped sent j part /\
    t = characters (firstn j sent) ++ Immediate :: part
        ++ repeat Release (S j) ++ [Reject PinFault].
Proof.
  exact (conj eq_refl
           (print_on_any_hardware (constructor (sample_config 4))
              (fun n : nat => (n <? 13)%nat) [0x41; 0x42] eq_refl)).
Defined.

Lemma ts_print_on_any_hardware_witness :
  wired (constructor (sample_config 4)) /\
  let sent := skipn (start_index (List.length [0x41; 0x42])) [0x41; 0x42] in
  let t := trace_of (fun n : nat => (n <? 13)%nat)
                    (Ts.print_locked (constructor (sample_config 4)) [0x41; 0x42] true) in
  t = characters sent
      ++ [Immediate; Callback (AVal (Str [0x41; 0x42])); Release; Resolve] \/
  exists j part,
    stopped sent j part /\
    t = characters (firstn j sent) ++ Immediate :: part
        ++ List.concat (repeat [Callback (AErr PinFault); Release] (S j))
        ++ [Reject PinFault].
Proof.
  exact (conj eq_refl
           (ts_print_on_any_hardware (constructor (sample_config 4))
              (fun n : nat => (n <? 13)%nat) [0x41; 0x42] eq_refl)).
Defined.

(** One [clear] has finished after eleven turns. *)
Lemma locked_operations_finish_witness :
  (load true (issue (steady true)
                (map (plain_operation (constructor (sample_config 4))) [Clear]))
   <= List.length (repeat 0%nat 11))%nat /\
  finished (exec (steady true) (repeat 0%nat 11)
              (issue (steady true)
                 (map (plain_operation (constructor (sample_config 4))) [Clear]))).
Proof.
  assert (Hlen : (load true
                    (issue (steady true)
                       (map (plain_operation (constructor (sample_config 4))) [Clear]))
                  <= List.length (repeat 0%nat 11))%nat)
    by (vm_compute; lia).
  exact (conj Hlen
           (proj2 (locked_operations_finish (sample_config 4) [Clear] true (repeat 0%nat 11))
                  Hlen)).
Defined.

Lemma commandAndDelay_on_any_hardware_witness :
  wired (constructor (sample_config 4)) /\
  let t := trace_of hw_dead
             (Plain.commandAndDelay_locked (constructor (sample_config 4)) (Int 1) 3) in
  t = command_frame (Js.toInt32 (Int 1)) ++ [Delay 3; Resolve; Release] \/
  exists part rest,
    part ++ rest = command_frame (Js.toInt32 (Int 1)) /\ rest <> [] /\
    t = part ++ [Reject PinFault; Release].
Proof.
  exact (conj eq_refl
           (commandAndDelay_on_any_hardware (constructor (sample_config 4)) hw_dead (Int 1) 3
              eq_refl)).
Defined.

Lemma tryCommand_on_any_hardware_witness :
  wired (constructor (sample_config 4)) /\
  let o := outcome_of hw_dead (Ts.tryCommand (constructor (sample_config 4)) (Int 1) true) in
  let t := trace_of hw_dead (Ts.tryCommand (constructor (sample_config 4)) (Int 1) true) in
  (o = Ok (Boolean true) /\ t = command_frame (Js.toInt32 (Int 1))) \/
  (o = Ok (Boolean false) /\
   exists part rest,
     part ++ rest = command_frame (Js.toInt32 (Int 1)) /\ rest <> [] /\
     t = part ++ [Callback (AErr PinFault)]).
Proof.
  exact (conj eq_refl
           (tryCommand_on_any_hardware (constructor (sample_config 4)) hw_dead (Int 1)
              eq_refl)).
Defined.

(** 165 code units: the last 85 arrive. *)
Lemma print_window_witness :
  wired (constructor (sample_config 4)) /\
  let got := received (trace_of hw_ok
                         (Plain.print_locked (constructor (sample_config 4))
                            (repeat 0x41 165))) in
  let n := if (List.length (repeat 0x41 165) <? 160)%nat
           then List.length (repeat 0x41 165)
           else (80 + List.length (repeat 0x41 165) mod 80)%nat in
  got = map (fun c => (true, c mod 256))
            (skipn (List.length (repeat 0x41 165) - n) (repeat 0x41 165)) /\
  List.length got = n /\ (n < 160)%nat.
Proof.
  exact (conj eq_refl
           (print_window (constructor (sample_config 4)) (repeat 0x41 165) eq_refl)).
Defined.

Lemma bus_discipline_witness :
  wired (constructor (sample_config 4)) /\
  line_e all_low = false /\
  let kept := fun t => disciplined all_low t = true /\
                       line_e (lines_after all_low t) = false in
  kept (trace_of hw_ok (Lcd.init (constructor (sample_config 4)))) /\
  (forall cmd, kept (trace_of hw_ok (Lcd.command (constructor (sample_config 4)) cmd))) /\
  (forall op, kept (trace_of hw_ok (plain_locked (constructor (sample_config 4)) op))).
Proof.
  exact (conj eq_refl (conj eq_refl
           (bus_discipline (constructor (sample_config 4)) all_low eq_refl eq_refl))).
Defined.

(** A string of 802 code units, whatever 576 turns are taken. *)
Lemma print_transmits_witness :
  List.length (repeat 0x41 802) = 802%nat /\
  (576 <= List.length (repeat 0%nat 576))%nat /\
  let st := exec hw_ok (repeat 0%nat 576)
                 (issue hw_ok [Plain.print (constructor (sample_config 4))
                                           (repeat 0x41 802)]) in
  finished st /\
  events st = characters (skipn 720 (repeat 0x41 802)) ++ [Immediate; Release; Resolve].
Proof.
  assert (Hlen : List.length (repeat 0x41 802) = 802%nat) by reflexivity.
  assert (Hsched : (576 <= List.length (repeat 0%nat 576))%nat)
    by (vm_compute; reflexivity).
  exact (conj Hlen (conj Hsched
           (proj1 (proj2 print_transmits) (sample_config 4) (repeat 0x41 802)
                  (repeat 0%nat 576) Hlen Hsched))).
Defined.

(** A [clear] with a callback followed by a [print] without one. *)
Lemma completion_reported_witness :
  (duty true
     (issue hw_ok
        (map (fun c => ts_operation (constructor (sample_config 4)) (fst c) (snd c))
             [(Clear, true); (Print [0x41%Z], false)]))
   <= List.length (repeat 0%nat 40))%nat /\
  finished
    (exec hw_ok (repeat 0%nat 40)
       (issue hw_ok
          (map (fun c => ts_operation (constructor (sample_config 4)) (fst c) (snd c))
               [(Clear, true); (Print [0x41%Z], false)]))) /\
  reports
    (log (exec hw_ok (repeat 0%nat 40)
            (issue hw_ok
               (map (fun c => ts_operation (constructor (sample_config 4)) (fst c) (snd c))
                    [(Clear, true); (Print [0x41%Z], false)])))) =
  List.concat
    (mapi (fun c k => [(Op k, success (fst c) (snd c)); (Op k, Release); (Op k, Resolve)])
          [(Clear, true); (Print [0x41%Z], false)]).
Proof.
  assert (Hlen : (duty true
     (issue hw_ok
        (map (fun c => ts_operation (constructor (sample_config 4)) (fst c) (snd c))
             [(Clear, true); (Print [0x41%Z], false)]))
   <= List.length (repeat 0%nat 40))%nat)
    by (vm_compute; lia).
  exact (conj Hlen
           (proj2 (completion_reported_once_before_release
                     (sample_config 4) [(Clear, true); (Print [0x41%Z], false)]
                     (repeat 0%nat 40))
                  Hlen)).
Defined.

